(** * Patch application and patch-identity verification of android-tools-static

    A shallow embedding of
      - [SBOM_scripts/git/patch_id.py],
      - [SBOM_scripts/git/submodule_verification.py],
      - the verification call site of [SBOM_scripts/high_level/document.py],
      - [vendor/meson_patch_vendor.py].

    Python exceptions are an error monad over an explicit state; external
    programs ([git], [patch]) and the file system are an interface whose
    operations are parameters of the development. *)

From Stdlib Require Import String Ascii List ZArith Bool Arith Lia.
From Stdlib Require Import DecimalString.
Import ListNotations.
Open Scope string_scope.

(* ===================================================================== *)
(** * The Python runtime the scripts rely on                              *)
(* ===================================================================== *)

Module Py.

(** A line feed, and the double quote (kept out of string literals). *)
Definition LF : string := String (ascii_of_nat 10) EmptyString.
Definition DQUOTE : string := String (ascii_of_nat 34) EmptyString.

(** [s[:n]]. *)
Definition slice_to (n : nat) (s : string) : string := substring 0 n s.

(** [str(n)] of a non-negative integer. *)
Definition str_of_nat (n : nat) : string :=
  NilEmpty.string_of_uint (Nat.to_uint n).

(** [str.isspace] on one character, for code points below 256. *)
Definition isspace (c : ascii) : bool :=
  let n := nat_of_ascii c in
  (((9 <=? n) && (n <=? 13)) || ((28 <=? n) && (n <=? 32))
   || (n =? 133) || (n =? 160))%nat.

(** [s.rstrip()]. *)
Fixpoint rstrip (s : string) : string :=
  match s with
  | EmptyString => EmptyString
  | String c s' =>
      match rstrip s' with
      | EmptyString => if isspace c then EmptyString else String c EmptyString
      | r => String c r
      end
  end.

(** [sep.join(parts)]. *)
Fixpoint join (sep : string) (parts : list string) : string :=
  match parts with
  | [] => EmptyString
  | [p] => p
  | p :: rest => p ++ sep ++ join sep rest
  end.

(** What a finished child process leaves behind. *)
Record Completed : Type := mkCompleted {
  returncode : Z;
  stdout : string;
  stderr : string
}.

(** [subprocess.CalledProcessError(returncode, cmd, output, stderr)];
    [None] is Python's [None] (the stream was not captured). *)
Record CalledProcessError : Type := mkCalledProcessError {
  cpe_returncode : Z;
  cpe_cmd : list string;
  cpe_stdout : option string;
  cpe_stderr : option string
}.

(** The argument of [sys.exit]. *)
Inductive exit_arg : Type :=
| ExitCode (n : Z)
| ExitMessage (msg : string).

(** The exceptions that can travel through the modelled code. *)
Inductive exn : Type :=
| ECalledProcessError (e : CalledProcessError)
| EOSError (what : string)
| EPatchIDError (commit_patch_id patch_patch_id repo_dir patch_file : string)
| ENameError (name : string)
| EAttributeError (what : string)
| ESystemExit (a : exit_arg).

Inductive outcome (A : Type) : Type :=
| Ok (a : A)
| Raise (e : exn).
Arguments Ok {A} a.
Arguments Raise {A} e.

(** Computations over a state [St] that may raise. *)
Definition M (St A : Type) : Type := St -> outcome A * St.

Definition ret {St A} (a : A) : M St A := fun s => (Ok a, s).

Definition raise {St A} (e : exn) : M St A := fun s => (Raise e, s).

Definition bind {St A B} (m : M St A) (k : A -> M St B) : M St B :=
  fun s =>
    match m s with
    | (Ok a, s') => k a s'
    | (Raise e, s') => (Raise e, s')
    end.

(** [try: body / except subprocess.CalledProcessError as exc: handler /
    else: orelse].  Only a [CalledProcessError] is caught, and what
    [orelse] raises is not. *)
Definition try_except_else {St A B}
    (body : M St A) (handler : CalledProcessError -> M St B)
    (orelse : A -> M St B) : M St B :=
  fun s =>
    match body s with
    | (Ok a, s') => orelse a s'
    | (Raise (ECalledProcessError exc), s') => handler exc s'
    | (Raise e, s') => (Raise e, s')
    end.

(** [try: body / except subprocess.CalledProcessError as exc: handler]. *)
Definition try_except {St A}
    (body : M St A) (handler : CalledProcessError -> M St A) : M St A :=
  try_except_else body handler ret.

End Py.

Declare Scope py_scope.
Delimit Scope py_scope with py.
Notation "x <- m ;; k" := (Py.bind m (fun x => k))
  (at level 61, m at next level, right associativity) : py_scope.
Notation "m ;;; k" := (Py.bind m (fun _ => k))
  (at level 61, right associativity) : py_scope.

(* ===================================================================== *)
(** * SBOM_scripts/git/patch_id.py                                        *)
(* ===================================================================== *)

Module PatchId.
Import Py.
Local Open Scope py_scope.

(** What the module asks of its surroundings.  Reading a file and running
    [git diff] or [git patch-id] change nothing, so the operations are
    functions; [None] is the [OSError] of a file that cannot be opened or a
    program that cannot be started. *)
Record Host : Type := mkHost {
  open_text : string -> option string;
  run : list string -> option string -> option string -> option Completed
  (* argv, cwd, bytes on stdin (None: inherited) *)
}.

(** What the host has been asked, in order. *)
Inductive event : Type :=
| Opened (path : string)
| Spawned (argv : list string) (cwd : option string) (stdin : option string)
| Communicated (argv : list string).

Definition trace := list event.

Definition log (e : event) : M trace unit := fun t => (Ok tt, (t ++ [e])%list).

Section WithHost.
Variable host : Host.

(** [path.open()]. *)
Definition open_path (path : string) : M trace string :=
  log (Opened path) ;;;
  match open_text host path with
  | Some text => ret text
  | None => raise (EOSError path)
  end.

(** [subprocess.Popen(args, stdin=..., stdout=PIPE, stderr=PIPE, cwd=...)].
    The value stands for the process object: what the process will have
    written and returned once it has been waited for. *)
Definition Popen (args : list string) (cwd stdin : option string)
  : M trace Completed :=
  log (Spawned args cwd stdin) ;;;
  match run host args cwd stdin with
  | Some p => ret p
  | None => raise (EOSError (Py.join " " args))
  end.

(** [proc.communicate()]: reads both streams to their end and waits. *)
Definition communicate (args : list string) (p : Completed)
  : M trace (string * string) :=
  log (Communicated args) ;;; ret (stdout p, stderr p).

(** [subprocess.run(args, stdin=input, capture_output=True, text=True,
    check=True)]. *)
Definition run_checked (args : list string) (input : string)
  : M trace Completed :=
  p <- Popen args None (Some input) ;;
  _ <- communicate args p ;;
  if (returncode p =? 0)%Z then ret p
  else raise (ECalledProcessError
                (mkCalledProcessError (returncode p) args
                   (Some (stdout p)) (Some (stderr p)))).

Definition get_file_patch_id (patch_path git_exe : string)
  : M trace string :=
  input <- open_path patch_path ;;
  exec_proc <- run_checked [git_exe; "patch-id"; "--stable"] input ;;
  ret (slice_to 40 (stdout exec_proc)).

Definition git_diff_args (git_exe : string) (n : nat) : list string :=
  [git_exe; "diff"; "HEAD~" ++ str_of_nat n ++ "^!"].

Definition git_patch_id_args (git_exe : string) : list string :=
  [git_exe; "patch-id"; "--stable"].

(** The second process reads what the first writes; closing the
    parent's end of that pipe changes nothing that is observed here. *)
Definition get_nth_head_commit_patch_id
    (repo_dir git_exe : string) (n : nat) : M trace string :=
  git_diff_proc <- Popen (git_diff_args git_exe n) (Some repo_dir) None ;;
  git_patch_id_proc <-
    Popen (git_patch_id_args git_exe) None (Some (stdout git_diff_proc)) ;;
  out_err <- communicate (git_patch_id_args git_exe) git_patch_id_proc ;;
  diff_out_err <- communicate (git_diff_args git_exe n) git_diff_proc ;;
  let git_patch_id_stdout := fst out_err in
  let git_patch_id_stderr := snd out_err in
  let git_diff_stderr := snd diff_out_err in
  if negb (returncode git_diff_proc =? 0)%Z then
    raise (ECalledProcessError
             (mkCalledProcessError (returncode git_diff_proc)
                (git_diff_args git_exe n) None (Some git_diff_stderr)))
  else if negb (returncode git_patch_id_proc =? 0)%Z then
    raise (ECalledProcessError
             (mkCalledProcessError (returncode git_patch_id_proc)
                (git_patch_id_args git_exe)
                (Some git_patch_id_stdout) (Some git_patch_id_stderr)))
  else ret (slice_to 40 git_patch_id_stdout).

End WithHost.

End PatchId.

(* ===================================================================== *)
(** * SBOM_scripts/git/submodule_verification.py                          *)
(* ===================================================================== *)

Module SubmoduleVerification.
Import Py.
Local Open Scope py_scope.

(** The text [PatchIDError.__init__] hands to [RuntimeError]. *)
Definition PatchIDError_message
    (commit_patch_id patch_patch_id repo_dir patch_file : string) : string :=
  "Couldn't verify patch '" ++ patch_file ++ "' in git submodule '"
    ++ repo_dir ++ "'! "
    ++ "Commit patch id '" ++ commit_patch_id ++ "' != patch id '"
    ++ patch_patch_id ++ "'!".

Definition exn_message (e : exn) : option string :=
  match e with
  | EPatchIDError c p r f => Some (PatchIDError_message c p r f)
  | _ => None
  end.

Section WithHost.
Variable host : PatchId.Host.

(** The body of [for patch_num, patch in enumerate(patch_series)], from
    the index [patch_num] on. *)
Fixpoint verify_from (git_exe repo_path : string) (patch_num : nat)
    (patch_series : list string) : M PatchId.trace unit :=
  match patch_series with
  | [] => ret tt
  | patch :: rest =>
      commit_patch_id <-
        PatchId.get_nth_head_commit_patch_id host repo_path git_exe
          patch_num ;;
      patch_patch_id <- PatchId.get_file_patch_id host patch git_exe ;;
      if negb (commit_patch_id =? patch_patch_id)%string then
        raise (EPatchIDError commit_patch_id patch_patch_id repo_path patch)
      else verify_from git_exe repo_path (S patch_num) rest
  end.

Definition verify_checkout_patches
    (git_exe repo_path : string) (patch_series : list string)
  : M PatchId.trace unit :=
  verify_from git_exe repo_path 0 patch_series.

End WithHost.

End SubmoduleVerification.

(* ===================================================================== *)
(** * SBOM_scripts/high_level/document.py: the verification of every
      submodule's merged patch list                                       *)
(* ===================================================================== *)

Module Document.
Import Py.
Local Open Scope py_scope.

(** [a / b] of [pathlib], for a relative [b] on a POSIX host. *)
Definition path_div (a b : string) : string := a ++ "/" ++ b.

Section WithHost.
Variable host : PatchId.Host.

(** [for submodule_name, patch_list in merged_patch_list.items()]; a
    [dict] is walked in insertion order. *)
Fixpoint verify_merged_patch_list (git_exe source_dir : string)
    (merged_patch_list : list (string * list string))
  : M PatchId.trace unit :=
  match merged_patch_list with
  | [] => ret tt
  | (submodule_name, patch_list) :: rest =>
      SubmoduleVerification.verify_checkout_patches host git_exe
        (path_div (path_div source_dir "vendor") submodule_name)
        (rev patch_list) ;;;
      verify_merged_patch_list git_exe source_dir rest
  end.

End WithHost.

End Document.

(* ===================================================================== *)
(** * vendor/meson_patch_vendor.py                                        *)
(* ===================================================================== *)

Module MesonPatchVendor.
Import Py.
Local Open Scope py_scope.

(** ** [shlex] *)

(** The characters [shlex.quote] leaves alone: [[A-Za-z0-9_@%+=:,./-]]. *)
Definition is_safe_char (c : ascii) : bool :=
  let n := nat_of_ascii c in
  (((48 <=? n) && (n <=? 57)) || ((65 <=? n) && (n <=? 90))
   || ((97 <=? n) && (n <=? 122))
   || existsb (Nat.eqb n) [95; 64; 37; 43; 61; 58; 44; 46; 47; 45])%nat.

Fixpoint all_safe (s : string) : bool :=
  match s with
  | EmptyString => true
  | String c r => is_safe_char c && all_safe r
  end.

(** [s.replace(<quote>, <quote, double quote, quote, double quote, quote>)]. *)
Fixpoint replace_squote (s : string) : string :=
  match s with
  | EmptyString => EmptyString
  | String c r =>
      if Ascii.eqb c "'"%char
      then "'" ++ DQUOTE ++ "'" ++ DQUOTE ++ "'" ++ replace_squote r
      else String c (replace_squote r)
  end.

Definition shlex_quote (s : string) : string :=
  match s with
  | EmptyString => "''"
  | _ => if all_safe s then s else "'" ++ replace_squote s ++ "'"
  end.

Definition shlex_join (args : list string) : string :=
  join " " (map shlex_quote args).

(** Python's truth value of a [str]. *)
Definition truthy (s : string) : bool :=
  match s with EmptyString => false | _ => true end.

(** ** The command line and the machine *)

(** What [parser.parse_args()] returns. *)
Record Args : Type := mkArgs {
  git_executable : string;
  patch_executable : string;
  submodule_name : string;
  patches : list string
}.

(** The operating system and the programs the script starts.  [World] is
    everything they can change: the vendored tree, the repository, the
    current directory.  [None] is an [OSError].
    [host_spawn argv stdin merge w]: run [argv] with [stdin] on its
    standard input; with [merge] its standard error is sent to the pipe of
    its standard output and [stdout] holds both. *)
Record Host (World : Type) : Type := mkHost {
  os_sep : string;
  script_root : string; (* pathlib.Path(__file__).parent.parent *)
  host_chdir : string -> World -> option World;
  host_exists : string -> World -> bool;
  host_iterdir : string -> World -> option (list string);
  host_open : string -> World -> option string;
  host_spawn :
    list string -> option string -> bool -> World -> option (Completed * World)
}.
Arguments os_sep {World} _.
Arguments script_root {World} _.
Arguments host_chdir {World} _ _ _.
Arguments host_exists {World} _ _ _.
Arguments host_iterdir {World} _ _ _.
Arguments host_open {World} _ _ _.
Arguments host_spawn {World} _ _ _ _ _.

(** What an observer of the process sees, in order. *)
Inductive event : Type :=
| Chdir (path : string)
| Stdout (text : string)
| Stderr (text : string)
| Ran (argv : list string) (stdin_path : option string)
| Traceback (e : exn).

Record St (World : Type) : Type := mkSt {
  world : World;
  events : list event
}.
Arguments mkSt {World} _ _.
Arguments world {World} _.
Arguments events {World} _.

(** The command lines of the events, in order. *)
Fixpoint commands (l : list event) : list (list string) :=
  match l with
  | [] => []
  | Ran argv _ :: r => argv :: commands r
  | _ :: r => commands r
  end.

Section Script.
Context {World : Type}.
Variable host : Host World.
Variable args : Args.
Variable environ : string -> option string.

Definition Cmd (A : Type) : Type := M (St World) A.

Definition emit (e : event) : Cmd unit :=
  fun s => (Ok tt, mkSt (world s) (events s ++ [e])%list).

(** [print] of the parts, joined by a space. *)
Definition print (to_print : list string) : Cmd unit :=
  emit (Stdout (join " " to_print ++ LF)).

Definition _printerr (to_print : list string) (end_ : string) : Cmd unit :=
  emit (Stderr (join " " to_print ++ end_)).

Definition sys_exit {A} (a : exit_arg) : Cmd A := raise (ESystemExit a).

Definition os_chdir (path : string) : Cmd unit :=
  fun s =>
    match host_chdir host path (world s) with
    | Some w => (Ok tt, mkSt w (events s ++ [Chdir path])%list)
    | None => (Raise (EOSError path), s)
    end.

Definition path_exists (path : string) : Cmd bool :=
  fun s => (Ok (host_exists host path (world s)), s).

(** [next(pathlib.Path(path).iterdir(), None) is None]. *)
Definition iterdir_is_empty (path : string) : Cmd bool :=
  fun s =>
    match host_iterdir host path (world s) with
    | Some [] => (Ok true, s)
    | Some (_ :: _) => (Ok false, s)
    | None => (Raise (EOSError path), s)
    end.

(** [subprocess.run(args, check=True, stderr=subprocess.PIPE, text=True)]. *)
Definition subprocess_run_command (argv : list string) : Cmd unit :=
  fun s =>
    let s1 := mkSt (world s) (events s ++ [Ran argv None])%list in
    match host_spawn host argv None false (world s) with
    | None => (Raise (EOSError (join " " argv)), s1)
    | Some (p, w) =>
        let s2 := mkSt w (events s1) in
        if (returncode p =? 0)%Z then (Ok tt, s2)
        else (Raise (ECalledProcessError
                       (mkCalledProcessError (returncode p) argv None
                          (Some (stderr p)))), s2)
    end.

(** [with open(patch) as input: subprocess.run(args, check=True,
    stdin=input, stdout=subprocess.PIPE, stderr=subprocess.STDOUT,
    text=True)]. *)
Definition subprocess_run_patch (patch : string) (argv : list string)
  : Cmd unit :=
  fun s =>
    match host_open host patch (world s) with
    | None => (Raise (EOSError patch), s)
    | Some input =>
        let s1 := mkSt (world s) (events s ++ [Ran argv (Some patch)])%list in
        match host_spawn host argv (Some input) true (world s) with
        | None => (Raise (EOSError (join " " argv)), s1)
        | Some (p, w) =>
            let s2 := mkSt w (events s1) in
            if (returncode p =? 0)%Z then (Ok tt, s2)
            else (Raise (ECalledProcessError
                           (mkCalledProcessError (returncode p) argv
                              (Some (stdout p)) None)), s2)
        end
    end.

(** [exc.stderr.rstrip()], [exc.stdout.rstrip()]: an [AttributeError] on
    [None]. *)
Definition rstrip_of (field : string) (o : option string) : Cmd string :=
  match o with
  | Some text => ret (rstrip text)
  | None => raise (EAttributeError field)
  end.

Definition _failed_git_invocation {A}
    (reason : string) (exc : CalledProcessError) : Cmd A :=
  err <- rstrip_of "stderr" (cpe_stderr exc) ;;
  _printerr [reason ++ LF ++ LF ++ "git error message:" ++ LF ++ err]
    EmptyString ;;;
  sys_exit (ExitCode 1).

Definition _failed_patch_invocation {A}
    (reason : string) (exc : CalledProcessError) : Cmd A :=
  out <- rstrip_of "stdout" (cpe_stdout exc) ;;
  _printerr [reason ++ LF ++ LF ++ "patch error message:" ++ LF ++ out]
    EmptyString ;;;
  sys_exit (ExitCode 1).

Definition _run_command (argv : list string) : Cmd unit :=
  let command := shlex_join argv in
  print ["    >>>>> Running: " ++ command] ;;;
  subprocess_run_command argv.

Definition _run_patch (patch : string) (argv : list string) : Cmd unit :=
  let command := shlex_join argv in
  print ["    >>>>> Running: " ++ command ++ " < " ++ shlex_quote patch] ;;;
  subprocess_run_patch patch argv.

(** *** Strategy A: the commands of the reset *)

Definition reset_hard_argv (git submodule_rel_path : string) : list string :=
  [git; "-C"; submodule_rel_path; "reset"; "--hard"].

Definition clean_argv (git submodule_rel_path : string) : list string :=
  [git; "-C"; submodule_rel_path; "clean"; "--force"; "-d"; "-x"].

Definition _reset_git_submodule
    (git_executable submodule_rel_path : string) : Cmd unit :=
  try_except
    (_run_command (reset_hard_argv git_executable submodule_rel_path) ;;;
     _run_command (clean_argv git_executable submodule_rel_path))
    (fun exc =>
       _failed_git_invocation
         ("Could not clean up the '" ++ submodule_rel_path
            ++ "' submodule!") exc).

(** *** Strategy B: [git apply] *)

Definition git_revert_check_argv (git sub patch : string) : list string :=
  [git; "-C"; sub; "apply"; "--check"; "--reverse"; patch].

Definition git_revert_argv (git sub patch : string) : list string :=
  [git; "-C"; sub; "apply"; "--reverse"; patch].

Definition _try_revert_nogit_git
    (git_executable submodule_rel_path patch : string) : Cmd unit :=
  _run_command (git_revert_check_argv git_executable submodule_rel_path patch) ;;;
  try_except
    (_run_command (git_revert_argv git_executable submodule_rel_path patch))
    (fun exc =>
       _failed_git_invocation
         ("A revert of patch '" ++ patch ++ "' of vendored project "
            ++ "'" ++ submodule_rel_path ++ "' was unsuccessful even though a "
            ++ "previous --check was successful!") exc).

Definition git_apply_check_argv (git sub patch : string) : list string :=
  [git; "-C"; sub; "apply"; "--check"; "--verbose"; patch].

Definition git_apply_reverse_check_argv (git sub patch : string)
  : list string :=
  [git; "-C"; sub; "apply"; "--reverse"; "--check"; patch].

Definition git_apply_argv (git sub patch : string) : list string :=
  [git; "-C"; sub; "apply"; "--verbose"; patch].

Definition already_applied_message (patch : string) : list string :=
  ["    ======= Patch '" ++ patch ++ "' applied already,";
   "doing nothing... ======="].

(** The module-level [args.git_executable]. *)
Definition args_git_executable : string := git_executable args.

(** The reverse check is run with the module-level
    [args.git_executable], as in the source. *)
Definition _apply_git_norepo_patch
    (git_executable submodule_rel_path patch : string) : Cmd unit :=
  try_except_else
    (_run_command (git_apply_check_argv git_executable submodule_rel_path patch))
    (fun exc =>
       try_except_else
         (_run_command
            (git_apply_reverse_check_argv args_git_executable
               submodule_rel_path patch))
         (fun _ =>
            _failed_git_invocation
              ("Could not apply patch '" ++ patch ++ "' for "
                 ++ "'" ++ submodule_rel_path ++ "' submodule!") exc)
         (fun _ => print (already_applied_message patch)))
    (fun _ =>
       try_except
         (_run_command (git_apply_argv git_executable submodule_rel_path patch))
         (fun exc =>
            _failed_git_invocation
              ("Could not apply patch '" ++ patch ++ "' for "
                 ++ "'" ++ submodule_rel_path ++ "' submodule! A previous --check "
                 ++ "git apply invocation was successful for this patch.")
              exc)).


(** *** Strategy C: [patch] *)

Definition patch_revert_check_argv (patch_exe sub : string) : list string :=
  [patch_exe; "-d"; sub; "-p"; "1"; "-R"; "--dry-run"].

Definition patch_revert_argv (patch_exe sub : string) : list string :=
  [patch_exe; "-d"; sub; "-p"; "1"; "-R"].

Definition _try_revert_patch
    (patch_executable submodule_rel_path patch : string) : Cmd unit :=
  _run_patch patch (patch_revert_check_argv patch_executable submodule_rel_path) ;;;
  try_except
    (_run_patch patch (patch_revert_argv patch_executable submodule_rel_path))
    (fun exc =>
       _failed_patch_invocation
         ("A revert of patch '" ++ patch ++ "' of vendored project "
            ++ "'" ++ submodule_rel_path ++ "' was unsuccessful even though a "
            ++ "previous --dry-run was successful!") exc).

Definition patch_apply_check_argv (patch_exe sub : string) : list string :=
  [patch_exe; "-d"; sub; "-p"; "1"; "--dry-run"].

Definition patch_apply_reverse_check_argv (patch_exe sub : string)
  : list string :=
  [patch_exe; "-d"; sub; "-p"; "1"; "--dry-run"; "-R"].

Definition patch_apply_argv (patch_exe sub : string) : list string :=
  [patch_exe; "-d"; sub; "-p"; "1"].

Definition _apply_patch
    (patch_executable submodule_rel_path patch : string) : Cmd unit :=
  try_except_else
    (_run_patch patch (patch_apply_check_argv patch_executable submodule_rel_path))
    (fun exc =>
       try_except_else
         (_run_patch patch
            (patch_apply_reverse_check_argv patch_executable submodule_rel_path))
         (fun _ =>
            _failed_patch_invocation
              ("Could not apply patch '" ++ patch ++ "' for "
                 ++ "'" ++ submodule_rel_path ++ "' submodule!") exc)
         (fun _ => print (already_applied_message patch)))
    (fun _ =>
       try_except
         (_run_patch patch (patch_apply_argv patch_executable submodule_rel_path))
         (fun exc =>
            _failed_patch_invocation
              ("Could not apply patch '" ++ patch ++ "' for "
                 ++ "'" ++ submodule_rel_path ++ "' submodule! A previous --dry-run "
                 ++ "patch invocation was successful for this patch.")
              exc)).

(** *** The script body *)

(** The three names the [else] branch binds before its loops. *)
Record Strategy : Type := mkStrategy {
  revert_func : string -> string -> Cmd unit;
  apply_func : string -> string -> Cmd unit;
  fail_func : string -> CalledProcessError -> Cmd unit
}.

Definition git_apply_strategy : Strategy :=
  mkStrategy
    (fun submodule_rel_path patch =>
       _try_revert_nogit_git (git_executable args) submodule_rel_path patch)
    (fun reason exc =>
       _apply_git_norepo_patch (git_executable args) reason exc)
    (fun reason exc => _failed_git_invocation reason exc).

Definition patch_strategy : Strategy :=
  mkStrategy
    (fun submodule_rel_path patch =>
       _try_revert_patch (patch_executable args) submodule_rel_path patch)
    (fun reason exc => _apply_patch (patch_executable args) reason exc)
    (fun reason exc => _failed_patch_invocation reason exc).

Definition revert_failure_reason (submodule_rel_path patch : string)
  : string :=
  "Couldn't revert patch '" ++ patch ++ "' of submodule "
    ++ "'" ++ submodule_rel_path ++ "'! This error is not "
    ++ "recoverable without manual intervention. If that "
    ++ "isn't possible, please restore this project into "
    ++ "its original state (by for example reextracting a "
    ++ "release tarball if that is this project's origin).".

Definition never_applied_message : list string :=
  ["    ========= Invocation failed, patch was likely";
   "never applied ========="].

(** A use of a name that the [if]/[elif] chain did not bind. *)
Definition bound (name : string) (strategy : option Strategy)
  : Cmd Strategy :=
  match strategy with
  | Some st => ret st
  | None => raise (ENameError name)
  end.

(** [for patch in reversed(args.patches)], from the state of
    [expects_successful_reverts] on; the argument is what is left of the
    reversed list. *)
Fixpoint cleanup_loop (strategy : option Strategy)
    (submodule_rel_path : string) (expects_successful_reverts : bool)
    (todo : list string) : Cmd unit :=
  match todo with
  | [] => ret tt
  | patch :: rest =>
      expects <-
        try_except_else
          (st <- bound "revert_func" strategy ;;
           revert_func st submodule_rel_path patch)
          (fun exc =>
             (if expects_successful_reverts then
                st <- bound "fail_func" strategy ;;
                fail_func st
                  (revert_failure_reason submodule_rel_path patch) exc
              else print never_applied_message) ;;;
             ret expects_successful_reverts)
          (fun _ => ret true) ;;
      cleanup_loop strategy submodule_rel_path expects rest
  end.

(** [for patch in args.patches: apply_func(submodule_rel_path, patch)]. *)
Fixpoint apply_loop (strategy : option Strategy)
    (submodule_rel_path : string) (todo : list string) : Cmd unit :=
  match todo with
  | [] => ret tt
  | patch :: rest =>
      (st <- bound "apply_func" strategy ;;
       apply_func st submodule_rel_path patch) ;;;
      apply_loop strategy submodule_rel_path rest
  end.

Definition git_am_argv (git submodule_rel_path : string)
    (patch_list : list string) : list string :=
  ([git;
    "-c"; "safe.directory=*";
    "-c"; "user.name=android-tools-static's build system";
    "-c"; "user.email=email@invalid.invalid";
    "-C"; submodule_rel_path;
    "am"] ++ patch_list)%list.

Definition tool_unavailable_message : string :=
  "At least one patch executable must be specified! This is "
    ++ "likely a bug in the Meson build system, which should handle "
    ++ "this edge case itself.".

(** The branch taken when [git] is there and [.git] exists. *)
Definition git_am_branch (submodule_rel_path : string) : Cmd unit :=
  print ["    ===== Using 'git am' patch strategy, we are in a git";
         "repository ====="] ;;;
  print ["    ======= Cleaning up submodules ======="] ;;;
  _reset_git_submodule (git_executable args) submodule_rel_path ;;;
  possible_failed_git_am <-
    path_exists
      (join (os_sep host)
         [".git"; "modules"; "vendor"; submodule_name args; "rebase-apply"]) ;;
  print ["    ======= Applying patches ======="] ;;;
  try_except
    (_run_command
       (git_am_argv (git_executable args) submodule_rel_path (patches args)))
    (fun exc =>
       _printerr ["Could not apply patches for '" ++ submodule_rel_path ++ "'";
                  "submodule!"] EmptyString ;;;
       (if possible_failed_git_am then
          _printerr [" This error is likely caused by a previous failed";
                     "invocation of `git am`. To fix this, run the following";
                     "command:" ++ LF ++ LF] EmptyString ;;;
          _printerr ["git -C vendor/" ++ submodule_name args
                       ++ " am --abort" ++ LF ++ LF] EmptyString ;;;
          _printerr ["from the repository root and then reconfigure the";
                     "builddir."] LF
        else
          empty <- iterdir_is_empty submodule_rel_path ;;
          if (empty : bool) then
            _printerr
              [" The submodule doesn't seem to be initialized. To initialize all";
               "submodules, run the following command:" ++ LF ++ LF]
              EmptyString ;;;
            _printerr ["git submodule update --init" ++ LF ++ LF] EmptyString ;;;
            _printerr
              ["from the repository root and then reconfigure the";
               "builddir. Alternatively, you can use -src release archives in";
               "https://github.com/meator/android-tools-static/releases which";
               "already include the necessary submodules."] LF
          else _printerr [] LF) ;;;
       _printerr [] LF ;;;
       _printerr ["git error message:"] LF ;;;
       err <- rstrip_of "stderr" (cpe_stderr exc) ;;
       _printerr [err] EmptyString ;;;
       sys_exit (ExitCode 1)).

(** The [if args.git_executable: ... elif args.patch_executable: ...] that
    binds [revert_func], [apply_func] and [fail_func]. *)
Definition choose_strategy (is_in_git_repo : bool)
  : Cmd (option Strategy) :=
  if truthy (git_executable args) then
    print ["    ===== Using 'git apply' patch strategy, we are not in a";
           "git repository ====="] ;;;
    ret (Some git_apply_strategy)
  else if truthy (patch_executable args) then
    (if is_in_git_repo then
       print ["    ===== Using 'patch' patch strategy, we are in a git";
              "repository (irrelevant for 'patch') ====="]
     else
       print ["    ===== Using 'patch' patch strategy, we are not in a";
              "git repository (irrelevant for 'patch') ====="]) ;;;
    ret (Some patch_strategy)
  else ret None.

(** The other branch: revert in reverse, then apply forward. *)
Definition revert_apply_branch (submodule_rel_path : string)
    (is_in_git_repo : bool) : Cmd unit :=
  (if negb is_in_git_repo then
     print ["    ===== WARNING: Not in a git repository, using";
            "potentially less reliable patching strategy ====="]
   else if is_in_git_repo && negb (truthy (git_executable args)) then
     print ["    ===== WARNING: It looks like we are in a git repo (likely";
            "cloned with 'git clone'), but the 'git' executable is nowhere";
            "to be found. It is recommended to use 'git' for patching";
            "(using 'git am') the vendored submodules, because it is";
            "simpler to handle and revert bad patches. ====="]
   else ret tt) ;;;
  strategy <- choose_strategy is_in_git_repo ;;
  print ["    ======= Cleaning up vendored projects ======="] ;;;
  cleanup_loop strategy submodule_rel_path false (rev (patches args)) ;;;
  print ["    ======= Applying patches ======="] ;;;
  apply_loop strategy submodule_rel_path (patches args).

(** The body under [if __name__ == "__main__"], after [parse_args]. *)
Definition main : Cmd unit :=
  match environ "MESON_SOURCE_ROOT" with
  | Some root => os_chdir root
  | None => os_chdir (script_root host)
  end ;;;
  if (git_executable args =? EmptyString)%string
     && (patch_executable args =? EmptyString)%string
  then sys_exit (ExitMessage tool_unavailable_message)
  else
    let submodule_rel_path := "vendor" ++ os_sep host ++ submodule_name args in
    is_in_git_repo <- path_exists ".git" ;;
    if truthy (git_executable args) && (is_in_git_repo : bool) then
      git_am_branch submodule_rel_path
    else revert_apply_branch submodule_rel_path is_in_git_repo.

(** The interpreter around [main]: what reaches the error stream at exit
    and the exit status of the process. *)
Definition script (s : St World) : Z * St World :=
  match main s with
  | (Ok tt, s') => (0%Z, s')
  | (Raise (ESystemExit (ExitCode n)), s') => (n, s')
  | (Raise (ESystemExit (ExitMessage msg)), s') =>
      (1%Z, mkSt (world s') (events s' ++ [Stderr (msg ++ LF)])%list)
  | (Raise e, s') =>
      (1%Z, mkSt (world s') (events s' ++ [Traceback e])%list)
  end.

End Script.

End MesonPatchVendor.

(* ===================================================================== *)
(** * The two-phase protocol of the driver, seen from the tools           *)
(* ===================================================================== *)

(** The revert-then-apply branch starts five kinds of tool invocation per
    patch.  This module names them for both tools, with the arguments the
    driver gives them, so that statements about a run can speak about what
    each invocation returned and how it left the world. *)

Module Protocol.
Import Py MesonPatchVendor.

(** The tool used by the revert-then-apply branch. *)
Inductive tool : Type :=
| GitApply  (* [git apply], bound when [args.git_executable] is non-empty *)
| Patch.    (* [patch], bound otherwise *)

Section WithHost.
Context {World : Type}.
Variable host : Host World.
Variable args : Args.

Definition strategy_of (k : tool) : Strategy (World := World) :=
  match k with
  | GitApply => git_apply_strategy host args
  | Patch => patch_strategy host args
  end.

(** The command lines. *)
Definition revert_check_argv (k : tool) (sub patch : string) : list string :=
  match k with
  | GitApply => git_revert_check_argv (git_executable args) sub patch
  | Patch => patch_revert_check_argv (patch_executable args) sub
  end.

Definition revert_argv (k : tool) (sub patch : string) : list string :=
  match k with
  | GitApply => git_revert_argv (git_executable args) sub patch
  | Patch => patch_revert_argv (patch_executable args) sub
  end.

Definition apply_check_argv (k : tool) (sub patch : string) : list string :=
  match k with
  | GitApply => git_apply_check_argv (git_executable args) sub patch
  | Patch => patch_apply_check_argv (patch_executable args) sub
  end.

Definition apply_reverse_check_argv (k : tool) (sub patch : string)
  : list string :=
  match k with
  | GitApply => git_apply_reverse_check_argv (git_executable args) sub patch
  | Patch => patch_apply_reverse_check_argv (patch_executable args) sub
  end.

Definition apply_argv (k : tool) (sub patch : string) : list string :=
  match k with
  | GitApply => git_apply_argv (git_executable args) sub patch
  | Patch => patch_apply_argv (patch_executable args) sub
  end.

(** How the driver runs a command line of the tool: [_run_command] for
    [git], [_run_patch] with the patch on standard input for [patch]. *)
Definition run_tool (k : tool) (patch : string) (argv : list string)
  : Cmd unit :=
  match k with
  | GitApply => _run_command host argv
  | Patch => _run_patch host patch argv
  end.

(** What the host is asked to do by [run_tool]. *)
Definition invoke (k : tool) (patch : string) (argv : list string)
    (w : World) : option (Completed * World) :=
  match k with
  | GitApply => host_spawn host argv None false w
  | Patch =>
      match host_open host patch w with
      | Some input => host_spawn host argv (Some input) true w
      | None => None
      end
  end.

(** What [run_tool] lets an observer see. *)
Definition tool_events (k : tool) (patch : string) (argv : list string)
  : list event :=
  match k with
  | GitApply =>
      [Stdout ("    >>>>> Running: " ++ shlex_join argv ++ LF);
       Ran argv None]
  | Patch =>
      [Stdout (("    >>>>> Running: " ++ shlex_join argv ++ " < "
                  ++ shlex_quote patch) ++ LF);
       Ran argv (Some patch)]
  end.

(** The exception [run_tool] raises for a non-zero exit. *)
Definition tool_error (k : tool) (argv : list string) (c : Completed)
  : CalledProcessError :=
  match k with
  | GitApply =>
      mkCalledProcessError (returncode c) argv None (Some (stderr c))
  | Patch =>
      mkCalledProcessError (returncode c) argv (Some (stdout c)) None
  end.

(** The five invocations. *)
Definition revert_check (k : tool) (sub patch : string) (w : World) :=
  invoke k patch (revert_check_argv k sub patch) w.

Definition revert_real (k : tool) (sub patch : string) (w : World) :=
  invoke k patch (revert_argv k sub patch) w.

Definition apply_check (k : tool) (sub patch : string) (w : World) :=
  invoke k patch (apply_check_argv k sub patch) w.

Definition apply_reverse_check (k : tool) (sub patch : string) (w : World) :=
  invoke k patch (apply_reverse_check_argv k sub patch) w.

Definition apply_real (k : tool) (sub patch : string) (w : World) :=
  invoke k patch (apply_argv k sub patch) w.

(** What the tool reported on the stream the driver reads its
    diagnostics from: standard error for [git], the merged standard
    output for [patch]. *)
Definition captured (k : tool) (c : Completed) : string :=
  match k with
  | GitApply => stderr c
  | Patch => stdout c
  end.

Definition tool_label (k : tool) : string :=
  match k with
  | GitApply => "git error message:"
  | Patch => "patch error message:"
  end.

Definition dry_run_flag (k : tool) : string :=
  match k with
  | GitApply => "--check"
  | Patch => "--dry-run"
  end.

(** What [fail_func reason exc] writes to the error stream. *)
Definition diagnostic (k : tool) (reason : string) (c : Completed) : string :=
  reason ++ LF ++ LF ++ tool_label k ++ LF ++ rstrip (captured k c).

(** The reason given when a patch neither applies nor is applied. *)
Definition apply_failure_reason (sub patch : string) : string :=
  "Could not apply patch '" ++ patch ++ "' for "
    ++ "'" ++ sub ++ "' submodule!".

(** The reason given when a revert fails after its dry run passed. *)
Definition revert_after_check_reason (k : tool) (sub patch : string)
  : string :=
  "A revert of patch '" ++ patch ++ "' of vendored project "
    ++ "'" ++ sub ++ "' was unsuccessful even though a "
    ++ "previous " ++ dry_run_flag k ++ " was successful!".

(** The reason given when an apply fails after its dry run passed. *)
Definition apply_after_check_reason (k : tool) (sub patch : string)
  : string :=
  "Could not apply patch '" ++ patch ++ "' for "
    ++ "'" ++ sub ++ "' submodule! A previous " ++ dry_run_flag k ++ " "
    ++ match k with GitApply => "git apply" | Patch => "patch" end
    ++ " invocation was successful for this patch.".

(** The directory the script moves to, and the path of the submodule
    from there. *)
Definition source_root (environ : string -> option string) : string :=
  match environ "MESON_SOURCE_ROOT" with
  | Some root => root
  | None => script_root host
  end.

Definition submodule_path : string :=
  "vendor" ++ os_sep host ++ submodule_name args.

(** The tool the [if]/[elif] chain of the branch settles on. *)
Definition selected_tool : option tool :=
  if truthy (git_executable args) then Some GitApply
  else if truthy (patch_executable args) then Some Patch
  else None.

(** What an observer sees of the cleanup of patches whose dry-run revert
    fails and is let pass, of patches that are reverted, and of patches
    that are applied. *)
Definition tolerated_events (k : tool) (sub : string)
    (series : list string) : list event :=
  flat_map
    (fun patch =>
       tool_events k patch (revert_check_argv k sub patch)
         ++ [Stdout (join " " never_applied_message ++ LF)])%list
    series.

Definition reverted_events (k : tool) (sub : string)
    (series : list string) : list event :=
  flat_map
    (fun patch =>
       tool_events k patch (revert_check_argv k sub patch)
         ++ tool_events k patch (revert_argv k sub patch))%list
    series.

Definition applied_events (k : tool) (sub : string)
    (series : list string) : list event :=
  flat_map
    (fun patch =>
       tool_events k patch (apply_check_argv k sub patch)
         ++ tool_events k patch (apply_argv k sub patch))%list
    series.

(** Every dry-run revert of the listed patches, in order, exits
    non-zero; the worlds are those the invocations leave. *)
Inductive dry_run_reverts_fail (k : tool) (sub : string)
  : list string -> World -> World -> Prop :=
| drf_nil : forall w, dry_run_reverts_fail k sub [] w w
| drf_cons : forall patch rest w c w1 w2,
    revert_check k sub patch w = Some (c, w1) ->
    returncode c <> 0%Z ->
    dry_run_reverts_fail k sub rest w1 w2 ->
    dry_run_reverts_fail k sub (patch :: rest) w w2.

(** Every listed patch, in order, is reverted: its dry run and its
    revert both exit with zero. *)
Inductive reverts_succeed (k : tool) (sub : string)
  : list string -> World -> World -> Prop :=
| rs_nil : forall w, reverts_succeed k sub [] w w
| rs_cons : forall patch rest w c w1 c' w2 w3,
    revert_check k sub patch w = Some (c, w1) ->
    returncode c = 0%Z ->
    revert_real k sub patch w1 = Some (c', w2) ->
    returncode c' = 0%Z ->
    reverts_succeed k sub rest w2 w3 ->
    reverts_succeed k sub (patch :: rest) w w3.

(** Every listed patch, in order, is applied: its dry run exits with
    zero and leaves the world as it was, and its apply exits with zero. *)
Inductive patches_apply (k : tool) (sub : string)
  : list string -> World -> World -> Prop :=
| pa_nil : forall w, patches_apply k sub [] w w
| pa_cons : forall patch rest w c c' w1 w2,
    apply_check k sub patch w = Some (c, w) ->
    returncode c = 0%Z ->
    apply_real k sub patch w = Some (c', w1) ->
    returncode c' = 0%Z ->
    patches_apply k sub rest w1 w2 ->
    patches_apply k sub (patch :: rest) w w2.

(** The tool's revert undoes its apply: where a patch applies, taking
    the world from [w] to [w1], its reverse dry run passes at [w1]
    without changing it and its revert takes [w1] back to [w]. *)
Definition revert_undoes_apply (k : tool) (sub : string) : Prop :=
  forall patch w c c' w1,
    apply_check k sub patch w = Some (c, w) ->
    returncode c = 0%Z ->
    apply_real k sub patch w = Some (c', w1) ->
    returncode c' = 0%Z ->
    exists r r',
      revert_check k sub patch w1 = Some (r, w1) /\ returncode r = 0%Z /\
      revert_real k sub patch w1 = Some (r', w) /\ returncode r' = 0%Z.

End WithHost.
End Protocol.

(* ===================================================================== *)
(** * Small concrete machines, to run the embedding on                    *)
(* ===================================================================== *)

Module Demo.
Import Py.

(** ** A repository for the verifier *)

Definition zeros40 : string := "0000000000000000000000000000000000000000".

(** A stand-in for the output line of [git patch-id --stable]: a
    40-character identity derived from the diff, a space, a commit field
    and a line feed; nothing for an empty diff. *)
Definition patch_id_line (diff : string) : string :=
  match diff with
  | EmptyString => EmptyString
  | _ => slice_to 40 (diff ++ zeros40) ++ " " ++ zeros40 ++ LF
  end.

Fixpoint lookup (key : string) (table : list (string * string))
  : option string :=
  match table with
  | [] => None
  | (k, v) :: rest => if (k =? key)%string then Some v else lookup key rest
  end.

(** The diff of [HEAD~n], for the revision argument [HEAD~n^!]. *)
Fixpoint diff_of_revision (revision : string) (n : nat)
    (history : list string) : option string :=
  match history with
  | [] => None
  | d :: older =>
      if (revision =? "HEAD~" ++ str_of_nat n ++ "^!")%string then Some d
      else diff_of_revision revision (S n) older
  end.

(** A machine with the given files and, newest first, the diffs of the
    commits of its one repository. *)
Definition repo_host (files : list (string * string)) (history : list string)
  : PatchId.Host :=
  PatchId.mkHost
    (fun path => lookup path files)
    (fun argv cwd stdin =>
       match argv with
       | [_; sub; revision] =>
           if (sub =? "diff")%string then
             match diff_of_revision revision 0 history with
             | Some d => Some (mkCompleted 0 d EmptyString)
             | None =>
                 Some (mkCompleted 128 EmptyString "fatal: bad revision")
             end
           else if (sub =? "patch-id")%string then
             match stdin with
             | Some d => Some (mkCompleted 0 (patch_id_line d) EmptyString)
             | None => Some (mkCompleted 0 EmptyString EmptyString)
             end
           else Some (mkCompleted 1 EmptyString "git: unknown command")
       | _ => None
       end).

(** Two patch files, and the repository whose two newest commits are the
    one made from [b.patch] and, below it, the one made from [a.patch]. *)
Definition ab_files : list (string * string) :=
  [("a.patch", "+alpha");
   ("b.patch", "+beta")].

Definition ab_host : PatchId.Host :=
  repo_host ab_files
    ["+beta"; "+alpha"].

(** A repository where [git diff] fails. *)
Definition empty_repo_host : PatchId.Host := repo_host ab_files [].

(** ** A vendored tree for the driver *)

(** The tree is the list of the patches applied to it, the last applied
    first; the patches touch different files, so each applies where it is
    not there yet.  [git apply] and [patch] change the files only and can
    take back what is in the files only. *)
Record Tree : Type := mkTree {
  is_repo : bool;           (* does [.git] exist *)
  commits : list string;    (* patches committed by [git am] *)
  applied : list string     (* patches applied to the files only *)
}.

Definition has (patch : string) (t : Tree) : bool :=
  existsb (String.eqb patch) (applied t ++ commits t)%list.

Fixpoint remove_first (patch : string) (l : list string) : list string :=
  match l with
  | [] => []
  | x :: r => if (patch =? x)%string then r else x :: remove_first patch r
  end.

Definition done (t : Tree) : option (Completed * Tree) :=
  Some (mkCompleted 0 EmptyString EmptyString, t).

Definition failed (why : string) (t : Tree) : option (Completed * Tree) :=
  Some (mkCompleted 1 why why, t).

Definition tool_check (patch : string) (t : Tree) :=
  if has patch t then failed "patch does not apply" t else done t.

Definition tool_apply (patch : string) (t : Tree) :=
  if has patch t then failed "patch does not apply" t
  else done (mkTree (is_repo t) (commits t) (patch :: applied t)).

Definition in_files (patch : string) (t : Tree) : bool :=
  existsb (String.eqb patch) (applied t).

Definition tool_reverse_check (patch : string) (t : Tree) :=
  if in_files patch t then done t else failed "patch does not apply" t.

Definition tool_revert (patch : string) (t : Tree) :=
  if in_files patch t
  then done (mkTree (is_repo t) (commits t) (remove_first patch (applied t)))
  else failed "patch does not apply" t.

Definition is_ (a b : string) : bool := (a =? b)%string.

(** The programs, told apart by their arguments. *)
Definition tree_spawn (argv : list string) (stdin : option string)
    (merge : bool) (t : Tree) : option (Completed * Tree) :=
  match argv, stdin with
  | [_; c; _; a; x], None =>
      if is_ c "-C" && is_ a "reset" && is_ x "--hard"
      then done (mkTree (is_repo t) (commits t) []) else None
  | [_; c; _; a; x; y], None =>
      if is_ c "-C" && is_ a "apply" then
        if is_ x "--reverse" then tool_revert y t
        else if is_ x "--verbose" then tool_apply y t
        else None
      else None
  | [_; c; _; a; x; y; p], None =>
      if is_ c "-C" && is_ a "apply" then
        if is_ x "--check" && is_ y "--verbose" then tool_check p t
        else if (is_ x "--check" && is_ y "--reverse")
                || (is_ x "--reverse" && is_ y "--check")
             then tool_reverse_check p t
        else None
      else if is_ c "-C" && is_ a "clean" then done t
      else None
  | _ :: c :: _ :: _ :: _ :: _ :: _ :: _ :: _ :: a :: series, None =>
      if is_ c "-c" && is_ a "am" then
        if existsb (fun p => has p t) series
        then failed "Patch failed" t
        else done (mkTree (is_repo t) (rev series ++ commits t)%list
                     (applied t))
      else None
  | [_; d; _; p; one], Some patch =>
      if is_ d "-d" && is_ p "-p" && is_ one "1" then tool_apply patch t
      else None
  | [_; d; _; p; one; x], Some patch =>
      if is_ d "-d" && is_ p "-p" && is_ one "1" then
        if is_ x "--dry-run" then tool_check patch t
        else if is_ x "-R" then tool_revert patch t
        else None
      else None
  | [_; d; _; p; one; x; y], Some patch =>
      if is_ d "-d" && is_ p "-p" && is_ one "1"
         && ((is_ x "-R" && is_ y "--dry-run")
             || (is_ x "--dry-run" && is_ y "-R"))
      then tool_reverse_check patch t
      else None
  | _, _ => None
  end.

(** A patch file holds its own name: enough to tell the patches apart. *)
Definition tree_host : MesonPatchVendor.Host Tree :=
  MesonPatchVendor.mkHost Tree
    "/" "/src/android-tools-static"
    (fun _ t => Some t)
    (fun path t => if is_ path ".git" then is_repo t else false)
    (fun _ _ => Some ["meson.build"])
    (fun path _ => Some path)
    tree_spawn.

Definition no_environ : string -> option string := fun _ => None.

Definition start (t : Tree) : MesonPatchVendor.St Tree :=
  MesonPatchVendor.mkSt t [].

Definition ab_series : list string := ["a.patch"; "b.patch"].

(** [git] is there, [patch] is not. *)
Definition git_args : MesonPatchVendor.Args :=
  MesonPatchVendor.mkArgs "git" EmptyString "core" ab_series.

(** [patch] is there, [git] is not. *)
Definition patch_args : MesonPatchVendor.Args :=
  MesonPatchVendor.mkArgs EmptyString "patch" "core" ab_series.

(** Neither is. *)
Definition no_tool_args : MesonPatchVendor.Args :=
  MesonPatchVendor.mkArgs EmptyString EmptyString "core" ab_series.

Definition pristine : Tree := mkTree false [] [].
Definition fully_patched : Tree := mkTree false [] ["b.patch"; "a.patch"].
Definition only_b : Tree := mkTree false [] ["b.patch"].
Definition checkout : Tree := mkTree true [] [].

End Demo.

(* ===================================================================== *)
(** * SBOM_scripts/high_level/document.py: merging the two patch lists    *)
(* ===================================================================== *)

Module PatchLists.
Import Py.
Local Open Scope py_scope.

(** A [dict[str, list[Path]]]: the items in insertion order, every key
    once. *)
Definition patch_dict : Type := list (string * list string).

Definition keys (d : patch_dict) : list string := map fst d.

(** [d.get(key)]. *)
Fixpoint dict_get (d : patch_dict) (key : string) : option (list string) :=
  match d with
  | [] => None
  | (k, v) :: rest => if (k =? key)%string then Some v else dict_get rest key
  end.

(** [d[key] = value]: an existing key keeps its place, a new key goes to
    the end. *)
Fixpoint dict_set (d : patch_dict) (key : string) (value : list string)
  : patch_dict :=
  match d with
  | [] => [(key, value)]
  | (k, v) :: rest =>
      if (k =? key)%string then (k, value) :: rest
      else (k, v) :: dict_set rest key value
  end.

(** The body of [for submodule_name, patch_list in orig_patch_list.items()];
    [submodule_name in merged_patch_list] is [dict_get] finding a value. *)
Definition merge_step (merged_patch_list : patch_dict)
    (item : string * list string) : patch_dict :=
  let (submodule_name, patch_list) := item in
  match dict_get merged_patch_list submodule_name with
  | Some current =>
      dict_set merged_patch_list submodule_name (current ++ patch_list)%list
  | None => dict_set merged_patch_list submodule_name patch_list
  end.

(** [merged_patch_list = nmeum_patch_list.copy()], then the loop over the
    items of [orig_patch_list]. *)
Definition merge_patch_lists (nmeum_patch_list orig_patch_list : patch_dict)
  : patch_dict :=
  fold_left merge_step orig_patch_list nmeum_patch_list.

(** The patches of a submodule after the merge, from what the two lists
    hold for it: those of the first list, then those of the second. *)
Definition chained (first second : option (list string))
  : option (list string) :=
  match first, second with
  | Some a, Some b => Some (a ++ b)%list
  | Some a, None => Some a
  | None, Some b => Some b
  | None, None => None
  end.

(** Is the key missing from the dictionary. *)
Definition missing (d : patch_dict) (key : string) : bool :=
  match dict_get d key with Some _ => false | None => true end.

(** The merge followed by the verification of every submodule, as
    [get_base_document] does it. *)
Definition verify_patch_lists (host : PatchId.Host)
    (git_exe source_dir : string)
    (nmeum_patch_list orig_patch_list : patch_dict)
  : M PatchId.trace unit :=
  Document.verify_merged_patch_list host git_exe source_dir
    (merge_patch_lists nmeum_patch_list orig_patch_list).

End PatchLists.

(* ===================================================================== *)
(** * What the verifier may ask of the host                               *)
(* ===================================================================== *)

Module Requests.
Import Py PatchId.

(** The requests a verification of [series] in [repo_path] is made of:
    [git diff] of one of the first [length series] commits, run in the
    repository; [git patch-id --stable] reading a pipe or a file; opening
    a patch of the series. *)
Definition expected (git_exe repo_path : string) (series : list string)
    (e : event) : Prop :=
  match e with
  | Opened path => In path series
  | Spawned argv cwd stdin =>
      (exists i, i < length series /\ argv = git_diff_args git_exe i /\
                 cwd = Some repo_path /\ stdin = None) \/
      (argv = git_patch_id_args git_exe /\ cwd = None /\ stdin <> None)
  | Communicated argv =>
      (exists i, i < length series /\ argv = git_diff_args git_exe i) \/
      argv = git_patch_id_args git_exe
  end.

End Requests.

(* ===================================================================== *)
(** * What the driver may start, and how it may end                       *)
(* ===================================================================== *)

Module Discipline.
Import Py MesonPatchVendor Protocol.

Section WithHost.
Context {World : Type}.
Variable host : Host World.
Variable args : Args.

(** The command [m] only adds events to the log, every program it
    starts satisfies [R], and its outcome satisfies [Po]. *)
Definition follows {A : Type} (R : list string -> option string -> Prop)
    (Po : outcome A -> Prop) (m : Cmd (World := World) A) : Prop :=
  forall s : St World,
  exists ev,
    events (snd (m s)) = (events s ++ ev)%list /\
    (forall argv stdin, In (Ran argv stdin) ev -> R argv stdin) /\
    Po (fst (m s)).

(** The file [run_tool] puts on the standard input of the tool. *)
Definition stdin_of (k : tool) (patch : string) : option string :=
  match k with
  | GitApply => None
  | Patch => Some patch
  end.

(** How a single run of the tool may end. *)
Definition tool_outcome (k : tool) (argv : list string)
    (o : outcome unit) : Prop :=
  match o with
  | Ok _ => True
  | Raise (EOSError _) => True
  | Raise (ECalledProcessError exc) => exists c, exc = tool_error k argv c
  | Raise _ => False
  end.

(** How [revert_func] may end: as its dry run, or in [sys.exit(1)]. *)
Definition revert_outcome (k : tool) (argv : list string)
    (o : outcome unit) : Prop :=
  match o with
  | Ok _ => True
  | Raise (EOSError _) => True
  | Raise (ECalledProcessError exc) => exists c, exc = tool_error k argv c
  | Raise (ESystemExit (ExitCode n)) => n = 1%Z
  | Raise _ => False
  end.

(** A clean end: a return, [sys.exit(1)], or an [OSError] of the host. *)
Definition clean_end {A : Type} (o : outcome A) : Prop :=
  match o with
  | Ok _ => True
  | Raise (EOSError _) => True
  | Raise (ESystemExit (ExitCode n)) => n = 1%Z
  | Raise _ => False
  end.

(** How the script body may end. *)
Definition script_end (o : outcome unit) : Prop :=
  match o with
  | Ok _ => True
  | Raise (EOSError _) => True
  | Raise (ESystemExit (ExitCode n)) => n = 1%Z
  | Raise (ESystemExit (ExitMessage msg)) => msg = tool_unavailable_message
  | Raise _ => False
  end.

(** The programs of the cleanup pass over [series]. *)
Definition cleanup_command (k : tool) (sub : string) (series : list string)
    (argv : list string) (stdin : option string) : Prop :=
  exists patch,
    In patch series /\ stdin = stdin_of k patch /\
    (argv = revert_check_argv args k sub patch \/
     argv = revert_argv args k sub patch).

(** The programs of the forward pass over [series]. *)
Definition forward_command (k : tool) (sub : string) (series : list string)
    (argv : list string) (stdin : option string) : Prop :=
  exists patch,
    In patch series /\ stdin = stdin_of k patch /\
    (argv = apply_check_argv args k sub patch \/
     argv = apply_reverse_check_argv args k sub patch \/
     argv = apply_argv args k sub patch).

(** The programs of the [git am] branch. *)
Definition git_am_command (sub : string)
    (argv : list string) (stdin : option string) : Prop :=
  stdin = None /\
  (argv = reset_hard_argv (git_executable args) sub \/
   argv = clean_argv (git_executable args) sub \/
   argv = git_am_argv (git_executable args) sub (patches args)).

(** The programs of the script. *)
Definition script_command (argv : list string) (stdin : option string)
  : Prop :=
  (truthy (git_executable args) = true /\
   git_am_command (submodule_path host args) argv stdin) \/
  exists k,
    selected_tool args = Some k /\
    (cleanup_command k (submodule_path host args) (patches args) argv stdin
     \/ forward_command k (submodule_path host args) (patches args)
          argv stdin).

(** The forward pass gets through the listed patches, in order: each
    either applies (its dry run and its apply exit with zero) or is
    found applied (its dry run exits non-zero and its reverse dry run
    with zero); the worlds are those the invocations leave. *)
Inductive forward_pass_ok (k : tool) (sub : string)
  : list string -> World -> World -> Prop :=
| fp_nil : forall w, forward_pass_ok k sub [] w w
| fp_applies : forall patch rest w c w1 c' w2 w3,
    apply_check host args k sub patch w = Some (c, w1) ->
    returncode c = 0%Z ->
    apply_real host args k sub patch w1 = Some (c', w2) ->
    returncode c' = 0%Z ->
    forward_pass_ok k sub rest w2 w3 ->
    forward_pass_ok k sub (patch :: rest) w w3
| fp_applied_already : forall patch rest w c w1 r w2 w3,
    apply_check host args k sub patch w = Some (c, w1) ->
    returncode c <> 0%Z ->
    apply_reverse_check host args k sub patch w1 = Some (r, w2) ->
    returncode r = 0%Z ->
    forward_pass_ok k sub rest w2 w3 ->
    forward_pass_ok k sub (patch :: rest) w w3.

(** The cleanup pass gets through the listed patches, in order: failed
    dry-run reverts first, then only successful reverts. *)
Definition cleanup_ok (k : tool) (sub : string) (series : list string)
    (w w' : World) : Prop :=
  exists fails reverted wa,
    series = (fails ++ reverted)%list /\
    dry_run_reverts_fail host args k sub fails w wa /\
    reverts_succeed host args k sub reverted wa w'.

End WithHost.
End Discipline.

(* ===================================================================== *)
(** * More small machines                                                 *)
(* ===================================================================== *)

Module Machines.
Import Py.

(** A tree on a read-only file system: the dry runs pass, everything
    that writes fails. *)
Definition readonly_spawn (argv : list string) (stdin : option string)
    (merge : bool) (t : Demo.Tree) : option (Completed * Demo.Tree) :=
  if existsb (fun a => Demo.is_ a "--check" || Demo.is_ a "--dry-run") argv
  then Demo.done t
  else Demo.failed "Read-only file system" t.

Definition readonly_host : MesonPatchVendor.Host Demo.Tree :=
  MesonPatchVendor.mkHost Demo.Tree
    "/" "/src/android-tools-static"
    (fun _ t => Some t)
    (fun _ _ => false)
    (fun _ _ => Some ["meson.build"])
    (fun path _ => Some path)
    readonly_spawn.

(** A machine where the source directory cannot be entered. *)
Definition lost_host : MesonPatchVendor.Host Demo.Tree :=
  MesonPatchVendor.mkHost Demo.Tree
    "/" "/src/android-tools-static"
    (fun _ _ => None)
    (fun _ _ => false)
    (fun _ _ => None)
    (fun _ _ => None)
    (fun _ _ _ _ => None).

(** A repository whose newest commit was made from [+beta], and a patch
    file without a diff, for which [git patch-id] prints nothing. *)
Definition diffless_host : PatchId.Host :=
  Demo.repo_host [("cover.patch", EmptyString)] ["+beta"].

End Machines.

(* ===================================================================== *)
(** * Facts: the Python runtime                                           *)
(* ===================================================================== *)

Module PyFacts.
Import Py.

Lemma substring_0_length (n : nat) (s : string) :
  String.length (substring 0 n s) = Nat.min n (String.length s).
Proof.
  revert s. induction n as [|n IH]; intros [|c s]; simpl; auto.
Qed.

Lemma slice_to_length (n : nat) (s : string) :
  String.length (slice_to n s) = Nat.min n (String.length s).
Proof. apply substring_0_length. Qed.

Lemma slice_to_le (n : nat) (s : string) : String.length (slice_to n s) <= n.
Proof. rewrite slice_to_length. apply Nat.le_min_l. Qed.

Lemma slice_to_prefix (a b : string) :
  slice_to (String.length a) (a ++ b) = a.
Proof.
  unfold slice_to. induction a as [|c a IH]; simpl.
  - destruct b; reflexivity.
  - now rewrite IH.
Qed.

End PyFacts.

(* ===================================================================== *)
(** * Facts: patch identities                                             *)
(* ===================================================================== *)

Module PatchIdFacts.
Import Py PatchId PyFacts.
Local Open Scope list_scope.

Section WithHost.
Variable host : Host.

(** [get_file_patch_id], one case per way it can end. *)
Lemma get_file_patch_id_unfold (patch_path git_exe : string) (t : trace) :
  get_file_patch_id host patch_path git_exe t =
  match open_text host patch_path with
  | None => (Raise (EOSError patch_path), t ++ [Opened patch_path])
  | Some input =>
      let argv := git_patch_id_args git_exe in
      match run host argv None (Some input) with
      | None =>
          (Raise (EOSError (Py.join " " argv)),
           t ++ [Opened patch_path; Spawned argv None (Some input)])
      | Some p =>
          (if (returncode p =? 0)%Z then Ok (slice_to 40 (stdout p))
           else Raise (ECalledProcessError
                         (mkCalledProcessError (returncode p) argv
                            (Some (stdout p)) (Some (stderr p)))),
           t ++ [Opened patch_path; Spawned argv None (Some input);
                 Communicated argv])
      end
  end.
Proof.
  unfold get_file_patch_id, open_path, run_checked, Popen, communicate,
    git_patch_id_args, bind, log, ret, raise.
  destruct (open_text host patch_path) as [input|]; [|reflexivity].
  destruct (run host _ None (Some input)) as [p|];
    [destruct (returncode p =? 0)%Z|]; rewrite <- ?app_assoc; reflexivity.
Qed.

(** [get_nth_head_commit_patch_id], one case per way it can end. *)
Lemma get_nth_head_commit_patch_id_unfold
    (repo_dir git_exe : string) (n : nat) (t : trace) :
  get_nth_head_commit_patch_id host repo_dir git_exe n t =
  let dargv := git_diff_args git_exe n in
  let pargv := git_patch_id_args git_exe in
  match run host dargv (Some repo_dir) None with
  | None =>
      (Raise (EOSError (Py.join " " dargv)),
       t ++ [Spawned dargv (Some repo_dir) None])
  | Some d =>
      match run host pargv None (Some (stdout d)) with
      | None =>
          (Raise (EOSError (Py.join " " pargv)),
           t ++ [Spawned dargv (Some repo_dir) None;
                 Spawned pargv None (Some (stdout d))])
      | Some p =>
          (if negb (returncode d =? 0)%Z then
             Raise (ECalledProcessError
                      (mkCalledProcessError (returncode d) dargv None
                         (Some (stderr d))))
           else if negb (returncode p =? 0)%Z then
             Raise (ECalledProcessError
                      (mkCalledProcessError (returncode p) pargv
                         (Some (stdout p)) (Some (stderr p))))
           else Ok (slice_to 40 (stdout p)),
           t ++ [Spawned dargv (Some repo_dir) None;
                 Spawned pargv None (Some (stdout d));
                 Communicated pargv; Communicated dargv])
      end
  end.
Proof.
  unfold get_nth_head_commit_patch_id, Popen, communicate, bind, log, ret,
    raise. cbv zeta.
  destruct (run host (git_diff_args git_exe n) (Some repo_dir) None)
    as [d|]; [|reflexivity].
  destruct (run host (git_patch_id_args git_exe) None (Some (stdout d)))
    as [p|]; [|rewrite <- ?app_assoc; reflexivity].
  simpl fst; simpl snd.
  destruct (returncode d =? 0)%Z; [destruct (returncode p =? 0)%Z|];
    rewrite <- ?app_assoc; reflexivity.
Qed.

(** The answer of either function does not depend on what was logged. *)
Lemma get_file_patch_id_outcome (patch_path git_exe : string) (t t' : trace) :
  fst (get_file_patch_id host patch_path git_exe t)
  = fst (get_file_patch_id host patch_path git_exe t').
Proof.
  rewrite !get_file_patch_id_unfold.
  destruct (open_text host patch_path); [|reflexivity].
  cbv zeta. destruct (run host _ None _); reflexivity.
Qed.

Lemma get_nth_head_commit_patch_id_outcome
    (repo_dir git_exe : string) (n : nat) (t t' : trace) :
  fst (get_nth_head_commit_patch_id host repo_dir git_exe n t)
  = fst (get_nth_head_commit_patch_id host repo_dir git_exe n t').
Proof.
  rewrite !get_nth_head_commit_patch_id_unfold. cbv zeta.
  destruct (run host _ (Some repo_dir) None); [|reflexivity].
  destruct (run host _ None _); reflexivity.
Qed.

End WithHost.
End PatchIdFacts.

(* ===================================================================== *)
(** * Facts: the verifier                                                 *)
(* ===================================================================== *)

Module VerifierFacts.
Import Py PatchId SubmoduleVerification PyFacts PatchIdFacts.
Local Open Scope list_scope.

Section WithHost.
Variable host : Host.
Variables git_exe repo_path : string.

(** The loop over a concatenation is the loop over the first part, then,
    if that went through, the loop over the second. *)
Lemma verify_from_app (l1 l2 : list string) :
  forall (n : nat) (t : trace),
    verify_from host git_exe repo_path n (l1 ++ l2) t =
    match verify_from host git_exe repo_path n l1 t with
    | (Ok _, t1) =>
        verify_from host git_exe repo_path (n + length l1) l2 t1
    | (Raise e, t1) => (Raise e, t1)
    end.
Proof.
  induction l1 as [|patch l1 IH]; intros n t; simpl.
  - unfold ret. now rewrite Nat.add_0_r.
  - unfold bind.
    destruct (get_nth_head_commit_patch_id host repo_path git_exe n t)
      as [[c|e] t1]; [|reflexivity].
    destruct (get_file_patch_id host patch git_exe t1)
      as [[f|e] t2]; [|reflexivity].
    destruct (negb (c =? f)%string); [reflexivity|].
    rewrite IH. now rewrite Nat.add_succ_r.
Qed.

(** Whether the loop goes through does not depend on what was logged. *)
Lemma verify_from_outcome (series : list string) :
  forall (n : nat) (t t' : trace),
    fst (verify_from host git_exe repo_path n series t)
    = fst (verify_from host git_exe repo_path n series t').
Proof.
  induction series as [|patch rest IH]; intros n t t'; simpl; [reflexivity|].
  unfold bind.
  pose proof (get_nth_head_commit_patch_id_outcome host repo_path git_exe
                n t t') as Hc.
  destruct (get_nth_head_commit_patch_id host repo_path git_exe n t)
    as [o1 t1], (get_nth_head_commit_patch_id host repo_path git_exe n t')
    as [o1' t1']. simpl in Hc. subst o1'.
  destruct o1 as [c|e]; [|reflexivity].
  pose proof (get_file_patch_id_outcome host patch git_exe t1 t1') as Hf.
  destruct (get_file_patch_id host patch git_exe t1) as [o2 t2],
    (get_file_patch_id host patch git_exe t1') as [o2' t2'].
  simpl in Hf. subst o2'.
  destruct o2 as [f|e]; [|reflexivity].
  destruct (negb (c =? f)%string); [reflexivity|apply IH].
Qed.

(** The loop goes through exactly when, at every position, the commit
    that many steps below [HEAD] and the patch at that position of the
    series have one identity. *)
Lemma verify_from_ok_iff (series : list string) :
  forall (n : nat) (t : trace),
    fst (verify_from host git_exe repo_path n series t) = Ok tt <->
    (forall i patch, nth_error series i = Some patch ->
       exists id,
         fst (get_nth_head_commit_patch_id host repo_path git_exe (n + i) [])
         = Ok id /\
         fst (get_file_patch_id host patch git_exe []) = Ok id).
Proof.
  induction series as [|p rest IH]; intros n t; simpl.
  - split; [intros _ [|i] patch H; discriminate|reflexivity].
  - unfold bind.
    pose proof (get_nth_head_commit_patch_id_outcome host repo_path git_exe
                  n t []) as Hc.
    destruct (get_nth_head_commit_patch_id host repo_path git_exe n t)
      as [o1 t1]. simpl in Hc.
    pose proof (get_file_patch_id_outcome host p git_exe t1 []) as Hf.
    split.
    + intros H.
      destruct o1 as [c|e]; [|discriminate].
      destruct (get_file_patch_id host p git_exe t1) as [[f|e] t2];
        [|discriminate]. simpl in Hf.
      destruct (String.eqb_spec c f) as [->|Hne]; [|discriminate].
      simpl in H. rewrite IH in H.
      intros [|i] patch Hi; simpl in Hi.
      * injection Hi as <-. exists f. rewrite Nat.add_0_r. now split.
      * rewrite Nat.add_succ_r. now apply H.
    + intros H.
      destruct (H 0 p eq_refl) as (id & H1 & H2).
      rewrite Nat.add_0_r, <- Hc in H1. subst o1.
      rewrite <- Hf in H2.
      destruct (get_file_patch_id host p git_exe t1) as [o2 t2].
      simpl in H2. subst o2. rewrite ?H1. cbn [fst snd negb].
      rewrite String.eqb_refl. cbn [negb].
      apply IH. intros i patch Hi.
      specialize (H (S i) patch Hi). now rewrite Nat.add_succ_r in H.
Qed.

End WithHost.
End VerifierFacts.

(* ===================================================================== *)
(** * Properties of the identity functions and of the verifier            *)
(* ===================================================================== *)

Module IdentityProperties.
Import Py PatchId SubmoduleVerification PyFacts PatchIdFacts VerifierFacts.
Local Open Scope list_scope.

(** C10 (as the code has it).  Both identity functions truncate alike: when
    [get_file_patch_id] and [get_nth_head_commit_patch_id] return, each
    returns the first 40 characters of what [git patch-id --stable] wrote
    to its standard output (all of it when it wrote less), so both
    identities are strings of at most 40 characters, of exactly 40 when the
    tool wrote a full line, whose first 40-character field is then the
    identity and whose commit field is dropped; the verifier's comparison
    of the two is the comparison of those two prefixes. *)
Theorem identities_are_40_char_prefixes
    (host : Host) (patch_path repo_dir git_exe : string) (n : nat)
    (t t1 u u1 : trace) (file_id commit_id : string) :
  get_file_patch_id host patch_path git_exe t = (Ok file_id, t1) ->
  get_nth_head_commit_patch_id host repo_dir git_exe n u
    = (Ok commit_id, u1) ->
  exists input pf d pc,
    open_text host patch_path = Some input /\
    run host (git_patch_id_args git_exe) None (Some input) = Some pf /\
    run host (git_diff_args git_exe n) (Some repo_dir) None = Some d /\
    run host (git_patch_id_args git_exe) None (Some (stdout d)) = Some pc /\
    file_id = slice_to 40 (stdout pf) /\
    commit_id = slice_to 40 (stdout pc) /\
    String.length file_id = Nat.min 40 (String.length (stdout pf)) /\
    String.length commit_id = Nat.min 40 (String.length (stdout pc)) /\
    String.length file_id <= 40 /\
    String.length commit_id <= 40 /\
    (forall id rest, String.length id = 40 ->
       stdout pf = (id ++ rest)%string -> file_id = id) /\
    (forall id rest, String.length id = 40 ->
       stdout pc = (id ++ rest)%string -> commit_id = id) /\
    ((commit_id =? file_id)%string = true <->
     slice_to 40 (stdout pc) = slice_to 40 (stdout pf)).
Proof.
  intros Hf Hc.
  rewrite get_file_patch_id_unfold in Hf.
  rewrite get_nth_head_commit_patch_id_unfold in Hc. cbv zeta in Hf, Hc.
  destruct (open_text host patch_path) as [input|] eqn:Ei; [|discriminate].
  destruct (run host (git_patch_id_args git_exe) None (Some input))
    as [pf|] eqn:Epf; [|discriminate].
  destruct (run host (git_diff_args git_exe n) (Some repo_dir) None)
    as [d|] eqn:Ed; [|discriminate].
  destruct (run host (git_patch_id_args git_exe) None (Some (stdout d)))
    as [pc|] eqn:Epc; [|discriminate].
  destruct (returncode pf =? 0)%Z; [|discriminate].
  destruct (returncode d =? 0)%Z; [|discriminate].
  destruct (returncode pc =? 0)%Z; [|discriminate].
  simpl in Hc. injection Hf as <- _. injection Hc as <- _.
  exists input, pf, d, pc.
  repeat (split;
          [first [assumption | reflexivity | apply slice_to_length
                 | apply slice_to_le]|]).
  split; [|split].
  - intros id rest Hl ->. rewrite <- Hl. apply slice_to_prefix.
  - intros id rest Hl ->. rewrite <- Hl. apply slice_to_prefix.
  - apply String.eqb_eq.
Qed.

(** The two identities of the demonstration repository: the file
    [a.patch] and the commit below [HEAD]. *)
Lemma identities_are_40_char_prefixes_witness :
  exists input pf d pc,
    open_text Demo.ab_host "a.patch" = Some input /\
    run Demo.ab_host (git_patch_id_args "git") None (Some input) = Some pf /\
    run Demo.ab_host (git_diff_args "git" 1) (Some "vendor/core") None
      = Some d /\
    run Demo.ab_host (git_patch_id_args "git") None (Some (stdout d))
      = Some pc /\
    "+alpha0000000000000000000000000000000000" = slice_to 40 (stdout pf) /\
    "+alpha0000000000000000000000000000000000" = slice_to 40 (stdout pc) /\
    String.length "+alpha0000000000000000000000000000000000"
      = Nat.min 40 (String.length (stdout pf)) /\
    String.length "+alpha0000000000000000000000000000000000"
      = Nat.min 40 (String.length (stdout pc)) /\
    String.length "+alpha0000000000000000000000000000000000" <= 40 /\
    String.length "+alpha0000000000000000000000000000000000" <= 40 /\
    (forall id rest, String.length id = 40 ->
       stdout pf = (id ++ rest)%string ->
       "+alpha0000000000000000000000000000000000" = id) /\
    (forall id rest, String.length id = 40 ->
       stdout pc = (id ++ rest)%string ->
       "+alpha0000000000000000000000000000000000" = id) /\
    (("+alpha0000000000000000000000000000000000"
      =? "+alpha0000000000000000000000000000000000")%string = true <->
     slice_to 40 (stdout pc) = slice_to 40 (stdout pf)).
Proof.
  eapply (identities_are_40_char_prefixes Demo.ab_host "a.patch"
            "vendor/core" "git" 1 [] _ [] _); vm_compute; reflexivity.
Defined.

(** C10 (as stated) fails: the identities are not always 40 characters
    long, nor of the same length.  For a patch file without a diff
    [git patch-id --stable] prints nothing, and the identity of the file
    is the empty string, the first 40 characters of nothing; the identity
    of the newest commit of the same machine has 40 characters. *)
Lemma identities_need_not_have_the_same_length :
  fst (get_file_patch_id Machines.diffless_host "cover.patch" "git" [])
    = Ok EmptyString /\
  fst (get_nth_head_commit_patch_id Machines.diffless_host "vendor/core"
         "git" 0 [])
    = Ok "+beta00000000000000000000000000000000000" /\
  String.length EmptyString = 0 /\
  String.length "+beta00000000000000000000000000000000000" = 40 /\
  String.length EmptyString
    <> String.length "+beta00000000000000000000000000000000000".
Proof.
  repeat split; try (vm_compute; reflexivity).
  vm_compute. discriminate.
Qed.

(** C7.  [get_nth_head_commit_patch_id] waits for both processes with
    [communicate] before it looks at an exit code, whatever the codes are;
    then a non-zero code of [git diff] raises a [CalledProcessError] with
    that code and the standard error of [git diff], otherwise a non-zero
    code of [git patch-id] raises one with that code and the output and
    standard error of [git patch-id]; an identity is returned exactly when
    both codes are zero. *)
Theorem commit_identity_checks_both_exit_codes
    (host : Host) (repo_dir git_exe : string) (n : nat) (t : trace)
    (d p : Completed) :
  run host (git_diff_args git_exe n) (Some repo_dir) None = Some d ->
  run host (git_patch_id_args git_exe) None (Some (stdout d)) = Some p ->
  let result := get_nth_head_commit_patch_id host repo_dir git_exe n t in
  snd result =
    t ++ [Spawned (git_diff_args git_exe n) (Some repo_dir) None;
          Spawned (git_patch_id_args git_exe) None (Some (stdout d));
          Communicated (git_patch_id_args git_exe);
          Communicated (git_diff_args git_exe n)] /\
  (returncode d <> 0%Z ->
   fst result =
     Raise (ECalledProcessError
              (mkCalledProcessError (returncode d) (git_diff_args git_exe n)
                 None (Some (stderr d))))) /\
  (returncode d = 0%Z -> returncode p <> 0%Z ->
   fst result =
     Raise (ECalledProcessError
              (mkCalledProcessError (returncode p)
                 (git_patch_id_args git_exe)
                 (Some (stdout p)) (Some (stderr p))))) /\
  (returncode d = 0%Z -> returncode p = 0%Z ->
   fst result = Ok (slice_to 40 (stdout p))) /\
  ((exists id, fst result = Ok id) <->
   returncode d = 0%Z /\ returncode p = 0%Z).
Proof.
  intros Hd Hp result. subst result.
  rewrite get_nth_head_commit_patch_id_unfold. cbv zeta.
  rewrite Hd, Hp. cbn [fst snd].
  split; [reflexivity|].
  destruct (Z.eqb_spec (returncode d) 0) as [Ed|Ed];
    destruct (Z.eqb_spec (returncode p) 0) as [Ep|Ep]; cbn [negb];
    repeat match goal with
           | |- _ /\ _ => split
           | |- _ <-> _ => split
           | |- _ -> _ => intro
           | H : _ /\ _ |- _ => destruct H
           | H : exists _, _ |- _ => destruct H
           end;
    try congruence; eexists; reflexivity.
Qed.

(** A repository without commits: [git diff] exits with 128. *)
Lemma commit_identity_checks_both_exit_codes_witness :
  let d := mkCompleted 128 EmptyString "fatal: bad revision" in
  let p := mkCompleted 0 EmptyString EmptyString in
  let result :=
    get_nth_head_commit_patch_id Demo.empty_repo_host "vendor/core" "git" 0 []
  in
  snd result =
    [] ++ [Spawned (git_diff_args "git" 0) (Some "vendor/core") None;
           Spawned (git_patch_id_args "git") None (Some (stdout d));
           Communicated (git_patch_id_args "git");
           Communicated (git_diff_args "git" 0)] /\
  (returncode d <> 0%Z ->
   fst result =
     Raise (ECalledProcessError
              (mkCalledProcessError (returncode d) (git_diff_args "git" 0)
                 None (Some (stderr d))))) /\
  (returncode d = 0%Z -> returncode p <> 0%Z ->
   fst result =
     Raise (ECalledProcessError
              (mkCalledProcessError (returncode p) (git_patch_id_args "git")
                 (Some (stdout p)) (Some (stderr p))))) /\
  (returncode d = 0%Z -> returncode p = 0%Z ->
   fst result = Ok (slice_to 40 (stdout p))) /\
  ((exists id, fst result = Ok id) <->
   returncode d = 0%Z /\ returncode p = 0%Z).
Proof.
  exact (commit_identity_checks_both_exit_codes Demo.empty_repo_host
           "vendor/core" "git" 0 []
           (mkCompleted 128 EmptyString "fatal: bad revision")
           (mkCompleted 0 EmptyString EmptyString) eq_refl eq_refl).
Defined.

(** C6.  Where the patches before a position have gone through and, at
    that position, the identity of the commit and the identity of the
    patch file differ, [verify_checkout_patches] raises [PatchIDError]
    with both identities, the repository path and the patch file, which
    its message names; the last thing it has done is to compute the
    identity of that patch file, so nothing after the position is opened
    or compared, whatever follows, and it does not return. *)
Theorem first_mismatch_is_fatal
    (host : Host) (git_exe repo_path : string)
    (before : list string) (patch : string) (after : list string)
    (t t1 t2 t3 : trace) (commit_patch_id patch_patch_id : string) :
  verify_checkout_patches host git_exe repo_path before t = (Ok tt, t1) ->
  get_nth_head_commit_patch_id host repo_path git_exe (length before) t1
    = (Ok commit_patch_id, t2) ->
  get_file_patch_id host patch git_exe t2 = (Ok patch_patch_id, t3) ->
  commit_patch_id <> patch_patch_id ->
  verify_checkout_patches host git_exe repo_path (before ++ patch :: after) t
    = (Raise (EPatchIDError commit_patch_id patch_patch_id repo_path patch),
       t3) /\
  exn_message (EPatchIDError commit_patch_id patch_patch_id repo_path patch)
    = Some ("Couldn't verify patch '" ++ patch ++ "' in git submodule '"
              ++ repo_path ++ "'! Commit patch id '" ++ commit_patch_id
              ++ "' != patch id '" ++ patch_patch_id ++ "'!")%string /\
  (exists d input,
     t3 = t1 ++ [Spawned (git_diff_args git_exe (length before))
                   (Some repo_path) None;
                 Spawned (git_patch_id_args git_exe) None (Some (stdout d));
                 Communicated (git_patch_id_args git_exe);
                 Communicated (git_diff_args git_exe (length before));
                 Opened patch;
                 Spawned (git_patch_id_args git_exe) None (Some input);
                 Communicated (git_patch_id_args git_exe)]) /\
  verify_checkout_patches host git_exe repo_path (before ++ patch :: after) t
    = verify_checkout_patches host git_exe repo_path (before ++ [patch]) t.
Proof.
  intros Hb Hc Hf Hne.
  assert (Hrun : forall rest,
             verify_checkout_patches host git_exe repo_path
               (before ++ patch :: rest) t
             = (Raise (EPatchIDError commit_patch_id patch_patch_id
                         repo_path patch), t3)).
  { intros rest. unfold verify_checkout_patches in *.
    rewrite verify_from_app, Hb. simpl. unfold bind.
    rewrite Hc, Hf.
    destruct (String.eqb_spec commit_patch_id patch_patch_id);
      [contradiction|reflexivity]. }
  split; [apply Hrun|]. split; [reflexivity|]. split.
  - rewrite get_nth_head_commit_patch_id_unfold in Hc. cbv zeta in Hc.
    destruct (run host (git_diff_args git_exe (length before))
                (Some repo_path) None) as [d|]; [|discriminate].
    destruct (run host (git_patch_id_args git_exe) None (Some (stdout d)))
      as [p|]; [|discriminate].
    injection Hc as _ <-.
    rewrite get_file_patch_id_unfold in Hf. cbv zeta in Hf.
    destruct (open_text host patch) as [input|]; [|discriminate].
    destruct (run host (git_patch_id_args git_exe) None (Some input))
      as [pf|]; [|discriminate].
    injection Hf as _ <-.
    exists d, input. now rewrite <- app_assoc.
  - now rewrite !Hrun.
Qed.

(** The demonstration repository, asked for [a.patch] then [b.patch]:
    the mismatch is at the first position. *)
Lemma first_mismatch_is_fatal_witness :
  fst (verify_checkout_patches Demo.ab_host "git" "vendor/core"
         ([] ++ "a.patch" :: ["b.patch"]) [])
  = Raise (EPatchIDError "+beta00000000000000000000000000000000000"
             "+alpha0000000000000000000000000000000000"
             "vendor/core" "a.patch").
Proof.
  refine (f_equal fst
            (proj1 (first_mismatch_is_fatal Demo.ab_host "git" "vendor/core"
                      [] "a.patch" ["b.patch"] [] [] _ _
                      "+beta00000000000000000000000000000000000"
                      "+alpha0000000000000000000000000000000000"
                      eq_refl _ _ _)));
    [vm_compute; reflexivity | vm_compute; reflexivity | discriminate].
Defined.

(** Reading a reversed list from the front is reading the list from the
    back. *)
Lemma reversed_positions {A} (l : list A) (P : nat -> A -> Prop) :
  (forall i x, nth_error (rev l) i = Some x -> P i x) <->
  (forall i x, i < length l ->
     nth_error l (length l - 1 - i) = Some x -> P i x).
Proof.
  split; intros H i x.
  - intros Hi Hx. apply H. rewrite nth_error_rev.
    destruct (Nat.ltb_spec i (length l)); [|lia].
    now replace (length l - S i) with (length l - 1 - i) by lia.
  - intros Hx. rewrite nth_error_rev in Hx.
    destruct (Nat.ltb_spec i (length l)); [|discriminate].
    apply H; [assumption|].
    now replace (length l - 1 - i) with (length l - S i) by lia.
Qed.

(** C1 (as the code has it).  [verify_checkout_patches] compares the
    commit [i] steps below [HEAD] with the [i]-th patch of the series it
    is given, and goes through exactly when, at every position, the two
    have one identity; it does not reverse the series.  The reversal is
    made by its caller in [document.py], which passes
    [reversed(patch_list)]: there the commit [i] steps below [HEAD] is
    compared with [patch_list[len(patch_list) - 1 - i]], the newest commit
    with the last patch, for every submodule of the merged list. *)
Theorem verifier_compares_in_the_order_given
    (host : Host) (git_exe : string) :
  (forall repo_path series t,
     fst (verify_checkout_patches host git_exe repo_path series t) = Ok tt
     <->
     (forall i patch, nth_error series i = Some patch ->
        exists id,
          fst (get_nth_head_commit_patch_id host repo_path git_exe i [])
            = Ok id /\
          fst (get_file_patch_id host patch git_exe []) = Ok id)) /\
  (forall source_dir merged_patch_list t,
     fst (Document.verify_merged_patch_list host git_exe source_dir
            merged_patch_list t) = Ok tt
     <->
     (forall submodule_name patch_list,
        In (submodule_name, patch_list) merged_patch_list ->
        forall i patch,
          i < length patch_list ->
          nth_error patch_list (length patch_list - 1 - i) = Some patch ->
          exists id,
            fst (get_nth_head_commit_patch_id host
                   (Document.path_div (Document.path_div source_dir "vendor")
                      submodule_name) git_exe i []) = Ok id /\
            fst (get_file_patch_id host patch git_exe []) = Ok id)).
Proof.
  assert (direct : forall repo_path series t,
     fst (verify_checkout_patches host git_exe repo_path series t) = Ok tt
     <->
     (forall i patch, nth_error series i = Some patch ->
        exists id,
          fst (get_nth_head_commit_patch_id host repo_path git_exe i [])
            = Ok id /\
          fst (get_file_patch_id host patch git_exe []) = Ok id)).
  { intros repo_path series t. unfold verify_checkout_patches.
    rewrite verify_from_ok_iff. reflexivity. }
  split; [exact direct|].
  intros source_dir merged. induction merged as [|[name pl] rest IH];
    intros t; simpl.
  - split; [intros _ ? ? []|reflexivity].
  - unfold bind at 1.
    pose proof (direct (Document.path_div (Document.path_div source_dir
                                             "vendor") name) (rev pl) t)
      as Hd.
    rewrite reversed_positions in Hd.
    destruct (verify_checkout_patches host git_exe _ (rev pl) t)
      as [[[]|e] t1]; cbn [fst] in Hd.
    + rewrite IH. split.
      * intros H n l [Heq|Hin]; [|now apply H].
        injection Heq as <- <-. now apply Hd.
      * intros H n l Hin. apply H. now right.
    + split; [discriminate|].
      intros H. apply Hd. apply H. now left.
Qed.

(** The scenario of the specification on the demonstration repository:
    the newest commit comes from [b.patch], the one below from [a.patch];
    the call [document.py] makes for the list [a.patch], [b.patch] goes
    through. *)
Example ab_scenario_verifies :
  fst (Document.verify_merged_patch_list Demo.ab_host "git" "."
         [("core", Demo.ab_series)] []) = Ok tt.
Proof. vm_compute. reflexivity. Qed.

(** C1 (as stated) fails.  In the demonstration repository the newest
    commit has the identity of [b.patch] and the commit below it that of
    [a.patch]; [verify_checkout_patches], given [a.patch] then [b.patch],
    compares [HEAD] with [a.patch] and raises [PatchIDError]. *)
Lemma verifier_does_not_reverse_the_series :
  fst (get_nth_head_commit_patch_id Demo.ab_host "vendor/core" "git" 0 [])
    = fst (get_file_patch_id Demo.ab_host "b.patch" "git" []) /\
  fst (get_nth_head_commit_patch_id Demo.ab_host "vendor/core" "git" 1 [])
    = fst (get_file_patch_id Demo.ab_host "a.patch" "git" []) /\
  fst (verify_checkout_patches Demo.ab_host "git" "vendor/core"
         ["a.patch"; "b.patch"] [])
    = Raise (EPatchIDError "+beta00000000000000000000000000000000000"
               "+alpha0000000000000000000000000000000000"
               "vendor/core" "a.patch") /\
  fst (verify_checkout_patches Demo.ab_host "git" "vendor/core"
         ["a.patch"; "b.patch"] []) <> Ok tt.
Proof.
  repeat split; try (vm_compute; reflexivity).
  vm_compute. discriminate.
Qed.

End IdentityProperties.

(* ===================================================================== *)
(** * Facts: the driver, one tool invocation at a time                    *)
(* ===================================================================== *)

Module DriverFacts.
Import Py MesonPatchVendor Protocol.
Local Open Scope list_scope.

Lemma string_app_nil_r (s : string) : (s ++ EmptyString)%string = s.
Proof. induction s as [|c s IH]; simpl; [reflexivity|now rewrite IH]. Qed.

Section WithHost.
Context {World : Type}.
Variable host : Host World.
Variable args : Args.

Lemma run_command_spec (argv : list string) (s : St World) :
  _run_command host argv s =
  let ev := events s ++ tool_events GitApply EmptyString argv in
  match host_spawn host argv None false (world s) with
  | None => (Raise (EOSError (join " " argv)), mkSt (world s) ev)
  | Some (c, w) =>
      (if (returncode c =? 0)%Z then Ok tt
       else Raise (ECalledProcessError (tool_error GitApply argv c)),
       mkSt w ev)
  end.
Proof.
  unfold _run_command, print, emit, subprocess_run_command, bind,
    tool_events, tool_error.
  cbn [world events join]. rewrite <- app_assoc. cbn [app].
  destruct (host_spawn host argv None false (world s)) as [[c w]|];
    [destruct (returncode c =? 0)%Z|]; reflexivity.
Qed.

Lemma run_patch_spec (patch : string) (argv : list string) (s : St World) :
  _run_patch host patch argv s =
  let line :=
    Stdout (("    >>>>> Running: " ++ shlex_join argv ++ " < "
               ++ shlex_quote patch) ++ LF)%string in
  match host_open host patch (world s) with
  | None => (Raise (EOSError patch), mkSt (world s) (events s ++ [line]))
  | Some input =>
      let ev := events s ++ tool_events Patch patch argv in
      match host_spawn host argv (Some input) true (world s) with
      | None => (Raise (EOSError (join " " argv)), mkSt (world s) ev)
      | Some (c, w) =>
          (if (returncode c =? 0)%Z then Ok tt
           else Raise (ECalledProcessError (tool_error Patch argv c)),
           mkSt w ev)
      end
  end.
Proof.
  unfold _run_patch, print, emit, subprocess_run_patch, bind,
    tool_events, tool_error.
  cbn [world events join].
  destruct (host_open host patch (world s)) as [input|]; [|reflexivity].
  rewrite <- app_assoc. cbn [app].
  destruct (host_spawn host argv (Some input) true (world s)) as [[c w]|];
    [destruct (returncode c =? 0)%Z|]; reflexivity.
Qed.

(** [run_tool], where the host starts the program. *)
Lemma run_tool_spec (k : tool) (patch : string) (argv : list string)
    (s : St World) (c : Completed) (w : World) :
  invoke host k patch argv (world s) = Some (c, w) ->
  run_tool host k patch argv s =
  (if (returncode c =? 0)%Z then Ok tt
   else Raise (ECalledProcessError (tool_error k argv c)),
   mkSt w (events s ++ tool_events k patch argv)).
Proof.
  destruct k; simpl invoke; simpl run_tool; intros H.
  - rewrite run_command_spec. cbv zeta. now rewrite H.
  - rewrite run_patch_spec. cbv zeta.
    destruct (host_open host patch (world s)); [|discriminate].
    now rewrite H.
Qed.

Lemma run_tool_ok (k : tool) (patch : string) (argv : list string)
    (s : St World) (c : Completed) (w : World) :
  invoke host k patch argv (world s) = Some (c, w) ->
  returncode c = 0%Z ->
  run_tool host k patch argv s =
  (Ok tt, mkSt w (events s ++ tool_events k patch argv)).
Proof.
  intros H E. rewrite (run_tool_spec _ _ _ _ _ _ H), E. reflexivity.
Qed.

Lemma run_tool_fails (k : tool) (patch : string) (argv : list string)
    (s : St World) (c : Completed) (w : World) :
  invoke host k patch argv (world s) = Some (c, w) ->
  returncode c <> 0%Z ->
  run_tool host k patch argv s =
  (Raise (ECalledProcessError (tool_error k argv c)),
   mkSt w (events s ++ tool_events k patch argv)).
Proof.
  intros H E. rewrite (run_tool_spec _ _ _ _ _ _ H).
  destruct (Z.eqb_spec (returncode c) 0); [contradiction|reflexivity].
Qed.

(** [fail_func] writes the diagnostic and exits with status 1. *)
Lemma fail_func_spec (k : tool) (reason : string) (argv : list string)
    (c : Completed) (s : St World) :
  fail_func (strategy_of host args k) reason (tool_error k argv c) s =
  (Raise (ESystemExit (ExitCode 1)),
   mkSt (world s) (events s ++ [Stderr (diagnostic k reason c)])).
Proof.
  destruct k; simpl;
    unfold _failed_git_invocation, _failed_patch_invocation, rstrip_of,
      _printerr, emit, sys_exit, raise, ret, bind, diagnostic;
    cbn [cpe_stderr cpe_stdout tool_error world events join captured
           tool_label];
    now rewrite string_app_nil_r.
Qed.

(** The functions bound by the [if]/[elif] chain, for either tool. *)
Lemma revert_func_eq (k : tool) (sub patch : string) :
  revert_func (strategy_of host args k) sub patch =
  bind (run_tool host k patch (revert_check_argv args k sub patch))
    (fun _ =>
       try_except
         (run_tool host k patch (revert_argv args k sub patch))
         (fun exc =>
            fail_func (strategy_of host args k)
              (revert_after_check_reason k sub patch) exc)).
Proof. destruct k; reflexivity. Qed.

Lemma apply_func_eq (k : tool) (sub patch : string) :
  apply_func (strategy_of host args k) sub patch =
  try_except_else
    (run_tool host k patch (apply_check_argv args k sub patch))
    (fun exc =>
       try_except_else
         (run_tool host k patch (apply_reverse_check_argv args k sub patch))
         (fun _ =>
            fail_func (strategy_of host args k)
              (apply_failure_reason sub patch) exc)
         (fun _ => print (already_applied_message patch)))
    (fun _ =>
       try_except
         (run_tool host k patch (apply_argv args k sub patch))
         (fun exc =>
            fail_func (strategy_of host args k)
              (apply_after_check_reason k sub patch) exc)).
Proof. destruct k; reflexivity. Qed.

Local Abbreviation st k := (strategy_of host args k).

(** *** [revert_func] *)

Lemma revert_func_dry_run_fails (k : tool) (sub patch : string)
    (s : St World) (c : Completed) (w1 : World) :
  revert_check host args k sub patch (world s) = Some (c, w1) ->
  returncode c <> 0%Z ->
  revert_func (st k) sub patch s =
  (Raise (ECalledProcessError
            (tool_error k (revert_check_argv args k sub patch) c)),
   mkSt w1 (events s
              ++ tool_events k patch (revert_check_argv args k sub patch))).
Proof.
  intros H E. rewrite revert_func_eq. unfold bind.
  now rewrite (run_tool_fails _ _ _ _ _ _ H E).
Qed.

Lemma revert_func_reverts (k : tool) (sub patch : string)
    (s : St World) (c c' : Completed) (w1 w2 : World) :
  revert_check host args k sub patch (world s) = Some (c, w1) ->
  returncode c = 0%Z ->
  revert_real host args k sub patch w1 = Some (c', w2) ->
  returncode c' = 0%Z ->
  revert_func (st k) sub patch s =
  (Ok tt,
   mkSt w2 (events s
              ++ tool_events k patch (revert_check_argv args k sub patch)
              ++ tool_events k patch (revert_argv args k sub patch))).
Proof.
  intros H E H' E'. rewrite revert_func_eq. unfold bind.
  rewrite (run_tool_ok _ _ _ _ _ _ H E).
  unfold try_except, try_except_else.
  rewrite (run_tool_ok _ _ _ (mkSt w1 _) _ _ H' E'). cbn [events].
  now rewrite <- app_assoc.
Qed.

Lemma revert_func_revert_fails (k : tool) (sub patch : string)
    (s : St World) (c c' : Completed) (w1 w2 : World) :
  revert_check host args k sub patch (world s) = Some (c, w1) ->
  returncode c = 0%Z ->
  revert_real host args k sub patch w1 = Some (c', w2) ->
  returncode c' <> 0%Z ->
  revert_func (st k) sub patch s =
  (Raise (ESystemExit (ExitCode 1)),
   mkSt w2 (events s
              ++ tool_events k patch (revert_check_argv args k sub patch)
              ++ tool_events k patch (revert_argv args k sub patch)
              ++ [Stderr (diagnostic k
                            (revert_after_check_reason k sub patch) c')])).
Proof.
  intros H E H' E'. rewrite revert_func_eq. unfold bind.
  rewrite (run_tool_ok _ _ _ _ _ _ H E).
  unfold try_except, try_except_else.
  rewrite (run_tool_fails _ _ _ (mkSt w1 _) _ _ H' E'), fail_func_spec.
  cbn [events world]. now rewrite <- !app_assoc.
Qed.

(** *** [apply_func] *)

Lemma apply_func_applies (k : tool) (sub patch : string)
    (s : St World) (c c' : Completed) (w1 w2 : World) :
  apply_check host args k sub patch (world s) = Some (c, w1) ->
  returncode c = 0%Z ->
  apply_real host args k sub patch w1 = Some (c', w2) ->
  returncode c' = 0%Z ->
  apply_func (st k) sub patch s =
  (Ok tt,
   mkSt w2 (events s
              ++ tool_events k patch (apply_check_argv args k sub patch)
              ++ tool_events k patch (apply_argv args k sub patch))).
Proof.
  intros H E H' E'. rewrite apply_func_eq.
  unfold try_except, try_except_else.
  rewrite (run_tool_ok _ _ _ _ _ _ H E).
  rewrite (run_tool_ok _ _ _ (mkSt w1 _) _ _ H' E'). cbn [events].
  now rewrite <- app_assoc.
Qed.

Lemma apply_func_apply_fails (k : tool) (sub patch : string)
    (s : St World) (c c' : Completed) (w1 w2 : World) :
  apply_check host args k sub patch (world s) = Some (c, w1) ->
  returncode c = 0%Z ->
  apply_real host args k sub patch w1 = Some (c', w2) ->
  returncode c' <> 0%Z ->
  apply_func (st k) sub patch s =
  (Raise (ESystemExit (ExitCode 1)),
   mkSt w2 (events s
              ++ tool_events k patch (apply_check_argv args k sub patch)
              ++ tool_events k patch (apply_argv args k sub patch)
              ++ [Stderr (diagnostic k
                            (apply_after_check_reason k sub patch) c')])).
Proof.
  intros H E H' E'. rewrite apply_func_eq.
  unfold try_except, try_except_else.
  rewrite (run_tool_ok _ _ _ _ _ _ H E).
  rewrite (run_tool_fails _ _ _ (mkSt w1 _) _ _ H' E'), fail_func_spec.
  cbn [events world]. now rewrite <- !app_assoc.
Qed.

Lemma apply_func_already_applied (k : tool) (sub patch : string)
    (s : St World) (c r : Completed) (w1 w2 : World) :
  apply_check host args k sub patch (world s) = Some (c, w1) ->
  returncode c <> 0%Z ->
  apply_reverse_check host args k sub patch w1 = Some (r, w2) ->
  returncode r = 0%Z ->
  apply_func (st k) sub patch s =
  (Ok tt,
   mkSt w2 (events s
              ++ tool_events k patch (apply_check_argv args k sub patch)
              ++ tool_events k patch
                   (apply_reverse_check_argv args k sub patch)
              ++ [Stdout (join " " (already_applied_message patch) ++ LF)])).
Proof.
  intros H E H' E'. rewrite apply_func_eq.
  unfold try_except_else.
  rewrite (run_tool_fails _ _ _ _ _ _ H E).
  rewrite (run_tool_ok _ _ _ (mkSt w1 _) _ _ H' E').
  unfold print, emit. cbn [events world]. now rewrite <- !app_assoc.
Qed.

Lemma apply_func_fails (k : tool) (sub patch : string)
    (s : St World) (c r : Completed) (w1 w2 : World) :
  apply_check host args k sub patch (world s) = Some (c, w1) ->
  returncode c <> 0%Z ->
  apply_reverse_check host args k sub patch w1 = Some (r, w2) ->
  returncode r <> 0%Z ->
  apply_func (st k) sub patch s =
  (Raise (ESystemExit (ExitCode 1)),
   mkSt w2 (events s
              ++ tool_events k patch (apply_check_argv args k sub patch)
              ++ tool_events k patch
                   (apply_reverse_check_argv args k sub patch)
              ++ [Stderr (diagnostic k (apply_failure_reason sub patch) c)])).
Proof.
  intros H E H' E'. rewrite apply_func_eq.
  unfold try_except_else.
  rewrite (run_tool_fails _ _ _ _ _ _ H E).
  rewrite (run_tool_fails _ _ _ (mkSt w1 _) _ _ H' E'), fail_func_spec.
  cbn [events world]. now rewrite <- !app_assoc.
Qed.

(** *** The cleanup loop *)

Lemma cleanup_step_tolerated (k : tool) (sub patch : string)
    (rest : list string) (s : St World) (c : Completed) (w1 : World) :
  revert_check host args k sub patch (world s) = Some (c, w1) ->
  returncode c <> 0%Z ->
  cleanup_loop (Some (st k)) sub false (patch :: rest) s =
  cleanup_loop (Some (st k)) sub false rest
    (mkSt w1 (events s
                ++ tool_events k patch (revert_check_argv args k sub patch)
                ++ [Stdout (join " " never_applied_message ++ LF)])).
Proof.
  intros H E. cbn [cleanup_loop].
  unfold bind at 1. unfold try_except_else, bound, bind at 1, ret at 1.
  rewrite (revert_func_dry_run_fails _ _ _ _ _ _ H E).
  unfold bind, print, emit, ret. cbn [events world].
  now rewrite <- app_assoc.
Qed.

Lemma cleanup_step_fatal (k : tool) (sub patch : string)
    (rest : list string) (s : St World) (c : Completed) (w1 : World) :
  revert_check host args k sub patch (world s) = Some (c, w1) ->
  returncode c <> 0%Z ->
  cleanup_loop (Some (st k)) sub true (patch :: rest) s =
  (Raise (ESystemExit (ExitCode 1)),
   mkSt w1 (events s
              ++ tool_events k patch (revert_check_argv args k sub patch)
              ++ [Stderr (diagnostic k (revert_failure_reason sub patch) c)])).
Proof.
  intros H E. cbn [cleanup_loop].
  unfold bind at 1. unfold try_except_else, bound, bind at 1, ret at 1.
  rewrite (revert_func_dry_run_fails _ _ _ _ _ _ H E).
  unfold bind, ret. rewrite fail_func_spec. cbn [events world].
  now rewrite <- app_assoc.
Qed.

Lemma cleanup_step_reverted (k : tool) (sub patch : string)
    (rest : list string) (flag : bool) (s : St World)
    (c c' : Completed) (w1 w2 : World) :
  revert_check host args k sub patch (world s) = Some (c, w1) ->
  returncode c = 0%Z ->
  revert_real host args k sub patch w1 = Some (c', w2) ->
  returncode c' = 0%Z ->
  cleanup_loop (Some (st k)) sub flag (patch :: rest) s =
  cleanup_loop (Some (st k)) sub true rest
    (mkSt w2 (events s
                ++ tool_events k patch (revert_check_argv args k sub patch)
                ++ tool_events k patch (revert_argv args k sub patch))).
Proof.
  intros H E H' E'. cbn [cleanup_loop].
  unfold bind at 1. unfold try_except_else, bound, bind at 1, ret at 1.
  rewrite (revert_func_reverts _ _ _ _ _ _ _ _ H E H' E').
  reflexivity.
Qed.

(** Failed dry runs are let pass as long as nothing has been reverted. *)
Lemma cleanup_tolerates (k : tool) (sub : string) (fails : list string) :
  forall (rest : list string) (s : St World) (w1 : World),
    dry_run_reverts_fail host args k sub fails (world s) w1 ->
    cleanup_loop (Some (st k)) sub false (fails ++ rest) s =
    cleanup_loop (Some (st k)) sub false rest
      (mkSt w1 (events s ++ tolerated_events args k sub fails)).
Proof.
  induction fails as [|patch fails IH]; intros rest s w1 H;
    inversion H; subst.
  - cbn [app tolerated_events flat_map]. rewrite app_nil_r.
    now destruct s.
  - cbn [app]. erewrite cleanup_step_tolerated by eassumption.
    erewrite IH by (cbn [world]; eassumption).
    cbn [events tolerated_events flat_map].
    now rewrite <- !app_assoc.
Qed.

(** Reverts that succeed set the flag and keep it set. *)
Lemma cleanup_reverts (k : tool) (sub : string) (series : list string) :
  forall (rest : list string) (s : St World) (w2 : World),
    reverts_succeed host args k sub series (world s) w2 ->
    cleanup_loop (Some (st k)) sub true (series ++ rest) s =
    cleanup_loop (Some (st k)) sub true rest
      (mkSt w2 (events s ++ reverted_events args k sub series)).
Proof.
  induction series as [|patch series IH]; intros rest s w2 H;
    inversion H; subst.
  - cbn [app reverted_events flat_map]. rewrite app_nil_r.
    now destruct s.
  - cbn [app]. erewrite cleanup_step_reverted by eassumption.
    erewrite IH by (cbn [world]; eassumption).
    cbn [events reverted_events flat_map].
    now rewrite <- !app_assoc.
Qed.

Lemma cleanup_first_revert (k : tool) (sub patch : string)
    (series rest : list string) (s : St World) (w2 : World) :
  reverts_succeed host args k sub (patch :: series) (world s) w2 ->
  cleanup_loop (Some (st k)) sub false ((patch :: series) ++ rest) s =
  cleanup_loop (Some (st k)) sub true rest
    (mkSt w2 (events s ++ reverted_events args k sub (patch :: series))).
Proof.
  intros H. inversion H; subst.
  cbn [app]. erewrite cleanup_step_reverted by eassumption.
  erewrite cleanup_reverts by (cbn [world]; eassumption).
  cbn [events reverted_events flat_map].
  now rewrite <- !app_assoc.
Qed.

(** *** The apply loop *)

Lemma apply_loop_cons (k : tool) (sub patch : string)
    (rest : list string) (s : St World) :
  apply_loop (Some (st k)) sub (patch :: rest) s =
  match apply_func (st k) sub patch s with
  | (Ok _, s1) => apply_loop (Some (st k)) sub rest s1
  | (Raise e, s1) => (Raise e, s1)
  end.
Proof. reflexivity. Qed.

Lemma apply_loop_applies (k : tool) (sub : string) (series : list string) :
  forall (s : St World) (w2 : World),
    patches_apply host args k sub series (world s) w2 ->
    apply_loop (Some (st k)) sub series s =
    (Ok tt, mkSt w2 (events s ++ applied_events args k sub series)).
Proof.
  induction series as [|patch series IH]; intros s w2 H;
    inversion H; subst.
  - cbn [apply_loop applied_events flat_map]. rewrite app_nil_r.
    now destruct s.
  - rewrite apply_loop_cons.
    erewrite apply_func_applies by eassumption.
    erewrite IH by (cbn [world]; eassumption).
    cbn [events applied_events flat_map].
    now rewrite <- !app_assoc.
Qed.

(** *** The script around the loops *)

Lemma commands_app (a b : list event) :
  commands (a ++ b) = commands a ++ commands b.
Proof.
  induction a as [|[] a IH]; simpl; rewrite ?IH; reflexivity.
Qed.

Lemma commands_tool_events (k : tool) (patch : string) (argv : list string) :
  commands (tool_events k patch argv) = [argv].
Proof. destruct k; reflexivity. Qed.

Lemma eqb_empty (s : string) : (s =? EmptyString)%string = negb (truthy s).
Proof. destruct s; reflexivity. Qed.

Lemma selected_tool_some (k : tool) :
  selected_tool args = Some k ->
  ((git_executable args =? EmptyString)%string
   && (patch_executable args =? EmptyString)%string) = false.
Proof.
  unfold selected_tool. rewrite !eqb_empty.
  destruct (truthy (git_executable args)),
    (truthy (patch_executable args)); simpl; congruence.
Qed.

(** Before its loops the branch only writes to standard output, and it
    binds the functions of the selected tool. *)
Lemma branch_prefix (k : tool) (is_in_git_repo : bool)
    (K : option (Strategy (World := World)) -> Cmd unit) :
  selected_tool args = Some k ->
  exists pre,
    commands pre = [] /\
    forall s,
      bind
        (if negb is_in_git_repo then
           print ["    ===== WARNING: Not in a git repository, using";
                  "potentially less reliable patching strategy ====="]
         else if is_in_git_repo && negb (truthy (git_executable args)) then
           print ["    ===== WARNING: It looks like we are in a git repo (likely";
                  "cloned with 'git clone'), but the 'git' executable is nowhere";
                  "to be found. It is recommended to use 'git' for patching";
                  "(using 'git am') the vendored submodules, because it is";
                  "simpler to handle and revert bad patches. ====="]
         else ret tt)
        (fun _ =>
           bind (choose_strategy host args is_in_git_repo)
             (fun strategy =>
                bind
                  (print ["    ======= Cleaning up vendored projects ======="])
                  (fun _ => K strategy))) s
      = K (Some (st k)) (mkSt (world s) (events s ++ pre)).
Proof.
  unfold selected_tool, choose_strategy. intros H.
  destruct (truthy (git_executable args));
    [|destruct (truthy (patch_executable args)); [|discriminate]];
    injection H as <-; destruct is_in_git_repo; cbn [negb andb];
    eexists; (split; [|intros s; unfold bind, print, emit, ret;
                       cbn [world events]; rewrite <- ?app_assoc;
                       cbn [app]; reflexivity]); reflexivity.
Qed.

Lemma revert_apply_branch_spec (k : tool) (sub : string)
    (is_in_git_repo : bool) :
  selected_tool args = Some k ->
  exists pre,
    commands pre = [] /\
    forall s,
      revert_apply_branch host args sub is_in_git_repo s =
      bind (cleanup_loop (Some (st k)) sub false (rev (patches args)))
        (fun _ =>
           bind (print ["    ======= Applying patches ======="])
             (fun _ => apply_loop (Some (st k)) sub (patches args)))
        (mkSt (world s) (events s ++ pre)).
Proof.
  intros H.
  destruct (branch_prefix k is_in_git_repo
              (fun strategy =>
                 bind (cleanup_loop strategy sub false (rev (patches args)))
                   (fun _ =>
                      bind (print ["    ======= Applying patches ======="])
                        (fun _ => apply_loop strategy sub (patches args))))
              H) as (pre & Hpre & Heq).
  exists pre. split; [assumption|]. intros s. rewrite <- Heq. reflexivity.
Qed.

(** [main], where the directory can be entered and the [git am] branch
    is not taken. *)
Lemma main_revert_apply (k : tool) (environ : string -> option string)
    (s : St World) (w0 : World) :
  selected_tool args = Some k ->
  host_chdir host (source_root host environ) (world s) = Some w0 ->
  truthy (git_executable args) && host_exists host ".git" w0 = false ->
  main host args environ s =
  revert_apply_branch host args (submodule_path host args)
    (host_exists host ".git" w0)
    (mkSt w0 (events s ++ [Chdir (source_root host environ)])).
Proof.
  intros Hk Hcd Hb. unfold main, source_root in *.
  destruct (environ "MESON_SOURCE_ROOT"); unfold bind at 1, os_chdir;
    rewrite Hcd, (selected_tool_some k Hk);
    unfold bind, path_exists; cbn [world]; rewrite Hb; reflexivity.
Qed.

Lemma main_git_am (environ : string -> option string)
    (s : St World) (w0 : World) :
  host_chdir host (source_root host environ) (world s) = Some w0 ->
  truthy (git_executable args) = true ->
  host_exists host ".git" w0 = true ->
  main host args environ s =
  git_am_branch host args (submodule_path host args)
    (mkSt w0 (events s ++ [Chdir (source_root host environ)])).
Proof.
  intros Hcd Hg He. unfold main, source_root in *.
  destruct (environ "MESON_SOURCE_ROOT"); unfold bind at 1, os_chdir;
    rewrite Hcd, eqb_empty, Hg; cbn [negb andb];
    unfold bind, path_exists; cbn [world]; rewrite He; reflexivity.
Qed.

(** *** Whole runs of the revert-then-apply branch *)

Lemma cleanup_all_reverted (k : tool) (sub : string)
    (series : list string) (s : St World) (w2 : World) :
  reverts_succeed host args k sub series (world s) w2 ->
  cleanup_loop (Some (st k)) sub false series s =
  (Ok tt, mkSt w2 (events s ++ reverted_events args k sub series)).
Proof.
  intros H. destruct series as [|patch series].
  - inversion H; subst. cbn [cleanup_loop reverted_events flat_map].
    rewrite app_nil_r. now destruct s.
  - rewrite <- (app_nil_r (patch :: series)) at 1.
    now rewrite (cleanup_first_revert _ _ _ _ _ _ _ H).
Qed.

Lemma reverts_succeed_app (k : tool) (sub : string) (l1 l2 : list string) :
  forall w w1 w2,
    reverts_succeed host args k sub l1 w w1 ->
    reverts_succeed host args k sub l2 w1 w2 ->
    reverts_succeed host args k sub (l1 ++ l2) w w2.
Proof.
  induction l1 as [|p l1 IH]; intros w w1 w2 H1 H2; inversion H1; subst.
  - assumption.
  - cbn [app]. econstructor; eauto.
Qed.

(** Where reverting undoes applying, a series that has been applied can
    be reverted from its last patch to its first. *)
Lemma applied_series_reverts (k : tool) (sub : string) :
  revert_undoes_apply host args k sub ->
  forall series w0 w1,
    patches_apply host args k sub series w0 w1 ->
    reverts_succeed host args k sub (rev series) w1 w0.
Proof.
  intros law series w0 w1 H. induction H as [w|patch rest w c c' w1 w2
                                               Hc Ec Ha Ea Hrest IH].
  - constructor.
  - cbn [rev]. eapply reverts_succeed_app; [exact IH|].
    destruct (law patch w c c' w1 Hc Ec Ha Ea) as (r & r' & H1 & E1 & H2 & E2).
    econstructor; eauto. constructor.
Qed.

(** A run that lets failed dry runs pass, reverts the rest of the
    series and applies every patch. *)
Lemma run_goes_through (k : tool) (environ : string -> option string)
    (fails reverted : list string) (s : St World) (w wa w0 w1 : World) :
  selected_tool args = Some k ->
  host_chdir host (source_root host environ) (world s) = Some w ->
  truthy (git_executable args) && host_exists host ".git" w = false ->
  rev (patches args) = fails ++ reverted ->
  dry_run_reverts_fail host args k (submodule_path host args) fails w wa ->
  reverts_succeed host args k (submodule_path host args) reverted wa w0 ->
  patches_apply host args k (submodule_path host args) (patches args) w0 w1 ->
  exists ev,
    script host args environ s = (0%Z, mkSt w1 (events s ++ ev)) /\
    commands ev =
      map (revert_check_argv args k (submodule_path host args)) fails
      ++ commands (reverted_events args k (submodule_path host args) reverted)
      ++ commands (applied_events args k (submodule_path host args)
                     (patches args)).
Proof.
  intros Hk Hcd Hb Hrev Hf Hr Ha.
  destruct (revert_apply_branch_spec k (submodule_path host args)
              (host_exists host ".git" w) Hk) as (pre & Hpre & Hbranch).
  eexists. split.
  - unfold script. rewrite (main_revert_apply k environ s w Hk Hcd Hb).
    rewrite Hbranch, Hrev. unfold bind at 1.
    rewrite (cleanup_tolerates k _ fails reverted _ wa) by exact Hf.
    rewrite (cleanup_all_reverted k _ reverted _ w0) by exact Hr.
    unfold bind at 1, print, emit.
    rewrite (apply_loop_applies k _ (patches args) _ w1) by exact Ha.
    cbn [events world]. rewrite <- !app_assoc. reflexivity.
  - rewrite !commands_app, Hpre. cbn [commands app].
    f_equal. clear. unfold tolerated_events.
    induction fails as [|p fails IH]; [reflexivity|].
    cbn [flat_map map]. rewrite !commands_app, IH.
    now rewrite commands_tool_events.
Qed.

End WithHost.
End DriverFacts.

(* ===================================================================== *)
(** * Properties of the driver                                            *)
(* ===================================================================== *)

Module DriverProperties.
Import Py MesonPatchVendor Protocol DriverFacts.
Local Open Scope list_scope.

(** C8.  With both executables empty the script exits with status 1 and
    the message that at least one patch executable must be specified on
    its error stream; it has started no program, and the world is as
    entering the source directory left it.  (Where the directory cannot be
    entered the script ends with the traceback of that error, with status
    1 and no program started as well.) *)
Theorem refuses_without_tools
    {World : Type} (host : Host World) (args : Args)
    (environ : string -> option string) (s : St World) :
  git_executable args = EmptyString ->
  patch_executable args = EmptyString ->
  let r := script host args environ s in
  fst r = 1%Z /\
  commands (events (snd r)) = commands (events s) /\
  match host_chdir host (source_root host environ) (world s) with
  | Some w0 =>
      snd r = mkSt w0 (events s
                         ++ [Chdir (source_root host environ);
                             Stderr (tool_unavailable_message ++ LF)])
  | None =>
      snd r = mkSt (world s)
                (events s ++ [Traceback (EOSError (source_root host environ))])
  end.
Proof.
  intros Hg Hp. unfold script, main, source_root.
  rewrite Hg, Hp. cbn [String.eqb andb].
  destruct (environ "MESON_SOURCE_ROOT") as [root|];
    unfold bind, os_chdir, sys_exit, raise;
    (destruct (host_chdir host _ (world s)) as [w0|]; cbn [fst snd events world];
     [rewrite <- app_assoc|]; rewrite ?commands_app; cbn [commands app];
     rewrite ?app_nil_r; auto).
Qed.

(** The demonstration tree, neither tool given. *)
Lemma refuses_without_tools_witness :
  let r := script Demo.tree_host Demo.no_tool_args Demo.no_environ
             (Demo.start Demo.checkout) in
  fst r = 1%Z /\
  commands (events (snd r)) = [] /\
  snd r = mkSt Demo.checkout
            [Chdir "/src/android-tools-static";
             Stderr (tool_unavailable_message ++ LF)].
Proof.
  exact (refuses_without_tools Demo.tree_host Demo.no_tool_args
           Demo.no_environ (Demo.start Demo.checkout) eq_refl eq_refl).
Defined.

Lemma string_append_assoc (a b c : string) :
  ((a ++ b) ++ c)%string = (a ++ b ++ c)%string.
Proof.
  induction a as [|x a IH]; cbn; [reflexivity|now rewrite IH].
Qed.

(** The line [print] writes for a patch that is applied already. *)
Lemma already_applied_line (patch : string) :
  (join " " (already_applied_message patch) ++ LF)%string
  = ("    ======= Patch '" ++ patch
       ++ "' applied already, doing nothing... =======" ++ LF)%string.
Proof.
  cbn [already_applied_message join].
  now rewrite !string_append_assoc.
Qed.

(** One turn of the forward loop, by what the tool answers. *)
Lemma apply_loop_step
    {World : Type} (host : Host World) (args : Args) (k : tool)
    (sub patch : string) (rest : list string) (s : St World)
    (c : Completed) (w1 : World) :
  apply_check host args k sub patch (world s) = Some (c, w1) ->
  let strategy := Some (strategy_of host args k) in
  let checked :=
    events s ++ tool_events k patch (apply_check_argv args k sub patch) in
  (returncode c = 0%Z ->
   forall c' w2,
     apply_real host args k sub patch w1 = Some (c', w2) ->
     let applied :=
       checked ++ tool_events k patch (apply_argv args k sub patch) in
     (returncode c' = 0%Z ->
      apply_loop strategy sub (patch :: rest) s =
      apply_loop strategy sub rest (mkSt w2 applied)) /\
     (returncode c' <> 0%Z ->
      apply_loop strategy sub (patch :: rest) s =
      (Raise (ESystemExit (ExitCode 1)),
       mkSt w2 (applied
                  ++ [Stderr (diagnostic k
                                (apply_after_check_reason k sub patch) c')]))))
  /\
  (returncode c <> 0%Z ->
   forall r w2,
     apply_reverse_check host args k sub patch w1 = Some (r, w2) ->
     let rechecked :=
       checked
         ++ tool_events k patch (apply_reverse_check_argv args k sub patch) in
     (returncode r = 0%Z ->
      apply_loop strategy sub (patch :: rest) s =
      apply_loop strategy sub rest
        (mkSt w2 (rechecked
                    ++ [Stdout (join " " (already_applied_message patch)
                                  ++ LF)]))) /\
     (returncode r <> 0%Z ->
      apply_loop strategy sub (patch :: rest) s =
      (Raise (ESystemExit (ExitCode 1)),
       mkSt w2 (rechecked
                  ++ [Stderr (diagnostic k (apply_failure_reason sub patch)
                                c)])))).
Proof.
  intros H strategy checked. subst strategy checked.
  split; intros E c2 w2 H2; cbv zeta; split; intros E2;
    rewrite apply_loop_cons.
  - rewrite (apply_func_applies host args k sub patch s c c2 w1 w2 H E H2 E2).
    now rewrite <- app_assoc.
  - rewrite (apply_func_apply_fails host args k sub patch s c c2 w1 w2
               H E H2 E2).
    now rewrite <- !app_assoc.
  - rewrite (apply_func_already_applied host args k sub patch s c c2 w1 w2
               H E H2 E2).
    now rewrite <- !app_assoc.
  - rewrite (apply_func_fails host args k sub patch s c c2 w1 w2 H E H2 E2).
    now rewrite <- !app_assoc.
Qed.

(** C3.  In the forward pass, for either tool and every patch: when the
    dry run of the apply ([git apply --check --verbose], [patch
    --dry-run]) exits with zero, the apply itself is run next (the same
    command line without [--check], without [--dry-run]), and the loop
    goes on if it exits with zero; when the dry run exits non-zero, the
    reverse dry run is run next ([git apply --reverse --check], [patch
    --dry-run -R]), and if that exits with zero the line saying that the
    patch is applied already is written, nothing is applied and the loop
    goes on, while if it exits non-zero too the run ends with status 1
    after writing the reason and what the failed dry run of the apply had
    reported, and no later patch is tried. *)
Theorem apply_pass_protocol
    {World : Type} (host : Host World) (args : Args) (k : tool)
    (sub patch : string) (rest : list string) (s : St World)
    (c : Completed) (w1 : World) :
  let git := git_executable args in
  let patch_exe := patch_executable args in
  let dry_run :=
    match k with
    | GitApply => [git; "-C"; sub; "apply"; "--check"; "--verbose"; patch]
    | Patch => [patch_exe; "-d"; sub; "-p"; "1"; "--dry-run"]
    end in
  let real_apply :=
    match k with
    | GitApply => [git; "-C"; sub; "apply"; "--verbose"; patch]
    | Patch => [patch_exe; "-d"; sub; "-p"; "1"]
    end in
  let reverse_dry_run :=
    match k with
    | GitApply => [git; "-C"; sub; "apply"; "--reverse"; "--check"; patch]
    | Patch => [patch_exe; "-d"; sub; "-p"; "1"; "--dry-run"; "-R"]
    end in
  let applied_already :=
    Stdout ("    ======= Patch '" ++ patch
              ++ "' applied already, doing nothing... =======" ++ LF) in
  invoke host k patch dry_run (world s) = Some (c, w1) ->
  let strategy := Some (strategy_of host args k) in
  let checked := events s ++ tool_events k patch dry_run in
  (returncode c = 0%Z ->
   forall c' w2,
     invoke host k patch real_apply w1 = Some (c', w2) ->
     let applied := checked ++ tool_events k patch real_apply in
     (returncode c' = 0%Z ->
      apply_loop strategy sub (patch :: rest) s =
      apply_loop strategy sub rest (mkSt w2 applied)) /\
     (returncode c' <> 0%Z ->
      apply_loop strategy sub (patch :: rest) s =
      (Raise (ESystemExit (ExitCode 1)),
       mkSt w2 (applied
                  ++ [Stderr (diagnostic k
                                (apply_after_check_reason k sub patch) c')]))))
  /\
  (returncode c <> 0%Z ->
   forall r w2,
     invoke host k patch reverse_dry_run w1 = Some (r, w2) ->
     let rechecked := checked ++ tool_events k patch reverse_dry_run in
     (returncode r = 0%Z ->
      apply_loop strategy sub (patch :: rest) s =
      apply_loop strategy sub rest
        (mkSt w2 (rechecked ++ [applied_already]))) /\
     (returncode r <> 0%Z ->
      apply_loop strategy sub (patch :: rest) s =
      (Raise (ESystemExit (ExitCode 1)),
       mkSt w2 (rechecked
                  ++ [Stderr (diagnostic k (apply_failure_reason sub patch)
                                c)])))).
Proof.
  intros git patch_exe dry_run real_apply reverse_dry_run applied_already H.
  subst git patch_exe dry_run real_apply reverse_dry_run applied_already.
  pose proof (apply_loop_step host args k sub patch rest s c w1) as step.
  rewrite already_applied_line in step.
  destruct k; exact (step H).
Qed.

(** The demonstration tree, with [git apply].  On the pristine tree the
    dry run of [a.patch] passes and the apply follows, leaving the tree
    with the patch; on the fully patched tree the dry run fails, the
    reverse dry run passes and the patch is reported, nothing being
    applied. *)
Lemma apply_pass_protocol_witness :
  apply_loop (Some (strategy_of Demo.tree_host Demo.git_args GitApply))
    "vendor/core" ["a.patch"] (Demo.start Demo.pristine)
  = (Ok tt,
     mkSt (Demo.mkTree false [] ["a.patch"])
       [Stdout ("    >>>>> Running: git -C vendor/core apply --check "
                  ++ "--verbose a.patch" ++ LF);
        Ran ["git"; "-C"; "vendor/core"; "apply"; "--check"; "--verbose";
             "a.patch"] None;
        Stdout ("    >>>>> Running: git -C vendor/core apply --verbose "
                  ++ "a.patch" ++ LF);
        Ran ["git"; "-C"; "vendor/core"; "apply"; "--verbose"; "a.patch"]
          None]) /\
  apply_loop (Some (strategy_of Demo.tree_host Demo.git_args GitApply))
    "vendor/core" ["a.patch"] (Demo.start Demo.fully_patched)
  = (Ok tt,
     mkSt Demo.fully_patched
       [Stdout ("    >>>>> Running: git -C vendor/core apply --check "
                  ++ "--verbose a.patch" ++ LF);
        Ran ["git"; "-C"; "vendor/core"; "apply"; "--check"; "--verbose";
             "a.patch"] None;
        Stdout ("    >>>>> Running: git -C vendor/core apply --reverse "
                  ++ "--check a.patch" ++ LF);
        Ran ["git"; "-C"; "vendor/core"; "apply"; "--reverse"; "--check";
             "a.patch"] None;
        Stdout ("    ======= Patch 'a.patch' applied already, "
                  ++ "doing nothing... =======" ++ LF)]).
Proof.
  split.
  - exact (proj1 (proj1 (apply_pass_protocol Demo.tree_host Demo.git_args
                           GitApply "vendor/core" "a.patch" []
                           (Demo.start Demo.pristine)
                           (mkCompleted 0 EmptyString EmptyString)
                           Demo.pristine eq_refl)
                    eq_refl (mkCompleted 0 EmptyString EmptyString)
                    (Demo.mkTree false [] ["a.patch"]) eq_refl) eq_refl).
  - refine (proj1 (proj2 (apply_pass_protocol Demo.tree_host Demo.git_args
                            GitApply "vendor/core" "a.patch" []
                            (Demo.start Demo.fully_patched)
                            (mkCompleted 1 "patch does not apply"
                               "patch does not apply")
                            Demo.fully_patched eq_refl)
                     _ (mkCompleted 0 EmptyString EmptyString)
                     Demo.fully_patched eq_refl) eq_refl).
    discriminate.
Defined.


(** C2.  In the cleanup pass, which goes through the series from its last
    patch to its first, for either tool: as long as no revert has
    succeeded in the run, a dry-run revert that exits non-zero is let pass
    (it writes that the patch was likely never applied) and the loop goes
    on with the next patch, so a series whose dry-run reverts all fail is
    cleaned up without error; but after the first revert that succeeded,
    the first dry-run revert that exits non-zero ends the run with status
    1, after writing the reason and what the tool reported, with the world
    as that dry run left it: no later patch is tried.  This holds for any
    number of failures let pass, any number of successful reverts after
    them, and any rest of the series. *)
Theorem cleanup_revert_failure_policy
    {World : Type} (host : Host World) (args : Args) (k : tool)
    (sub : string) (fails : list string) (s : St World) (w1 : World) :
  dry_run_reverts_fail host args k sub fails (world s) w1 ->
  let strategy := Some (strategy_of host args k) in
  let tolerated := events s ++ tolerated_events args k sub fails in
  (forall rest,
     cleanup_loop strategy sub false (fails ++ rest) s =
     cleanup_loop strategy sub false rest (mkSt w1 tolerated)) /\
  cleanup_loop strategy sub false fails s = (Ok tt, mkSt w1 tolerated) /\
  (forall first reverted w2 patch c w3 rest,
     reverts_succeed host args k sub (first :: reverted) w1 w2 ->
     revert_check host args k sub patch w2 = Some (c, w3) ->
     returncode c <> 0%Z ->
     cleanup_loop strategy sub false
       (fails ++ (first :: reverted) ++ patch :: rest) s =
     (Raise (ESystemExit (ExitCode 1)),
      mkSt w3 (tolerated
                 ++ reverted_events args k sub (first :: reverted)
                 ++ tool_events k patch (revert_check_argv args k sub patch)
                 ++ [Stderr (diagnostic k (revert_failure_reason sub patch)
                               c)]))).
Proof.
  intros Hf strategy tolerated. subst strategy tolerated.
  assert (Hgo : forall rest,
             cleanup_loop (Some (strategy_of host args k)) sub false
               (fails ++ rest) s =
             cleanup_loop (Some (strategy_of host args k)) sub false rest
               (mkSt w1 (events s ++ tolerated_events args k sub fails))).
  { intros rest. now apply cleanup_tolerates. }
  split; [exact Hgo|]. split.
  - specialize (Hgo []). now rewrite app_nil_r in Hgo.
  - intros first reverted w2 patch c w3 rest Hr Hc Ec.
    rewrite Hgo.
    rewrite (cleanup_first_revert host args k sub first reverted
               (patch :: rest) _ w2) by exact Hr.
    rewrite (cleanup_step_fatal host args k sub patch rest _ c w3)
      by assumption.
    cbn [events]. now rewrite <- !app_assoc.
Qed.

(** The demonstration tree with only [b.patch] applied, [git apply]: the
    revert of [b.patch] succeeds, the dry-run revert of [a.patch] fails
    and ends the run. *)
Lemma cleanup_revert_failure_policy_witness :
  fst (cleanup_loop (Some (strategy_of Demo.tree_host Demo.git_args GitApply))
         "vendor/core" false ([] ++ ["b.patch"] ++ "a.patch" :: [])
         (Demo.start Demo.only_b))
  = Raise (ESystemExit (ExitCode 1)).
Proof.
  refine (f_equal fst
            (proj2 (proj2 (cleanup_revert_failure_policy Demo.tree_host
                             Demo.git_args GitApply "vendor/core" []
                             (Demo.start Demo.only_b) Demo.only_b
                             (drf_nil _ _ _ _ _)))
               "b.patch" [] Demo.pristine "a.patch"
               (mkCompleted 1 "patch does not apply" "patch does not apply")
               Demo.pristine [] _ eq_refl _)).
  - refine (rs_cons Demo.tree_host Demo.git_args GitApply "vendor/core"
              "b.patch" [] Demo.only_b
              (mkCompleted 0 EmptyString EmptyString) Demo.only_b
              (mkCompleted 0 EmptyString EmptyString) Demo.pristine
              Demo.pristine eq_refl eq_refl eq_refl eq_refl
              (rs_nil _ _ _ _ _)).
  - discriminate.
Defined.

Ltac run_step H :=
  rewrite run_command_spec; cbv zeta; cbn [world events]; rewrite H.

Ltac count_commands :=
  cbn [fst snd world events];
  rewrite ?commands_app; cbn [commands tool_events app];
  rewrite ?app_nil_r, <- ?app_assoc; cbn [app].

(** The [git am] branch, by what its three commands answer. *)
Lemma git_am_branch_steps
    {World : Type} (host : Host World) (args : Args)
    (environ : string -> option string) (s : St World) (w0 : World) :
  host_chdir host (source_root host environ) (world s) = Some w0 ->
  truthy (git_executable args) = true ->
  host_exists host ".git" w0 = true ->
  let git := git_executable args in
  let sub := submodule_path host args in
  let r := script host args environ s in
  forall c1 w1,
    host_spawn host (reset_hard_argv git sub) None false w0 = Some (c1, w1) ->
    (returncode c1 <> 0%Z ->
     fst r = 1%Z /\ world (snd r) = w1 /\
     commands (events (snd r))
       = commands (events s) ++ [reset_hard_argv git sub]) /\
    (returncode c1 = 0%Z ->
     forall c2 w2,
       host_spawn host (clean_argv git sub) None false w1 = Some (c2, w2) ->
       (returncode c2 <> 0%Z ->
        fst r = 1%Z /\ world (snd r) = w2 /\
        commands (events (snd r))
          = commands (events s) ++ [reset_hard_argv git sub; clean_argv git sub])
       /\
       (returncode c2 = 0%Z ->
        forall c3 w3,
          host_spawn host (git_am_argv git sub (patches args)) None false w2
            = Some (c3, w3) ->
          world (snd r) = w3 /\
          commands (events (snd r))
            = commands (events s)
                ++ [reset_hard_argv git sub; clean_argv git sub;
                    git_am_argv git sub (patches args)] /\
          (returncode c3 = 0%Z -> fst r = 0%Z) /\
          (returncode c3 <> 0%Z -> fst r = 1%Z))).
Proof.
  intros Hcd Hg He git sub r c1 w1 H1. subst git sub r.
  unfold script. rewrite (main_git_am host args environ s w0 Hcd Hg He).
  unfold git_am_branch, _reset_git_submodule, _failed_git_invocation,
    try_except, try_except_else, path_exists, rstrip_of, iterdir_is_empty,
    sys_exit, print, _printerr, emit, bind, raise, ret.
  cbn [world events]. run_step H1.
  split; [intros E1|intros E1 c2 w2 H2].
  - rewrite (proj2 (Z.eqb_neq _ _) E1). cbn [tool_error cpe_stderr].
    count_commands. auto.
  - rewrite (proj2 (Z.eqb_eq _ _) E1). run_step H2.
    split; [intros E2|intros E2 c3 w3 H3].
    + rewrite (proj2 (Z.eqb_neq _ _) E2). cbn [tool_error cpe_stderr].
      count_commands. auto.
    + rewrite (proj2 (Z.eqb_eq _ _) E2). run_step H3.
      destruct (Z.eqb_spec (returncode c3) 0) as [E3|E3].
      * count_commands. repeat split; auto. intros; contradiction.
      * cbn [tool_error cpe_stderr world events].
        destruct (host_exists host
                    (join (os_sep host)
                       [".git"; "modules"; "vendor"; submodule_name args;
                        "rebase-apply"]) w2);
          cbn [world events];
          [|destruct (host_iterdir host (submodule_path host args) w3)
              as [[|x l]|]];
          count_commands; repeat split; auto; intros; contradiction.
Qed.

(** X18.  With [git] given and [.git] present, the script first runs
    [git -C <submodule> reset --hard] and then
    [git -C <submodule> clean --force -d -x], and only if both exit with
    zero it runs [git am] once, with the identity options of the source
    and the whole series in its order as arguments; it starts no other
    program.  The script ends with status 0 exactly when that one [git am]
    exits with zero, and with status 1 when any of the three exits
    non-zero, the later ones then not being run.  The world is the one the
    last command that ran has left: what the three commands do to the
    tree is up to [git]. *)
Theorem git_am_branch_resets_then_applies_once
    {World : Type} (host : Host World) (args : Args)
    (environ : string -> option string) (s : St World) (w0 : World) :
  host_chdir host (source_root host environ) (world s) = Some w0 ->
  truthy (git_executable args) = true ->
  host_exists host ".git" w0 = true ->
  let git := git_executable args in
  let sub := ("vendor" ++ os_sep host ++ submodule_name args)%string in
  let git_reset := [git; "-C"; sub; "reset"; "--hard"] in
  let git_clean := [git; "-C"; sub; "clean"; "--force"; "-d"; "-x"] in
  let git_am :=
    [git; "-c"; "safe.directory=*";
     "-c"; "user.name=android-tools-static's build system";
     "-c"; "user.email=email@invalid.invalid";
     "-C"; sub; "am"] ++ patches args in
  let r := script host args environ s in
  forall c1 w1,
    host_spawn host git_reset None false w0 = Some (c1, w1) ->
    (returncode c1 <> 0%Z ->
     fst r = 1%Z /\ world (snd r) = w1 /\
     commands (events (snd r)) = commands (events s) ++ [git_reset]) /\
    (returncode c1 = 0%Z ->
     forall c2 w2,
       host_spawn host git_clean None false w1 = Some (c2, w2) ->
       (returncode c2 <> 0%Z ->
        fst r = 1%Z /\ world (snd r) = w2 /\
        commands (events (snd r))
          = commands (events s) ++ [git_reset; git_clean])
       /\
       (returncode c2 = 0%Z ->
        forall c3 w3,
          host_spawn host git_am None false w2 = Some (c3, w3) ->
          world (snd r) = w3 /\
          commands (events (snd r))
            = commands (events s) ++ [git_reset; git_clean; git_am] /\
          (returncode c3 = 0%Z -> fst r = 0%Z) /\
          (returncode c3 <> 0%Z -> fst r = 1%Z))).
Proof.
  exact (git_am_branch_steps host args environ s w0).
Qed.

(** A fresh checkout of the demonstration repository, [git] given: reset,
    clean and one [git am] all exit with zero, and the series is landed
    as commits. *)
Lemma git_am_branch_resets_then_applies_once_witness :
  let r := script Demo.tree_host Demo.git_args Demo.no_environ
             (Demo.start Demo.checkout) in
  fst r = 0%Z /\
  world (snd r) = Demo.mkTree true ["b.patch"; "a.patch"] [] /\
  commands (events (snd r))
  = [] ++ [["git"; "-C"; "vendor/core"; "reset"; "--hard"];
           ["git"; "-C"; "vendor/core"; "clean"; "--force"; "-d"; "-x"];
           ["git"; "-c"; "safe.directory=*";
            "-c"; "user.name=android-tools-static's build system";
            "-c"; "user.email=email@invalid.invalid";
            "-C"; "vendor/core"; "am"; "a.patch"; "b.patch"]].
Proof.
  refine ((fun H => conj (proj1 (proj2 (proj2 H)) eq_refl)
                      (conj (proj1 H) (proj1 (proj2 H))))
            (proj2
               (proj2
                  (git_am_branch_resets_then_applies_once Demo.tree_host
                     Demo.git_args Demo.no_environ (Demo.start Demo.checkout)
                     Demo.checkout eq_refl eq_refl eq_refl
                     (mkCompleted 0 EmptyString EmptyString) Demo.checkout
                     eq_refl)
                  eq_refl
                  (mkCompleted 0 EmptyString EmptyString) Demo.checkout
                  eq_refl)
               eq_refl
               (mkCompleted 0 EmptyString EmptyString)
               (Demo.mkTree true ["b.patch"; "a.patch"] [])
               eq_refl)).
Defined.


(** In the demonstration tree the tools undo what they apply. *)
Lemma demo_revert_undoes_apply (a : Args) (k : tool) (sub : string) :
  revert_undoes_apply Demo.tree_host a k sub.
Proof.
  intros patch w c c' w1 Hc Ec Ha Ea.
  assert (Hnot : Demo.has patch w = false).
  { destruct k; cbv [apply_check invoke apply_check_argv
                       git_apply_check_argv patch_apply_check_argv
                       Demo.tree_host host_spawn host_open Demo.tree_spawn
                       Demo.is_ String.eqb Ascii.eqb Bool.eqb andb orb
                       Demo.tool_check] in Hc;
      destruct (Demo.has patch w); [|reflexivity| |reflexivity];
      injection Hc; intros; subst; discriminate. }
  assert (Hw1 : w1 = Demo.mkTree (Demo.is_repo w) (Demo.commits w)
                       (patch :: Demo.applied w)).
  { destruct k; cbv [apply_real invoke apply_argv git_apply_argv
                       patch_apply_argv Demo.tree_host host_spawn host_open
                       Demo.tree_spawn Demo.is_ String.eqb Ascii.eqb Bool.eqb
                       andb orb Demo.tool_apply] in Ha;
      rewrite Hnot in Ha; injection Ha; intros; subst; reflexivity. }
  subst w1.
  exists (mkCompleted 0 EmptyString EmptyString),
    (mkCompleted 0 EmptyString EmptyString).
  assert (Hin : Demo.in_files patch
                  (Demo.mkTree (Demo.is_repo w) (Demo.commits w)
                     (patch :: Demo.applied w)) = true).
  { unfold Demo.in_files. cbn [Demo.applied existsb].
    now rewrite String.eqb_refl. }
  destruct k;
    cbv [revert_check revert_real invoke revert_check_argv revert_argv
           git_revert_check_argv git_revert_argv patch_revert_check_argv
           patch_revert_argv Demo.tree_host host_spawn host_open
           Demo.tree_spawn Demo.is_ String.eqb Ascii.eqb Bool.eqb andb orb
           Demo.tool_reverse_check Demo.tool_revert];
    rewrite Hin; cbn [Demo.applied Demo.remove_first Demo.is_repo
                        Demo.commits Demo.done returncode];
    rewrite String.eqb_refl; destruct w; repeat split; reflexivity.
Qed.

(** C5 (as the code has it).  Under the revert-then-apply branch
    (strategies B and C), with a tool whose revert undoes its apply:
    when a run goes through with every patch applied by its forward pass,
    that is, its cleanup lets the failed dry runs pass and reverts the
    rest of the series and its forward pass applies every patch, it ends
    with status 0 in the fully patched tree, and every run started on
    that tree, the second of two runs in a row among them, reverts the
    whole series from its last patch, applies it again, ends with status
    0 and leaves the same tree.  Nothing is said for a run that ends in
    an error (it can leave the tree half reverted, and the next run then
    ends elsewhere), for a run that finds a patch applied already, nor for
    the [git am] branch. *)
Theorem second_run_repeats_first
    {World : Type} (host : Host World) (args : Args)
    (environ : string -> option string) (k : tool)
    (fails reverted : list string) (s : St World) (wa w0 w1 : World) :
  let sub := submodule_path host args in
  let root := source_root host environ in
  selected_tool args = Some k ->
  host_chdir host root (world s) = Some (world s) ->
  host_chdir host root w1 = Some w1 ->
  truthy (git_executable args) && host_exists host ".git" (world s) = false ->
  truthy (git_executable args) && host_exists host ".git" w1 = false ->
  revert_undoes_apply host args k sub ->
  rev (patches args) = fails ++ reverted ->
  dry_run_reverts_fail host args k sub fails (world s) wa ->
  reverts_succeed host args k sub reverted wa w0 ->
  patches_apply host args k sub (patches args) w0 w1 ->
  let once := script host args environ s in
  let twice := script host args environ (snd once) in
  fst once = 0%Z /\ world (snd once) = w1 /\
  fst twice = 0%Z /\ world (snd twice) = w1 /\
  (forall s',
     world s' = w1 ->
     fst (script host args environ s') = 0%Z /\
     world (snd (script host args environ s')) = w1 /\
     commands (events (snd (script host args environ s')))
       = commands (events s')
           ++ commands (reverted_events args k sub (rev (patches args)))
           ++ commands (applied_events args k sub (patches args))).
Proof.
  intros sub root Hk Hcd Hcd1 Hb Hb1 law Hrev Hf Hr Ha once twice.
  assert (Hagain : forall s',
             world s' = w1 ->
             fst (script host args environ s') = 0%Z /\
             world (snd (script host args environ s')) = w1 /\
             commands (events (snd (script host args environ s')))
               = commands (events s')
                   ++ commands (reverted_events args k sub
                                  (rev (patches args)))
                   ++ commands (applied_events args k sub (patches args))).
  { intros s' Hs'.
    destruct (run_goes_through host args k environ [] (rev (patches args))
                s' w1 w1 w0 w1 Hk) as (ev & Hrun & Hev).
    - now rewrite Hs'.
    - exact Hb1.
    - reflexivity.
    - constructor.
    - now apply applied_series_reverts.
    - exact Ha.
    - fold sub in Hev. rewrite Hrun. cbn [fst snd world events].
      rewrite commands_app, Hev. auto. }
  destruct (run_goes_through host args k environ fails reverted s
              (world s) wa w0 w1 Hk Hcd Hb Hrev Hf Hr Ha)
    as (ev & Hrun & _).
  assert (Hw : world (snd once) = w1) by (subst once; now rewrite Hrun).
  repeat split.
  - subst once. now rewrite Hrun.
  - exact Hw.
  - apply (Hagain (snd once) Hw).
  - apply (Hagain (snd once) Hw).
  - apply (Hagain s' H).
  - apply (Hagain s' H).
  - apply (Hagain s' H).
Qed.

(** The pristine demonstration tree, [patch] given: both dry-run reverts
    fail, both patches are applied; the second run reverts and applies
    them again. *)
Lemma second_run_repeats_first_witness :
  let once := script Demo.tree_host Demo.patch_args Demo.no_environ
                (Demo.start Demo.pristine) in
  let twice := script Demo.tree_host Demo.patch_args Demo.no_environ
                 (snd once) in
  fst once = 0%Z /\ world (snd once) = Demo.fully_patched /\
  fst twice = 0%Z /\ world (snd twice) = Demo.fully_patched.
Proof.
  pose proof (second_run_repeats_first Demo.tree_host Demo.patch_args
                Demo.no_environ Patch ["b.patch"; "a.patch"] []
                (Demo.start Demo.pristine) Demo.pristine Demo.pristine
                Demo.fully_patched eq_refl eq_refl eq_refl eq_refl eq_refl
                (demo_revert_undoes_apply Demo.patch_args Patch
                   "vendor/core") eq_refl) as H.
  cbv zeta in H.
  refine ((fun H' => conj (proj1 H')
                       (conj (proj1 (proj2 H'))
                          (conj (proj1 (proj2 (proj2 H')))
                             (proj1 (proj2 (proj2 (proj2 H')))))))
            (H _ _ _)).
  - refine (drf_cons Demo.tree_host Demo.patch_args Patch "vendor/core"
              "b.patch" ["a.patch"] Demo.pristine
              (mkCompleted 1 "patch does not apply" "patch does not apply")
              Demo.pristine Demo.pristine eq_refl _ _); [discriminate|].
    refine (drf_cons Demo.tree_host Demo.patch_args Patch "vendor/core"
              "a.patch" [] Demo.pristine
              (mkCompleted 1 "patch does not apply" "patch does not apply")
              Demo.pristine Demo.pristine eq_refl _ _); [discriminate|].
    constructor.
  - constructor.
  - refine (pa_cons Demo.tree_host Demo.patch_args Patch "vendor/core"
              "a.patch" ["b.patch"] Demo.pristine
              (mkCompleted 0 EmptyString EmptyString)
              (mkCompleted 0 EmptyString EmptyString)
              (Demo.mkTree false [] ["a.patch"]) Demo.fully_patched
              eq_refl eq_refl eq_refl eq_refl _).
    refine (pa_cons Demo.tree_host Demo.patch_args Patch "vendor/core"
              "b.patch" [] (Demo.mkTree false [] ["a.patch"])
              (mkCompleted 0 EmptyString EmptyString)
              (mkCompleted 0 EmptyString EmptyString)
              Demo.fully_patched Demo.fully_patched
              eq_refl eq_refl eq_refl eq_refl _).
    constructor.
Defined.

(** C5 (as stated) fails, in three ways, on the demonstration tree.
    A run that ends in an error: with only [b.patch] applied, the series
    [a.patch], [b.patch] and [git apply], the first run reverts [b.patch],
    fails to revert [a.patch] and ends with status 1 in the pristine tree;
    a second run, started on what the first left, lets both failed dry
    runs pass, applies both patches and ends with status 0 in the fully
    patched tree.
    A run in which a patch is found applied already: with the series
    [a.patch], [a.patch] and [patch] on the pristine tree, the first run
    applies the patch, finds it applied the second time and ends with
    status 0; the second run reverts it once, fails to revert it again and
    ends with status 1 in the pristine tree.
    The [git am] branch: on a checkout, with [git], the first run lands
    the series and ends with status 0; the second run ends with status 1,
    its reset having left the commits where they were. *)
Lemma two_runs_need_not_equal_one :
  (let once := script Demo.tree_host Demo.git_args Demo.no_environ
                 (Demo.start Demo.only_b) in
   let twice := script Demo.tree_host Demo.git_args Demo.no_environ
                  (snd once) in
   fst once = 1%Z /\ world (snd once) = Demo.pristine /\
   fst twice = 0%Z /\ world (snd twice) = Demo.fully_patched /\
   world (snd twice) <> world (snd once)) /\
  (let twice_a := mkArgs EmptyString "patch" "core" ["a.patch"; "a.patch"] in
   let once := script Demo.tree_host twice_a Demo.no_environ
                 (Demo.start Demo.pristine) in
   let twice := script Demo.tree_host twice_a Demo.no_environ (snd once) in
   fst once = 0%Z /\ world (snd once) = Demo.mkTree false [] ["a.patch"] /\
   fst twice = 1%Z /\ world (snd twice) = Demo.pristine /\
   world (snd twice) <> world (snd once)) /\
  (let once := script Demo.tree_host Demo.git_args Demo.no_environ
                 (Demo.start Demo.checkout) in
   let twice := script Demo.tree_host Demo.git_args Demo.no_environ
                  (snd once) in
   fst once = 0%Z /\
   world (snd once) = Demo.mkTree true ["b.patch"; "a.patch"] [] /\
   fst twice = 1%Z).
Proof.
  cbv zeta.
  repeat split; try (vm_compute; reflexivity); vm_compute; discriminate.
Qed.

End DriverProperties.

(* ===================================================================== *)
(** * Further properties of the identity functions and of the verifier    *)
(* ===================================================================== *)

Module VerifierExtras.
Import Py PatchId SubmoduleVerification PyFacts PatchIdFacts VerifierFacts.
Local Open Scope list_scope.

Ltac each_request :=
  repeat first [apply Forall_nil | apply Forall_cons];
  cbn [Requests.expected].

Section WithHost.
Variable host : Host.
Variables git_exe repo_path : string.

(** Neither identity function raises [PatchIDError]. *)
Lemma commit_identity_not_mismatch (n : nat) (t : trace) c p r f :
  fst (get_nth_head_commit_patch_id host repo_path git_exe n t)
  <> Raise (EPatchIDError c p r f).
Proof.
  rewrite get_nth_head_commit_patch_id_unfold. cbv zeta.
  destruct (run host _ (Some repo_path) None) as [d|]; [|discriminate].
  destruct (run host _ None _) as [q|]; [|discriminate]. cbn [fst].
  destruct (returncode d =? 0)%Z; [|discriminate].
  destruct (returncode q =? 0)%Z; discriminate.
Qed.

Lemma file_identity_not_mismatch (patch : string) (t : trace) c p r f :
  fst (get_file_patch_id host patch git_exe t)
  <> Raise (EPatchIDError c p r f).
Proof.
  rewrite get_file_patch_id_unfold.
  destruct (open_text host patch) as [input|]; [|discriminate]. cbv zeta.
  destruct (run host _ None _) as [q|]; [|discriminate]. cbn [fst].
  destruct (returncode q =? 0)%Z; discriminate.
Qed.

(** What the loop has asked of the host when it stops. *)
Lemma verify_from_requests (todo : list string) :
  forall (checked : list string) (t : trace),
  exists ev,
    snd (verify_from host git_exe repo_path (length checked) todo t)
      = t ++ ev /\
    Forall (Requests.expected git_exe repo_path (checked ++ todo)) ev.
Proof.
  induction todo as [|patch rest IH]; intros checked t.
  - exists []. split; [now rewrite app_nil_r|apply Forall_nil].
  - assert (Hn : length checked < length (checked ++ patch :: rest)).
    { rewrite length_app. simpl. lia. }
    assert (Hin : In patch (checked ++ patch :: rest)).
    { apply in_or_app. right. now left. }
    cbn [verify_from]. unfold bind at 1.
    rewrite get_nth_head_commit_patch_id_unfold. cbv zeta.
    destruct (run host (git_diff_args git_exe (length checked))
                (Some repo_path) None) as [d|].
    2:{ eexists. split; [reflexivity|].
        each_request. left. eauto. }
    destruct (run host (git_patch_id_args git_exe) None
                (Some (stdout d))) as [q|].
    2:{ eexists. split; [reflexivity|].
        each_request; [left; eauto|right; repeat split; discriminate]. }
    assert (Hcommit :
              Forall (Requests.expected git_exe repo_path
                        (checked ++ patch :: rest))
                [Spawned (git_diff_args git_exe (length checked))
                   (Some repo_path) None;
                 Spawned (git_patch_id_args git_exe) None
                   (Some (stdout d));
                 Communicated (git_patch_id_args git_exe);
                 Communicated (git_diff_args git_exe (length checked))]).
    { each_request;
        [left; eauto|right; repeat split; discriminate|now right
        |left; eauto]. }
    destruct (if negb (returncode d =? 0)%Z then _ else _) as [c|e];
      [|eexists; split; [reflexivity|exact Hcommit]].
    unfold bind at 1. rewrite get_file_patch_id_unfold.
    destruct (open_text host patch) as [input|].
    2:{ eexists. split; [now rewrite <- app_assoc|].
        apply Forall_app. split; [exact Hcommit|].
        each_request. exact Hin. }
    cbv zeta.
    destruct (run host (git_patch_id_args git_exe) None (Some input))
      as [pf|].
    2:{ eexists. split; [now rewrite <- app_assoc|].
        apply Forall_app. split; [exact Hcommit|].
        each_request; [exact Hin|right; repeat split; discriminate]. }
    assert (Hfile :
              Forall (Requests.expected git_exe repo_path
                        (checked ++ patch :: rest))
                [Opened patch;
                 Spawned (git_patch_id_args git_exe) None (Some input);
                 Communicated (git_patch_id_args git_exe)]).
    { each_request;
        [exact Hin|right; repeat split; discriminate|now right]. }
    destruct (if (returncode pf =? 0)%Z then _ else _) as [f|e].
    2:{ eexists. split; [now rewrite <- app_assoc|].
        apply Forall_app. now split. }
    destruct (negb (c =? f)%string).
    + eexists. split; [unfold raise; cbn [snd]; now rewrite <- app_assoc|].
      apply Forall_app. now split.
    + destruct (IH (checked ++ [patch])
                  ((t ++ [Spawned (git_diff_args git_exe (length checked))
                            (Some repo_path) None;
                          Spawned (git_patch_id_args git_exe) None
                            (Some (stdout d));
                          Communicated (git_patch_id_args git_exe);
                          Communicated
                            (git_diff_args git_exe (length checked))])
                     ++ [Opened patch;
                         Spawned (git_patch_id_args git_exe) None
                           (Some input);
                         Communicated (git_patch_id_args git_exe)]))
        as (ev & Hev & Hall).
      rewrite length_app, Nat.add_1_r in Hev. cbn [length] in Hev.
      rewrite <- app_assoc in Hall. cbn [app] in Hall.
      eexists. split; [rewrite Hev, <- !app_assoc; reflexivity|].
      apply Forall_app. split; [exact Hcommit|].
      apply Forall_app. now split.
Qed.

(** A [PatchIDError] out of the loop comes from a position where both
    identities were computed and differ, all positions before it
    having matched. *)
Lemma verify_from_mismatch (series : list string) :
  forall (n : nat) (t : trace) c p r f,
    fst (verify_from host git_exe repo_path n series t)
      = Raise (EPatchIDError c p r f) ->
    r = repo_path /\ c <> p /\
    exists i,
      nth_error series i = Some f /\
      fst (get_nth_head_commit_patch_id host repo_path git_exe (n + i) [])
        = Ok c /\
      fst (get_file_patch_id host f git_exe []) = Ok p /\
      forall j patch,
        j < i -> nth_error series j = Some patch ->
        exists id,
          fst (get_nth_head_commit_patch_id host repo_path git_exe
                 (n + j) []) = Ok id /\
          fst (get_file_patch_id host patch git_exe []) = Ok id.
Proof.
  induction series as [|patch rest IH]; intros n t c p r f H.
  - discriminate.
  - cbn [verify_from] in H. unfold bind in H.
    pose proof (get_nth_head_commit_patch_id_outcome host repo_path
                  git_exe n t []) as Hc.
    pose proof (commit_identity_not_mismatch n t c p r f) as Hc'.
    destruct (get_nth_head_commit_patch_id host repo_path git_exe n t)
      as [[c0|e] t1]; cbn [fst] in *; [|congruence].
    pose proof (get_file_patch_id_outcome host patch git_exe t1 []) as Hf.
    pose proof (file_identity_not_mismatch patch t1 c p r f) as Hf'.
    destruct (get_file_patch_id host patch git_exe t1)
      as [[f0|e] t2]; cbn [fst] in *; [|congruence].
    destruct (String.eqb_spec c0 f0) as [->|Hne]; cbn [negb] in H.
    + destruct (IH (S n) t2 c p r f H) as (Hr & Hcp & i & Hi & Hci & Hfi & Hj).
      split; [exact Hr|]. split; [exact Hcp|].
      exists (S i). rewrite Nat.add_succ_r.
      repeat split; try assumption.
      intros [|j] q Hlt Hq; cbn [nth_error] in Hq.
      * injection Hq as <-. exists f0. now rewrite Nat.add_0_r.
      * rewrite Nat.add_succ_r. apply Hj; [lia|exact Hq].
    + unfold raise in H. cbn [fst] in H. injection H as <- <- <- <-.
      split; [reflexivity|]. split; [exact Hne|].
      exists 0. rewrite Nat.add_0_r.
      repeat split; try (symmetry; assumption).
      intros j q Hlt. lia.
Qed.

End WithHost.

(** X1.  Whatever the host answers and however the verification ends,
    [verify_checkout_patches] asks the host only for [git diff] of one of
    the first [len(series)] commits, run in the repository, for
    [git patch-id --stable] fed from a pipe or a file, and for opening a
    patch of the series: it opens no other file and starts no other
    program. *)
Theorem verifier_asks_only_what_the_series_needs
    (host : Host) (git_exe repo_path : string) (series : list string)
    (t : trace) :
  exists ev,
    snd (verify_checkout_patches host git_exe repo_path series t) = t ++ ev /\
    Forall (Requests.expected git_exe repo_path series) ev.
Proof.
  exact (verify_from_requests host git_exe repo_path series [] t).
Qed.

(** X2.  A [PatchIDError] is never a false alarm: when
    [verify_checkout_patches] raises one, it carries the repository path
    it was given and a patch of the series, the two identities in it were
    really computed, for the commit at the position of that patch and for
    that patch file, they differ, and every earlier position matched. *)
Theorem mismatch_report_is_sound
    (host : Host) (git_exe repo_path : string) (series : list string)
    (t : trace) (c p r f : string) :
  fst (verify_checkout_patches host git_exe repo_path series t)
    = Raise (EPatchIDError c p r f) ->
  r = repo_path /\ c <> p /\
  exists i,
    nth_error series i = Some f /\
    fst (get_nth_head_commit_patch_id host repo_path git_exe i []) = Ok c /\
    fst (get_file_patch_id host f git_exe []) = Ok p /\
    forall j patch,
      j < i -> nth_error series j = Some patch ->
      exists id,
        fst (get_nth_head_commit_patch_id host repo_path git_exe j [])
          = Ok id /\
        fst (get_file_patch_id host patch git_exe []) = Ok id.
Proof.
  intros H.
  exact (verify_from_mismatch host git_exe repo_path series 0 t c p r f H).
Qed.

Lemma mismatch_report_is_sound_witness :
  "vendor/core" = "vendor/core" /\
  "+beta00000000000000000000000000000000000"
    <> "+alpha0000000000000000000000000000000000" /\
  exists i,
    nth_error ["a.patch"; "b.patch"] i = Some "a.patch" /\
    fst (get_nth_head_commit_patch_id Demo.ab_host "vendor/core" "git" i [])
      = Ok "+beta00000000000000000000000000000000000" /\
    fst (get_file_patch_id Demo.ab_host "a.patch" "git" [])
      = Ok "+alpha0000000000000000000000000000000000" /\
    forall j patch,
      j < i -> nth_error ["a.patch"; "b.patch"] j = Some patch ->
      exists id,
        fst (get_nth_head_commit_patch_id Demo.ab_host "vendor/core" "git"
               j []) = Ok id /\
        fst (get_file_patch_id Demo.ab_host patch "git" []) = Ok id.
Proof.
  apply (mismatch_report_is_sound Demo.ab_host "git" "vendor/core"
           ["a.patch"; "b.patch"] []).
  vm_compute. reflexivity.
Defined.

(** X3.  Verifying a series made of two parts goes through exactly when
    verifying the first part goes through and the second part matches the
    commits below those of the first; so a series that verifies has all
    its prefixes verify. *)
Theorem verification_of_a_concatenation
    (host : Host) (git_exe repo_path : string) (l1 l2 : list string)
    (t : trace) :
  fst (verify_checkout_patches host git_exe repo_path (l1 ++ l2) t) = Ok tt
  <->
  fst (verify_checkout_patches host git_exe repo_path l1 t) = Ok tt /\
  fst (verify_from host git_exe repo_path (length l1) l2 t) = Ok tt.
Proof.
  unfold verify_checkout_patches. rewrite verify_from_app. cbn [Nat.add].
  destruct (verify_from host git_exe repo_path 0 l1 t) as [[[]|e] t1] eqn:E;
    cbn [fst].
  - rewrite (verify_from_outcome host git_exe repo_path l2 (length l1) t1 t).
    tauto.
  - split; [discriminate|intros [H _]; discriminate].
Qed.

(** X4.  [get_file_patch_id] fails before it starts anything when the
    patch file cannot be opened; when [git patch-id] exits non-zero it
    raises a [CalledProcessError] with the exit code, the command and both
    captured streams; it returns an identity exactly when the file was
    opened and the tool was started and exited with zero. *)
Theorem file_identity_failures
    (host : Host) (patch_path git_exe : string) (t : trace) :
  (open_text host patch_path = None ->
   get_file_patch_id host patch_path git_exe t
     = (Raise (EOSError patch_path), t ++ [Opened patch_path])) /\
  (forall input p,
     open_text host patch_path = Some input ->
     run host (git_patch_id_args git_exe) None (Some input) = Some p ->
     returncode p <> 0%Z ->
     get_file_patch_id host patch_path git_exe t
       = (Raise (ECalledProcessError
                   (mkCalledProcessError (returncode p)
                      (git_patch_id_args git_exe)
                      (Some (stdout p)) (Some (stderr p)))),
          t ++ [Opened patch_path;
                Spawned (git_patch_id_args git_exe) None (Some input);
                Communicated (git_patch_id_args git_exe)])) /\
  ((exists id, fst (get_file_patch_id host patch_path git_exe t) = Ok id)
   <->
   (exists input p,
      open_text host patch_path = Some input /\
      run host (git_patch_id_args git_exe) None (Some input) = Some p /\
      returncode p = 0%Z)).
Proof.
  rewrite get_file_patch_id_unfold. cbv zeta. repeat split.
  - now intros ->.
  - intros input p -> -> Hp.
    now destruct (Z.eqb_spec (returncode p) 0).
  - intros [id H].
    destruct (open_text host patch_path) as [input|]; [|discriminate].
    destruct (run host _ None (Some input)) as [p|] eqn:Ep; [|discriminate].
    cbn [fst] in H.
    destruct (Z.eqb_spec (returncode p) 0); [|discriminate].
    exists input, p. auto.
  - intros (input & p & -> & -> & ->). eexists. reflexivity.
Qed.

(** X5.  A series whose patch files hold exactly what [git diff] prints
    for the commits at their positions verifies, provided [git diff] and
    [git patch-id] exit with zero: the identity of such a file and of its
    commit are computed from the same bytes. *)
Theorem patches_made_from_the_commits_verify
    (host : Host) (git_exe repo_path : string) (series : list string)
    (t : trace) :
  (forall i patch,
     nth_error series i = Some patch ->
     exists d q,
       run host (git_diff_args git_exe i) (Some repo_path) None = Some d /\
       returncode d = 0%Z /\
       open_text host patch = Some (stdout d) /\
       run host (git_patch_id_args git_exe) None (Some (stdout d)) = Some q /\
       returncode q = 0%Z) ->
  fst (verify_checkout_patches host git_exe repo_path series t) = Ok tt.
Proof.
  intros H. unfold verify_checkout_patches. apply verify_from_ok_iff.
  intros i patch Hi. destruct (H i patch Hi) as (d & q & Hd & Ed & Ho & Hq & Eq).
  exists (slice_to 40 (stdout q)). cbn [Nat.add].
  rewrite get_nth_head_commit_patch_id_unfold, get_file_patch_id_unfold.
  cbv zeta. rewrite Hd, Hq, Ho, Hq, Ed, Eq. split; reflexivity.
Qed.

Lemma patches_made_from_the_commits_verify_witness :
  fst (verify_checkout_patches Demo.ab_host "git" "vendor/core"
         ["b.patch"; "a.patch"] []) = Ok tt.
Proof.
  apply (patches_made_from_the_commits_verify Demo.ab_host "git"
           "vendor/core" ["b.patch"; "a.patch"] []).
  intros [|[|i]] patch H; cbn [nth_error] in H;
    [injection H as <-|injection H as <-|destruct i; discriminate];
    eexists; eexists; repeat split; reflexivity.
Defined.

End VerifierExtras.

(* ===================================================================== *)
(** * Properties of the merge of the patch lists                          *)
(* ===================================================================== *)

Module PatchListsExtras.
Import Py PatchId SubmoduleVerification PatchLists VerifierFacts.
Local Open Scope list_scope.

Lemma dict_get_set_same (d : patch_dict) (key : string) (v : list string) :
  dict_get (dict_set d key v) key = Some v.
Proof.
  induction d as [|[k x] d IH]; simpl.
  - now rewrite String.eqb_refl.
  - destruct (String.eqb_spec k key) as [->|Hne]; simpl.
    + now rewrite String.eqb_refl.
    + destruct (String.eqb_spec k key); [contradiction|exact IH].
Qed.

Lemma dict_get_set_other (d : patch_dict) (key other : string)
    (v : list string) :
  key <> other -> dict_get (dict_set d key v) other = dict_get d other.
Proof.
  intros Hne. induction d as [|[k x] d IH]; simpl.
  - destruct (String.eqb_spec key other); [contradiction|reflexivity].
  - destruct (String.eqb_spec k key) as [->|Hk]; simpl.
    + destruct (String.eqb_spec key other); [contradiction|reflexivity].
    + destruct (String.eqb_spec k other); [reflexivity|exact IH].
Qed.

Lemma keys_set (d : patch_dict) (key : string) (v : list string) :
  keys (dict_set d key v) =
  if missing d key then keys d ++ [key] else keys d.
Proof.
  unfold missing. induction d as [|[k x] d IH]; simpl; [reflexivity|].
  destruct (String.eqb_spec k key) as [->|Hk]; simpl; [reflexivity|].
  rewrite IH. now destruct (dict_get d key).
Qed.

Lemma dict_get_none (d : patch_dict) (key : string) :
  ~ In key (keys d) -> dict_get d key = None.
Proof.
  induction d as [|[k x] d IH]; simpl; [reflexivity|]. intros H.
  destruct (String.eqb_spec k key) as [->|Hk]; [tauto|]. apply IH. tauto.
Qed.

Lemma dict_get_in (d : patch_dict) (key : string) (v : list string) :
  dict_get d key = Some v -> In (key, v) d.
Proof.
  induction d as [|[k x] d IH]; simpl; [discriminate|].
  destruct (String.eqb_spec k key) as [->|Hk].
  - intros [= ->]. now left.
  - intros H. right. now apply IH.
Qed.

Lemma in_dict_get (d : patch_dict) (key : string) (v : list string) :
  NoDup (keys d) -> In (key, v) d -> dict_get d key = Some v.
Proof.
  induction d as [|[k x] d IH]; simpl; [tauto|].
  intros Hnd [Heq|Hin]; inversion Hnd as [|? ? Hk Hd]; subst.
  - injection Heq as -> ->. now rewrite String.eqb_refl.
  - destruct (String.eqb_spec k key) as [->|Hne]; [|now apply IH].
    exfalso. apply Hk. change key with (fst (key, v)). now apply in_map.
Qed.

(** One step of the merge, seen through [dict_get] and [keys]. *)
Lemma merge_step_get (d : patch_dict) (name : string) (pl : list string)
    (key : string) :
  dict_get (merge_step d (name, pl)) key =
  if (name =? key)%string then chained (dict_get d name) (Some pl)
  else dict_get d key.
Proof.
  unfold merge_step.
  destruct (String.eqb_spec name key) as [<-|Hne].
  - destruct (dict_get d name); now rewrite dict_get_set_same.
  - destruct (dict_get d name); now rewrite dict_get_set_other.
Qed.

Lemma merge_step_keys (d : patch_dict) (name : string) (pl : list string) :
  keys (merge_step d (name, pl)) =
  if missing d name then keys d ++ [name] else keys d.
Proof.
  unfold merge_step, missing.
  destruct (dict_get d name) eqn:E; rewrite keys_set; unfold missing;
    now rewrite E.
Qed.

Lemma merge_get (n o : patch_dict) (name : string) :
  NoDup (keys o) ->
  dict_get (merge_patch_lists n o) name
  = chained (dict_get n name) (dict_get o name).
Proof.
  unfold merge_patch_lists. revert n.
  induction o as [|[k pl] rest IH]; intros n Hnd.
  - cbn [fold_left dict_get]. now destruct (dict_get n name).
  - inversion Hnd as [|? ? Hk Hrest]; subst.
    cbn [fold_left]. rewrite (IH _ Hrest), merge_step_get. cbn [dict_get].
    destruct (String.eqb_spec k name) as [->|Hne].
    + rewrite (dict_get_none rest name Hk).
      now destruct (dict_get n name).
    + reflexivity.
Qed.

Lemma missing_iff (d : patch_dict) (key : string) :
  missing d key = true <-> ~ In key (keys d).
Proof.
  unfold missing. split.
  - destruct (dict_get d key) eqn:E; [discriminate|]. intros _ Hin.
    unfold keys in Hin. apply in_map_iff in Hin.
    destruct Hin as ([k v] & Hk & Hin). simpl in Hk. subst k.
    induction d as [|[k x] d IH]; [destruct Hin|]. simpl in E, Hin.
    destruct (String.eqb_spec k key) as [->|Hne]; [discriminate|].
    destruct Hin as [Heq|Hin]; [congruence|]. now apply IH.
  - intros H. now rewrite (dict_get_none d key H).
Qed.

(** X6.  After the merge a submodule has the patches of the first list
    followed by the patches of the second list; a submodule of only one
    of the lists keeps the patches it has there, and a submodule of
    neither list is not in the result. *)
Theorem merge_chains_the_patches
    (nmeum_patch_list orig_patch_list : patch_dict) (submodule_name : string) :
  NoDup (keys orig_patch_list) ->
  let merged := merge_patch_lists nmeum_patch_list orig_patch_list in
  dict_get merged submodule_name
    = chained (dict_get nmeum_patch_list submodule_name)
        (dict_get orig_patch_list submodule_name) /\
  (forall a b,
     dict_get nmeum_patch_list submodule_name = Some a ->
     dict_get orig_patch_list submodule_name = Some b ->
     dict_get merged submodule_name = Some (a ++ b)) /\
  (~ In submodule_name (keys orig_patch_list) ->
   dict_get merged submodule_name = dict_get nmeum_patch_list submodule_name)
  /\
  (~ In submodule_name (keys nmeum_patch_list) ->
   dict_get merged submodule_name = dict_get orig_patch_list submodule_name).
Proof.
  intros Ho merged. subst merged.
  pose proof (merge_get nmeum_patch_list orig_patch_list submodule_name Ho)
    as H.
  split; [exact H|]. split; [|split].
  - intros a b Ha Hb. now rewrite H, Ha, Hb.
  - intros Hno. rewrite H, (dict_get_none _ _ Hno).
    now destruct (dict_get nmeum_patch_list submodule_name).
  - intros Hno. rewrite H, (dict_get_none _ _ Hno).
    now destruct (dict_get orig_patch_list submodule_name).
Qed.

Lemma merge_chains_the_patches_witness :
  dict_get
    (merge_patch_lists [("core", ["a.patch"]); ("adb", ["c.patch"])]
       [("extras", ["e.patch"]); ("core", ["b.patch"])]) "core"
  = Some ["a.patch"; "b.patch"].
Proof.
  refine (proj1 (merge_chains_the_patches
                   [("core", ["a.patch"]); ("adb", ["c.patch"])]
                   [("extras", ["e.patch"]); ("core", ["b.patch"])] "core"
                   _)).
  repeat constructor; simpl; intuition discriminate.
Defined.

Lemma merge_keys (n o : patch_dict) :
  NoDup (keys n) ->
  NoDup (keys o) ->
  keys (merge_patch_lists n o) = keys n ++ filter (missing n) (keys o) /\
  NoDup (keys (merge_patch_lists n o)).
Proof.
  unfold merge_patch_lists. revert n.
  induction o as [|[k pl] rest IH]; intros n Hn Ho.
  - cbn [fold_left keys map filter]. rewrite app_nil_r. now split.
  - inversion Ho as [|? ? Hk Hrest]; subst. cbn [fold_left].
    assert (Hn' : NoDup (keys (merge_step n (k, pl)))).
    { rewrite merge_step_keys. unfold missing.
      destruct (dict_get n k) eqn:E; [exact Hn|].
      apply NoDup_app; [exact Hn|repeat constructor; simpl; tauto|].
      intros x Hx [<-|[]].
      unfold keys in Hx. apply in_map_iff in Hx.
      destruct Hx as ([k' v] & Hk' & Hin). simpl in Hk'. subst k'.
      now rewrite (in_dict_get n k v Hn Hin) in E. }
    destruct (IH _ Hn' Hrest) as [Hkeys Hnd]. split; [|exact Hnd].
    rewrite Hkeys, merge_step_keys.
    assert (Hfilter : filter (missing (merge_step n (k, pl))) (keys rest)
                      = filter (missing n) (keys rest)).
    { apply filter_ext_in. intros x Hx. unfold missing.
      rewrite merge_step_get.
      destruct (String.eqb_spec k x) as [->|Hne]; [contradiction|reflexivity]. }
    rewrite Hfilter. change (keys ((k, pl) :: rest)) with (k :: keys rest).
    cbn [filter]. destruct (missing n k); [|reflexivity].
    now rewrite <- app_assoc.
Qed.

Lemma merge_nodup (n o : patch_dict) :
  NoDup (keys n) -> NoDup (keys o) -> NoDup (keys (merge_patch_lists n o)).
Proof. intros Hn Ho. now apply merge_keys. Qed.

(** X7.  The merge keeps the submodules of the first list in their order
    and puts the submodules that only the second list has after them, in
    the order of the second list; the result has every submodule of
    either list, each once, and no other. *)
Theorem merge_keeps_the_order
    (nmeum_patch_list orig_patch_list : patch_dict) :
  NoDup (keys nmeum_patch_list) ->
  NoDup (keys orig_patch_list) ->
  let merged := merge_patch_lists nmeum_patch_list orig_patch_list in
  keys merged
    = keys nmeum_patch_list
        ++ filter (missing nmeum_patch_list) (keys orig_patch_list) /\
  NoDup (keys merged) /\
  (forall name,
     In name (keys merged) <->
     In name (keys nmeum_patch_list) \/ In name (keys orig_patch_list)).
Proof.
  intros Hn Ho merged. subst merged.
  destruct (merge_keys nmeum_patch_list orig_patch_list Hn Ho) as [Hk Hnd].
  split; [exact Hk|]. split; [exact Hnd|].
  intros name. rewrite Hk, in_app_iff, filter_In, missing_iff.
  split; [tauto|].
  intros [H|H]; [now left|].
  destruct (in_dec string_dec name (keys nmeum_patch_list)); tauto.
Qed.

Lemma merge_keeps_the_order_witness :
  keys (merge_patch_lists [("core", ["a.patch"]); ("adb", ["c.patch"])]
          [("extras", ["e.patch"]); ("core", ["b.patch"])])
  = ["core"; "adb"; "extras"].
Proof.
  refine (proj1 (merge_keeps_the_order
                   [("core", ["a.patch"]); ("adb", ["c.patch"])]
                   [("extras", ["e.patch"]); ("core", ["b.patch"])] _ _));
    repeat constructor; simpl; intuition discriminate.
Defined.

(** The verification of a merged list goes through exactly when every
    submodule of it has, newest commit first, the identities of its
    patches read from the last to the first. *)
Lemma verify_merged_ok_iff (host : Host) (git_exe source_dir : string)
    (merged : patch_dict) :
  forall t,
    fst (Document.verify_merged_patch_list host git_exe source_dir merged t)
      = Ok tt
    <->
    (forall name pl,
       In (name, pl) merged ->
       forall i patch,
         i < length pl ->
         nth_error pl (length pl - 1 - i) = Some patch ->
         exists id,
           fst (get_nth_head_commit_patch_id host
                  (Document.path_div (Document.path_div source_dir "vendor")
                     name) git_exe i []) = Ok id /\
           fst (get_file_patch_id host patch git_exe []) = Ok id).
Proof.
  induction merged as [|[name pl] rest IH]; intros t; simpl.
  - split; [intros _ ? ? []|reflexivity].
  - unfold bind at 1.
    pose proof (verify_from_ok_iff host git_exe
                  (Document.path_div (Document.path_div source_dir "vendor")
                     name) (rev pl) 0 t) as Hd.
    cbn [Nat.add] in Hd.
    rewrite IdentityProperties.reversed_positions in Hd.
    fold (verify_checkout_patches host git_exe
            (Document.path_div (Document.path_div source_dir "vendor") name)
            (rev pl) t) in Hd.
    destruct (verify_checkout_patches host git_exe _ (rev pl) t)
      as [[[]|e] t1]; cbn [fst] in Hd.
    + rewrite IH. split.
      * intros H n l [Heq|Hin]; [|now apply H].
        injection Heq as <- <-. now apply Hd.
      * intros H n l Hin. apply H. now right.
    + split; [discriminate|].
      intros H. apply Hd. apply H. now left.
Qed.

(** X8.  [get_base_document] verifies the merged lists, so for a
    submodule with patches in both files it expects the added patches on
    top: the newest commits are the added patches, the last of them at
    [HEAD], and the commits below them are the patches of the first file,
    again the last of them first.  In general the verification goes
    through exactly when every submodule has the commits of its chained
    patches, read from the last patch to the first. *)
Theorem added_patches_are_expected_on_top
    (host : Host) (git_exe source_dir : string)
    (nmeum_patch_list orig_patch_list : patch_dict) (t : trace) :
  NoDup (keys nmeum_patch_list) ->
  NoDup (keys orig_patch_list) ->
  let repo name :=
    Document.path_div (Document.path_div source_dir "vendor") name in
  let matches name i patch :=
    exists id,
      fst (get_nth_head_commit_patch_id host (repo name) git_exe i []) = Ok id
      /\ fst (get_file_patch_id host patch git_exe []) = Ok id in
  let verified :=
    fst (verify_patch_lists host git_exe source_dir nmeum_patch_list
           orig_patch_list t) = Ok tt in
  (verified <->
   (forall name pl,
      chained (dict_get nmeum_patch_list name) (dict_get orig_patch_list name)
        = Some pl ->
      forall i patch,
        i < length pl -> nth_error pl (length pl - 1 - i) = Some patch ->
        matches name i patch)) /\
  (verified ->
   forall name a b,
     dict_get nmeum_patch_list name = Some a ->
     dict_get orig_patch_list name = Some b ->
     (forall i patch,
        i < length b -> nth_error b (length b - 1 - i) = Some patch ->
        matches name i patch) /\
     (forall i patch,
        i < length a -> nth_error a (length a - 1 - i) = Some patch ->
        matches name (length b + i) patch)).
Proof.
  intros Hn Ho repo matches verified.
  assert (Hiff : verified <->
            (forall name pl,
               chained (dict_get nmeum_patch_list name)
                 (dict_get orig_patch_list name) = Some pl ->
               forall i patch,
                 i < length pl ->
                 nth_error pl (length pl - 1 - i) = Some patch ->
                 matches name i patch)).
  { subst verified. unfold verify_patch_lists.
    rewrite verify_merged_ok_iff.
    pose proof (merge_nodup nmeum_patch_list orig_patch_list Hn Ho) as Hnd.
    split; intros H name pl Hpl.
    - apply H. apply dict_get_in.
      now rewrite merge_get by exact Ho.
    - apply H. rewrite <- (merge_get _ _ _ Ho).
      now apply in_dict_get. }
  split; [exact Hiff|].
  intros Hv name a b Ha Hb.
  pose proof (proj1 Hiff Hv name (a ++ b)) as H.
  rewrite Ha, Hb in H. specialize (H eq_refl).
  split; intros i patch Hi Hp.
  - apply H; rewrite length_app; [lia|].
    rewrite nth_error_app2 by lia. rewrite <- Hp. f_equal. lia.
  - apply H; rewrite length_app; [lia|].
    rewrite nth_error_app1 by lia. rewrite <- Hp. f_equal. lia.
Qed.

(** The demonstration repository, [a.patch] from the first file and
    [b.patch] from the second. *)
Lemma added_patches_are_expected_on_top_witness :
  fst (verify_patch_lists Demo.ab_host "git" "."
         [("core", ["a.patch"])] [("core", ["b.patch"])] []) = Ok tt
  <->
  (forall name pl,
     chained (dict_get [("core", ["a.patch"])] name)
       (dict_get [("core", ["b.patch"])] name) = Some pl ->
     forall i patch,
       i < length pl -> nth_error pl (length pl - 1 - i) = Some patch ->
       exists id,
         fst (get_nth_head_commit_patch_id Demo.ab_host
                (Document.path_div (Document.path_div "." "vendor") name)
                "git" i []) = Ok id /\
         fst (get_file_patch_id Demo.ab_host patch "git" []) = Ok id).
Proof.
  refine (proj1 (added_patches_are_expected_on_top Demo.ab_host "git" "."
                   [("core", ["a.patch"])] [("core", ["b.patch"])] [] _ _));
    repeat constructor; simpl; intuition discriminate.
Defined.

End PatchListsExtras.

(* ===================================================================== *)
(** * Facts: what the driver starts and how it ends, for any host         *)
(* ===================================================================== *)

Module DisciplineFacts.
Import Py MesonPatchVendor Protocol Discipline DriverFacts.
Local Open Scope list_scope.

Section Rules.
Context {World : Type}.

Local Abbreviation Cmd := (Cmd (World := World)).

Lemma follows_ret {A} R (Po : outcome A -> Prop) (a : A) :
  Po (Ok a) -> follows (World := World) R Po (ret a).
Proof.
  intros H s. exists []. cbn. rewrite app_nil_r. repeat split; auto.
  intros ? ? [].
Qed.

Lemma follows_raise {A} R (Po : outcome A -> Prop) (e : exn) :
  Po (Raise e) -> follows (World := World) R Po (raise e).
Proof.
  intros H s. exists []. cbn. rewrite app_nil_r. repeat split; auto.
  intros ? ? [].
Qed.

Lemma follows_print R (Po : outcome unit -> Prop) (l : list string) :
  Po (Ok tt) -> follows (World := World) R Po (print l).
Proof.
  intros H s. eexists. cbn. split; [reflexivity|split; [|exact H]].
  intros ? ? [Heq|[]]. discriminate.
Qed.

Lemma follows_printerr R (Po : outcome unit -> Prop) (l : list string)
    (end_ : string) :
  Po (Ok tt) -> follows (World := World) R Po (_printerr l end_).
Proof.
  intros H s. eexists. cbn. split; [reflexivity|split; [|exact H]].
  intros ? ? [Heq|[]]. discriminate.
Qed.

Lemma follows_bind {A B} R (Pm : outcome A -> Prop)
    (Po : outcome B -> Prop) (m : Cmd A) (k : A -> Cmd B) :
  follows R Pm m ->
  (forall a, Pm (Ok a) -> follows R Po (k a)) ->
  (forall e, Pm (Raise e) -> Po (Raise e)) ->
  follows R Po (bind m k).
Proof.
  intros Hm Hk He s. unfold bind.
  destruct (Hm s) as (ev1 & E1 & R1 & P1).
  destruct (m s) as [[a|e] s1]; cbn [fst snd] in *.
  - destruct (Hk a P1 s1) as (ev2 & E2 & R2 & P2).
    exists (ev1 ++ ev2). rewrite E2, E1, app_assoc.
    repeat split; [|exact P2].
    intros argv stdin Hin. apply in_app_or in Hin. destruct Hin; auto.
  - exists ev1. repeat split; auto.
Qed.

Lemma follows_try_except_else {A B} R (Pm : outcome A -> Prop)
    (Po : outcome B -> Prop) (body : Cmd A)
    (handler : CalledProcessError -> Cmd B) (orelse : A -> Cmd B) :
  follows R Pm body ->
  (forall exc, Pm (Raise (ECalledProcessError exc)) ->
               follows R Po (handler exc)) ->
  (forall a, Pm (Ok a) -> follows R Po (orelse a)) ->
  (forall e, (forall exc, e <> ECalledProcessError exc) ->
             Pm (Raise e) -> Po (Raise e)) ->
  follows R Po (try_except_else body handler orelse).
Proof.
  intros Hm Hh Hk He s. unfold try_except_else.
  destruct (Hm s) as (ev1 & E1 & R1 & P1).
  assert (Hgo : forall (m' : Cmd B) s1,
             events s1 = events s ++ ev1 -> follows R Po m' ->
             exists ev,
               events (snd (m' s1)) = events s ++ ev /\
               (forall argv stdin, In (Ran argv stdin) ev -> R argv stdin) /\
               Po (fst (m' s1))).
  { intros m' s1 Es1 Hm'. destruct (Hm' s1) as (ev2 & E2 & R2 & P2).
    exists (ev1 ++ ev2). rewrite E2, Es1, app_assoc.
    repeat split; [|exact P2].
    intros argv stdin Hin. apply in_app_or in Hin. destruct Hin; auto. }
  destruct (body s) as [[a|e] s1]; cbn [fst snd] in *.
  - apply Hgo; auto.
  - destruct e; try (exists ev1; repeat split; auto;
                     apply He; [intros exc; discriminate|exact P1]).
    apply Hgo; auto.
Qed.

Lemma follows_try_except {A} R (Pm Po : outcome A -> Prop) (body : Cmd A)
    (handler : CalledProcessError -> Cmd A) :
  follows R Pm body ->
  (forall exc, Pm (Raise (ECalledProcessError exc)) ->
               follows R Po (handler exc)) ->
  (forall a, Pm (Ok a) -> Po (Ok a)) ->
  (forall e, (forall exc, e <> ECalledProcessError exc) ->
             Pm (Raise e) -> Po (Raise e)) ->
  follows R Po (try_except body handler).
Proof.
  intros Hm Hh Hk He. unfold try_except.
  eapply follows_try_except_else; eauto.
  intros a Ha. apply follows_ret. auto.
Qed.

Lemma follows_weaken {A} (R R' : list string -> option string -> Prop)
    (Po Po' : outcome A -> Prop) (m : Cmd A) :
  follows R Po m ->
  (forall argv stdin, R argv stdin -> R' argv stdin) ->
  (forall o, Po o -> Po' o) ->
  follows R' Po' m.
Proof.
  intros Hm HR HP s. destruct (Hm s) as (ev & E & HRan & P).
  exists ev. repeat split; auto.
Qed.

Lemma in_ran_commands (l : list event) argv stdin :
  In (Ran argv stdin) l -> In argv (commands l).
Proof.
  induction l as [|e l IH]; [intros []|].
  intros [->|Hin]; [now left|].
  destruct e; simpl; auto.
Qed.

(** A command that first logs things that are not programs. *)
Lemma follows_after {A} R (Po : outcome A -> Prop) (m K : Cmd A)
    (pre : list event) :
  commands pre = [] ->
  (forall s, m s = K (mkSt (world s) (events s ++ pre))) ->
  follows R Po K ->
  follows R Po m.
Proof.
  intros Hpre Hm HK s. rewrite Hm.
  destruct (HK (mkSt (world s) (events s ++ pre))) as (ev & E & HRan & P).
  exists (pre ++ ev). cbn [events] in E. rewrite E, app_assoc.
  repeat split; [|exact P].
  intros argv stdin Hin. apply in_app_or in Hin. destruct Hin as [Hin|Hin].
  - apply in_ran_commands in Hin. rewrite Hpre in Hin. destruct Hin.
  - auto.
Qed.

End Rules.

Section WithHost.
Context {World : Type}.
Variable host : Host World.
Variable args : Args.

Local Abbreviation st k := (strategy_of host args k).

Lemma follows_run_command R (argv : list string) :
  R argv None ->
  follows R (tool_outcome GitApply argv) (_run_command host argv).
Proof.
  intros HR s. rewrite run_command_spec. cbv zeta.
  exists (tool_events GitApply EmptyString argv).
  destruct (host_spawn host argv None false (world s)) as [[c w]|];
    [destruct (returncode c =? 0)%Z|]; cbn [fst snd events];
    (split; [reflexivity|split; [|cbn; eauto]]);
    intros a i [Heq|[Heq|[]]]; try discriminate; now injection Heq as <- <-.
Qed.

Lemma follows_run_patch R (patch : string) (argv : list string) :
  R argv (Some patch) ->
  follows R (tool_outcome Patch argv) (_run_patch host patch argv).
Proof.
  intros HR s. rewrite run_patch_spec. cbv zeta.
  destruct (host_open host patch (world s)) as [input|].
  - exists (tool_events Patch patch argv).
    destruct (host_spawn host argv (Some input) true (world s))
      as [[c w]|]; [destruct (returncode c =? 0)%Z|]; cbn [fst snd events];
      (split; [reflexivity|split; [|cbn; eauto]]);
      intros a i [Heq|[Heq|[]]]; try discriminate;
      now injection Heq as <- <-.
  - eexists. cbn [fst snd events]. split; [reflexivity|split; [|exact I]].
    intros a i [Heq|[]]. discriminate.
Qed.

Lemma follows_run_tool R (k : tool) (patch : string) (argv : list string) :
  R argv (stdin_of k patch) ->
  follows R (tool_outcome k argv) (run_tool host k patch argv).
Proof.
  destruct k; cbn [stdin_of run_tool];
    [apply follows_run_command|apply follows_run_patch].
Qed.

Lemma follows_fail_func R (Po : outcome unit -> Prop) (k : tool)
    (reason : string) (argv : list string) (c : Completed) :
  Po (Raise (ESystemExit (ExitCode 1))) ->
  follows R Po (fail_func (st k) reason (tool_error k argv c)).
Proof.
  intros HP s. rewrite fail_func_spec. eexists. cbn [fst snd events].
  split; [reflexivity|split; [|exact HP]].
  intros a i [Heq|[]]. discriminate.
Qed.

(** [revert_func]: its two programs, and its ends. *)
Lemma follows_revert_func R (k : tool) (sub patch : string) :
  R (revert_check_argv args k sub patch) (stdin_of k patch) ->
  R (revert_argv args k sub patch) (stdin_of k patch) ->
  follows R (revert_outcome k (revert_check_argv args k sub patch))
    (revert_func (st k) sub patch).
Proof.
  intros Hc Hr. rewrite revert_func_eq.
  eapply follows_bind.
  - apply (follows_run_tool R k patch _ Hc).
  - intros [] _.
    eapply follows_try_except.
    + apply (follows_run_tool R k patch _ Hr).
    + intros exc [c ->]. apply follows_fail_func. reflexivity.
    + intros a _. exact I.
    + intros e Hne He. destruct e; try contradiction; try exact I.
      exfalso. eapply Hne. reflexivity.
  - intros e He. destruct e; try contradiction; try exact He; exact I.
Qed.

(** [apply_func]: its three programs, and its ends. *)
Lemma follows_apply_func R (k : tool) (sub patch : string) :
  R (apply_check_argv args k sub patch) (stdin_of k patch) ->
  R (apply_reverse_check_argv args k sub patch) (stdin_of k patch) ->
  R (apply_argv args k sub patch) (stdin_of k patch) ->
  follows R clean_end (apply_func (st k) sub patch).
Proof.
  intros Hc Hrc Ha. rewrite apply_func_eq.
  eapply follows_try_except_else.
  - apply (follows_run_tool R k patch _ Hc).
  - intros exc [c ->].
    eapply follows_try_except_else.
    + apply (follows_run_tool R k patch _ Hrc).
    + intros exc' _. apply follows_fail_func. reflexivity.
    + intros a _. apply follows_print. exact I.
    + intros e Hne He. destruct e; try contradiction; try exact I.
      exfalso. eapply Hne. reflexivity.
  - intros [] _.
    eapply follows_try_except.
    + apply (follows_run_tool R k patch _ Ha).
    + intros exc [c ->]. apply follows_fail_func. reflexivity.
    + intros a _. exact I.
    + intros e Hne He. destruct e; try contradiction; try exact I.
      exfalso. eapply Hne. reflexivity.
  - intros e Hne He. destruct e; try contradiction; try exact I.
    exfalso. eapply Hne. reflexivity.
Qed.

(** The cleanup loop starts only the dry-run reverts and the reverts of
    the patches it is given. *)
Lemma follows_cleanup_loop (k : tool) (sub : string) (todo : list string) :
  forall flag,
    follows (cleanup_command args k sub todo) clean_end
      (cleanup_loop (Some (st k)) sub flag todo).
Proof.
  induction todo as [|patch rest IH]; intros flag.
  - apply follows_ret. exact I.
  - cbn [cleanup_loop].
    assert (Hc : cleanup_command args k sub (patch :: rest)
                   (revert_check_argv args k sub patch) (stdin_of k patch)).
    { exists patch. repeat split; [now left|now left]. }
    assert (Hr : cleanup_command args k sub (patch :: rest)
                   (revert_argv args k sub patch) (stdin_of k patch)).
    { exists patch. repeat split; [now left|now right]. }
    eapply follows_bind with (Pm := clean_end).
    + eapply follows_try_except_else.
      * change (bind (bound "revert_func" (Some (st k)))
                  (fun st0 => revert_func st0 sub patch))
          with (fun s : St World => revert_func (st k) sub patch s).
        apply (follows_revert_func _ k sub patch Hc Hr).
      * intros exc [c ->]. eapply follows_bind with (Pm := clean_end).
        -- destruct flag.
           ++ change (bind (bound "fail_func" (Some (st k)))
                        (fun st0 =>
                           fail_func st0
                             (revert_failure_reason sub patch)
                             (tool_error k
                                (revert_check_argv args k sub patch) c)))
                with (fun s : St World =>
                        fail_func (st k)
                          (revert_failure_reason sub patch)
                          (tool_error k
                             (revert_check_argv args k sub patch) c) s).
              apply follows_fail_func. reflexivity.
           ++ apply follows_print. exact I.
        -- intros [] _. apply follows_ret. exact I.
        -- intros e He. exact He.
      * intros [] _. apply follows_ret. exact I.
      * intros e Hne He. destruct e; try contradiction; try exact He;
          try exact I.
        exfalso. eapply Hne. reflexivity.
    + intros expects _.
      eapply follows_weaken; [apply IH| |auto].
      intros argv stdin (p & Hin & Hs & Hargv).
      exists p. repeat split; [now right|exact Hs|exact Hargv].
    + intros e He. exact He.
Qed.

(** The forward loop starts only the dry runs, reverse dry runs and
    applies of the patches it is given. *)
Lemma follows_apply_loop (k : tool) (sub : string) (todo : list string) :
  follows (forward_command args k sub todo) clean_end
    (apply_loop (Some (st k)) sub todo).
Proof.
  induction todo as [|patch rest IH].
  - apply follows_ret. exact I.
  - cbn [apply_loop].
    eapply follows_bind with (Pm := clean_end).
    + change (bind (bound "apply_func" (Some (st k)))
                (fun st0 => apply_func st0 sub patch))
        with (fun s : St World => apply_func (st k) sub patch s).
      apply follows_apply_func; exists patch;
        (repeat split; [now left|]); auto.
    + intros [] _.
      eapply follows_weaken; [apply IH| |auto].
      intros argv stdin (p & Hin & Hs & Hargv).
      exists p. repeat split; [now right|exact Hs|exact Hargv].
    + intros e He. exact He.
Qed.

Lemma follows_path_exists R (Po : outcome bool -> Prop) (path : string) :
  (forall b, Po (Ok b)) -> follows R Po (path_exists host path).
Proof.
  intros H s. exists []. cbn. rewrite app_nil_r.
  split; [reflexivity|split; [intros ? ? []|apply H]].
Qed.

Lemma follows_iterdir_is_empty R (path : string) :
  follows R clean_end (iterdir_is_empty host path).
Proof.
  intros s. exists []. unfold iterdir_is_empty.
  destruct (host_iterdir host path (world s)) as [[|x l]|]; cbn;
    rewrite app_nil_r; (split; [reflexivity|split; [intros ? ? []|exact I]]).
Qed.

Lemma follows_os_chdir R (path : string) :
  follows R clean_end (os_chdir host path).
Proof.
  intros s. unfold os_chdir.
  destruct (host_chdir host path (world s)) as [w|]; cbn.
  - eexists. split; [reflexivity|split; [|exact I]].
    intros ? ? [Heq|[]]. discriminate.
  - exists []. rewrite app_nil_r.
    split; [reflexivity|split; [intros ? ? []|exact I]].
Qed.

(** How one of several runs of [git] may end. *)
Let git_outcome (o : outcome unit) : Prop :=
  exists argv, tool_outcome GitApply argv o.

Lemma follows_run_git R (argv : list string) :
  R argv None -> follows R git_outcome (_run_command host argv).
Proof.
  intros HR. eapply follows_weaken; [apply (follows_run_command R argv HR)| |];
    [auto|]. intros o Ho. now exists argv.
Qed.

Lemma git_outcome_other (e : exn) (Po : outcome unit -> Prop) :
  (forall x, Po (Raise (EOSError x))) ->
  (forall exc, e <> ECalledProcessError exc) ->
  git_outcome (Raise e) -> Po (Raise e).
Proof.
  intros HP Hne [argv Ho]. destruct e; try contradiction; [|apply HP].
  exfalso. eapply Hne. reflexivity.
Qed.

(** The [git am] branch starts only its three commands. *)
Lemma follows_git_am_branch (sub : string) :
  follows (git_am_command args sub) clean_end (git_am_branch host args sub).
Proof.
  assert (Hreset : git_am_command args sub
                     (reset_hard_argv (git_executable args) sub) None)
    by (split; auto).
  assert (Hclean : git_am_command args sub
                     (clean_argv (git_executable args) sub) None)
    by (split; auto).
  assert (Ham : git_am_command args sub
                  (git_am_argv (git_executable args) sub (patches args))
                  None)
    by (split; auto).
  unfold git_am_branch.
  eapply follows_bind with (Pm := clean_end);
    [apply follows_print; exact I| |auto].
  intros [] _.
  eapply follows_bind with (Pm := clean_end);
    [apply follows_print; exact I| |auto].
  intros [] _.
  eapply follows_bind with (Pm := clean_end); [| |auto].
  - unfold _reset_git_submodule.
    eapply follows_try_except with (Pm := git_outcome).
    + eapply follows_bind with (Pm := git_outcome).
      * apply follows_run_git. exact Hreset.
      * intros [] _. apply follows_run_git. exact Hclean.
      * auto.
    + intros exc [argv [c ->]].
      apply (follows_fail_func _ _ GitApply _ argv c). reflexivity.
    + intros a _. exact I.
    + intros e Hne He. apply (git_outcome_other e); auto. intros; exact I.
  - intros [] _.
    eapply follows_bind with (Pm := fun o => exists b, o = Ok b);
      [apply follows_path_exists| |].
    + intros b. now exists b.
    + intros possible_failed_git_am _.
      eapply follows_bind with (Pm := clean_end);
        [apply follows_print; exact I| |auto].
      intros [] _.
      eapply follows_try_except with (Pm := git_outcome).
      * apply follows_run_git. exact Ham.
      * intros exc [argv [c ->]].
        eapply follows_bind with (Pm := clean_end);
          [apply follows_printerr; exact I| |auto].
        intros [] _.
        eapply follows_bind with (Pm := clean_end); [| |auto].
        -- destruct possible_failed_git_am.
           ++ eapply follows_bind with (Pm := clean_end);
                [apply follows_printerr; exact I| |auto].
              intros [] _.
              eapply follows_bind with (Pm := clean_end);
                [apply follows_printerr; exact I| |auto].
              intros [] _. apply follows_printerr. exact I.
           ++ eapply follows_bind with (Pm := clean_end);
                [apply follows_iterdir_is_empty| |auto].
              intros [|] _.
              ** eapply follows_bind with (Pm := clean_end);
                   [apply follows_printerr; exact I| |auto].
                 intros [] _.
                 eapply follows_bind with (Pm := clean_end);
                   [apply follows_printerr; exact I| |auto].
                 intros [] _. apply follows_printerr. exact I.
              ** apply follows_printerr. exact I.
        -- intros [] _.
           eapply follows_bind with (Pm := clean_end);
             [apply follows_printerr; exact I| |auto].
           intros [] _.
           eapply follows_bind with (Pm := clean_end);
             [apply follows_printerr; exact I| |auto].
           intros [] _. cbn [tool_error cpe_stderr rstrip_of].
           eapply follows_bind with (Pm := fun o => exists a, o = Ok a);
             [apply follows_ret; eexists; reflexivity| |].
           ++ intros err _.
              eapply follows_bind with (Pm := clean_end);
                [apply follows_printerr; exact I| |auto].
              intros [] _. apply follows_raise. reflexivity.
           ++ intros e [a He]. discriminate.
      * intros a _. exact I.
      * intros e Hne He. apply (git_outcome_other e); auto. intros; exact I.
    + intros e [b He]. discriminate.
Qed.

(** The revert-then-apply branch starts only the programs of its two
    passes. *)
Lemma follows_revert_apply_branch (k : tool) (sub : string)
    (is_in_git_repo : bool) :
  selected_tool args = Some k ->
  follows
    (fun argv stdin =>
       cleanup_command args k sub (patches args) argv stdin \/
       forward_command args k sub (patches args) argv stdin)
    clean_end
    (revert_apply_branch host args sub is_in_git_repo).
Proof.
  intros Hk.
  destruct (revert_apply_branch_spec host args k sub is_in_git_repo Hk)
    as (pre & Hpre & Heq).
  eapply follows_after; [exact Hpre|exact Heq|].
  eapply follows_bind with (Pm := clean_end); [| |auto].
  - eapply follows_weaken; [apply follows_cleanup_loop| |auto].
    intros argv stdin (p & Hin & Hs & Hargv). left.
    exists p. split; [now apply in_rev|]. now split.
  - intros [] _.
    eapply follows_bind with (Pm := clean_end);
      [apply follows_print; exact I| |auto].
    intros [] _.
    eapply follows_weaken; [apply follows_apply_loop| |auto].
    intros argv stdin H. now right.
Qed.

Lemma clean_end_script_end (o : outcome unit) :
  clean_end o -> script_end o.
Proof.
  destruct o as [a|[e|x|c p r f|x|x|[n|m]]]; cbn; tauto.
Qed.

(** The script body: what it starts and how it ends. *)
Lemma follows_main (environ : string -> option string) :
  follows (script_command host args) script_end (main host args environ).
Proof.
  unfold main.
  eapply follows_bind with (Pm := clean_end).
  - destruct (environ "MESON_SOURCE_ROOT"); apply follows_os_chdir.
  - intros [] _.
    destruct ((git_executable args =? EmptyString)%string
              && (patch_executable args =? EmptyString)%string) eqn:Eempty.
    + apply follows_raise. reflexivity.
    + eapply follows_bind with (Pm := fun o => exists b, o = Ok b);
        [apply follows_path_exists; intros b; now exists b| |].
      * intros is_in_git_repo _.
        destruct (truthy (git_executable args) && is_in_git_repo) eqn:Eb.
        -- eapply follows_weaken; [apply follows_git_am_branch| |].
           ++ intros argv stdin H. left. split; [|exact H].
              now destruct (truthy (git_executable args)).
           ++ apply clean_end_script_end.
        -- assert (Hk : exists k, selected_tool args = Some k).
           { unfold selected_tool. rewrite !eqb_empty in Eempty.
             destruct (truthy (git_executable args)); [eauto|].
             destruct (truthy (patch_executable args)); [eauto|].
             discriminate. }
           destruct Hk as [k Hk].
           eapply follows_weaken;
             [apply (follows_revert_apply_branch k _ _ Hk)| |].
           ++ intros argv stdin H. right. now exists k.
           ++ apply clean_end_script_end.
      * intros e [b He]. discriminate.
  - intros e He. now apply clean_end_script_end.
Qed.

(** Around [main] the interpreter adds no program to the log. *)
Lemma script_events (environ : string -> option string) (s : St World) :
  commands (events (snd (script host args environ s)))
  = commands (events (snd (main host args environ s))) /\
  world (snd (script host args environ s))
  = world (snd (main host args environ s)).
Proof.
  unfold script.
  destruct (main host args environ s) as [[[]|[| | | | |[]]] s'];
    cbn [fst snd events world]; rewrite ?commands_app; cbn [commands];
    rewrite ?app_nil_r; auto.
Qed.

End WithHost.
End DisciplineFacts.

(* ===================================================================== *)
(** * Further properties of the driver                                    *)
(* ===================================================================== *)

Module DriverExtras.
Import Py MesonPatchVendor Protocol Discipline DriverFacts DisciplineFacts.
Local Open Scope list_scope.

Lemma commands_in (l : list event) (argv : list string) :
  In argv (commands l) -> exists stdin, In (Ran argv stdin) l.
Proof.
  induction l as [|e l IH]; [intros []|].
  destruct e; simpl; try (intros H; destruct (IH H) as [i Hi]; eauto).
  intros [<-|H]; [eauto|]. destruct (IH H) as [i Hi]. eauto.
Qed.

Lemma commands_reverted_events {World : Type} (host : Host World)
    (args : Args) (k : tool) (sub : string) (series : list string) :
  commands (reverted_events args k sub series)
  = flat_map (fun patch => [revert_check_argv args k sub patch;
                            revert_argv args k sub patch]) series.
Proof.
  unfold reverted_events.
  induction series as [|p l IH]; [reflexivity|]. cbn [flat_map].
  now rewrite !commands_app, !commands_tool_events, IH.
Qed.

Lemma commands_applied_events {World : Type} (host : Host World)
    (args : Args) (k : tool) (sub : string) (series : list string) :
  commands (applied_events args k sub series)
  = flat_map (fun patch => [apply_check_argv args k sub patch;
                            apply_argv args k sub patch]) series.
Proof.
  unfold applied_events.
  induction series as [|p l IH]; [reflexivity|]. cbn [flat_map].
  now rewrite !commands_app, !commands_tool_events, IH.
Qed.

(** X9.  No non-zero exit of a tool escapes the script.  On a host as
    the embedding has it, where a program either cannot be started (an
    [OSError]) or runs to an exit code with output that decodes as text:
    the script body returns, or leaves through [sys.exit(1)], through the
    [sys.exit] of the missing tools, or with an [OSError] of the host; it
    never ends with an uncaught [CalledProcessError], [AttributeError] or
    [NameError].  So the exit status is 0 or 1, and 0 exactly when the
    body returned.  (Output that does not decode makes [subprocess.run]
    raise a [UnicodeDecodeError], which the script does not handle and
    which this host cannot answer: that ending is outside the
    statement.) *)
Theorem script_ends_cleanly
    {World : Type} (host : Host World) (args : Args)
    (environ : string -> option string) (s : St World) :
  script_end (fst (main host args environ s)) /\
  (fst (script host args environ s) = 0%Z \/
   fst (script host args environ s) = 1%Z) /\
  (fst (script host args environ s) = 0%Z <->
   fst (main host args environ s) = Ok tt).
Proof.
  destruct (follows_main host args environ s) as (ev & _ & _ & Hend).
  split; [exact Hend|]. unfold script.
  destruct (main host args environ s) as [[[]|[e|x|c p r f|x|x|[n|m]]] s'];
    cbn in Hend |- *; try contradiction;
    try (split; [now right|split; discriminate]).
  - split; [now left|split; reflexivity].
  - subst n. split; [now right|split; discriminate].
Qed.

Ltac tally :=
  cbn [fst snd world events];
  rewrite ?commands_app; cbn [commands tool_events app];
  rewrite ?app_nil_r, <- ?app_assoc; cbn [app].

(** The [git am] branch starts its three commands in order and stops at
    the first that fails or cannot be started. *)
Lemma git_am_branch_prefix {World : Type} (host : Host World) (args : Args)
    (sub : string) (s : St World) :
  exists n,
    commands (events (snd (git_am_branch host args sub s)))
    = commands (events s)
        ++ firstn n [reset_hard_argv (git_executable args) sub;
                     clean_argv (git_executable args) sub;
                     git_am_argv (git_executable args) sub (patches args)].
Proof.
  unfold git_am_branch, _reset_git_submodule, _failed_git_invocation,
    try_except, try_except_else, path_exists, rstrip_of, iterdir_is_empty,
    sys_exit, print, _printerr, emit, bind, raise, ret.
  cbn [world events]. rewrite run_command_spec; cbv zeta; cbn [world events].
  destruct (host_spawn host (reset_hard_argv (git_executable args) sub) None
              false (world s)) as [[c1 w1]|].
  2:{ exists 1. tally. reflexivity. }
  destruct (Z.eqb_spec (returncode c1) 0) as [E1|E1].
  2:{ exists 1. cbn [tool_error cpe_stderr]. tally. reflexivity. }
  rewrite run_command_spec; cbv zeta; cbn [world events].
  destruct (host_spawn host (clean_argv (git_executable args) sub) None
              false w1) as [[c2 w2]|].
  2:{ exists 2. tally. reflexivity. }
  destruct (Z.eqb_spec (returncode c2) 0) as [E2|E2].
  2:{ exists 2. cbn [tool_error cpe_stderr]. tally. reflexivity. }
  rewrite run_command_spec; cbv zeta; cbn [world events].
  exists 3.
  destruct (host_spawn host
              (git_am_argv (git_executable args) sub (patches args)) None
              false w2) as [[c3 w3]|]; [|tally; reflexivity].
  destruct (Z.eqb_spec (returncode c3) 0) as [E3|E3]; [tally; reflexivity|].
  cbn [tool_error cpe_stderr world events].
  destruct (host_exists host
              (join (os_sep host)
                 [".git"; "modules"; "vendor"; submodule_name args;
                  "rebase-apply"]) w2);
    cbn [world events];
    [|destruct (host_iterdir host sub w3) as [[|x l]|]];
    tally; reflexivity.
Qed.

Lemma truthy_false (x : string) : truthy x = false -> x = EmptyString.
Proof. destruct x; [reflexivity|discriminate]. Qed.

(** X10.  Every program the script starts is one it is meant to start,
    and which ones depends on the branch taken.  Where the source
    directory cannot be entered, none.  With [git] given and [.git]
    there: [git reset --hard], [git clean --force -d -x] and [git am]
    with the series, in this order, each at most once and none after
    one that was skipped.  Otherwise, with [git] given: only
    [git apply] with [--check --reverse], [--reverse],
    [--check --verbose], [--reverse --check] or [--verbose], for a patch
    of the series; without [git] and with [patch] given: only [patch]
    with [-R --dry-run], [-R], [--dry-run], [--dry-run -R] or no further
    option; with neither, none.  So [git reset], [git clean] and [git am]
    are never started outside a repository, [git apply] and [patch] are
    never mixed, and [patch] is used only when [git] is not given. *)
Theorem script_starts_only_its_commands
    {World : Type} (host : Host World) (args : Args)
    (environ : string -> option string) (s : St World) :
  let git := git_executable args in
  let patch_exe := patch_executable args in
  let sub := ("vendor" ++ os_sep host ++ submodule_name args)%string in
  exists started,
    commands (events (snd (script host args environ s)))
      = commands (events s) ++ started /\
    match host_chdir host (source_root host environ) (world s) with
    | None => started = []
    | Some w =>
        if truthy git && host_exists host ".git" w then
          exists n,
            started
            = firstn n
                [[git; "-C"; sub; "reset"; "--hard"];
                 [git; "-C"; sub; "clean"; "--force"; "-d"; "-x"];
                 [git; "-c"; "safe.directory=*";
                  "-c"; "user.name=android-tools-static's build system";
                  "-c"; "user.email=email@invalid.invalid";
                  "-C"; sub; "am"] ++ patches args]
        else if truthy git then
          forall argv,
            In argv started ->
            exists patch,
              In patch (patches args) /\
              In argv
                [[git; "-C"; sub; "apply"; "--check"; "--reverse"; patch];
                 [git; "-C"; sub; "apply"; "--reverse"; patch];
                 [git; "-C"; sub; "apply"; "--check"; "--verbose"; patch];
                 [git; "-C"; sub; "apply"; "--reverse"; "--check"; patch];
                 [git; "-C"; sub; "apply"; "--verbose"; patch]]
        else if truthy patch_exe then
          forall argv,
            In argv started ->
            In argv
              [[patch_exe; "-d"; sub; "-p"; "1"; "-R"; "--dry-run"];
               [patch_exe; "-d"; sub; "-p"; "1"; "-R"];
               [patch_exe; "-d"; sub; "-p"; "1"; "--dry-run"];
               [patch_exe; "-d"; sub; "-p"; "1"; "--dry-run"; "-R"];
               [patch_exe; "-d"; sub; "-p"; "1"]]
        else started = []
    end.
Proof.
  intros git patch_exe sub. subst git patch_exe sub.
  destruct (script_events host args environ s) as [-> _].
  destruct (host_chdir host (source_root host environ) (world s))
    as [w|] eqn:Hcd.
  2:{ exists []. split; [|reflexivity]. rewrite app_nil_r.
      unfold main, source_root in *.
      destruct (environ "MESON_SOURCE_ROOT"); unfold bind, os_chdir;
        now rewrite Hcd. }
  destruct (truthy (git_executable args) && host_exists host ".git" w)
    eqn:Hb.
  - apply andb_true_iff in Hb as [Hg He].
    rewrite (main_git_am host args environ s w Hcd Hg He).
    destruct (git_am_branch_prefix host args (submodule_path host args)
                (mkSt w (events s ++ [Chdir (source_root host environ)])))
      as [n Hn].
    rewrite Hn. cbn [events]. rewrite commands_app. cbn [commands].
    rewrite app_nil_r. eexists. split; [reflexivity|]. now exists n.
  - destruct (selected_tool args) as [k|] eqn:Hk.
    + rewrite (main_revert_apply host args k environ s w Hk Hcd Hb).
      destruct (follows_revert_apply_branch host args k
                  (submodule_path host args) (host_exists host ".git" w) Hk
                  (mkSt w (events s ++ [Chdir (source_root host environ)])))
        as (ev & Hev & Hran & _).
      exists (commands ev). rewrite Hev. cbn [events].
      rewrite !commands_app. cbn [commands]. rewrite app_nil_r.
      split; [reflexivity|].
      unfold selected_tool in Hk.
      destruct (truthy (git_executable args));
        [|destruct (truthy (patch_executable args)); [|discriminate]];
        injection Hk as <-; intros argv Hin;
        destruct (commands_in ev argv Hin) as [stdin Hs];
        destruct (Hran argv stdin Hs)
          as [(p & Hp & _ & [-> | ->])|(p & Hp & _ & [-> | [-> | ->]])];
        try (exists p; split; [exact Hp|]);
        cbn [In]; repeat first [left; reflexivity | right].
    + unfold selected_tool in Hk.
      destruct (truthy (git_executable args)) eqn:Hg; [discriminate|].
      destruct (truthy (patch_executable args)) eqn:Hp; [discriminate|].
      exists []. split; [|reflexivity]. rewrite app_nil_r.
      unfold main, source_root in *.
      rewrite (truthy_false _ Hg), (truthy_false _ Hp).
      cbn [String.eqb andb].
      destruct (environ "MESON_SOURCE_ROOT");
        unfold bind, os_chdir, sys_exit, raise; rewrite Hcd;
        cbn [fst snd events]; rewrite commands_app; cbn [commands];
        now rewrite app_nil_r.
Qed.

(** X11.  The two passes keep to their own commands, whatever exit
    codes the tools give: the cleanup loop starts only dry-run reverts and
    reverts, the forward loop only dry-run applies, reverse dry-run
    applies and applies, each of a patch of the list the loop was given
    and with that patch on standard input when the tool is [patch].  On a
    host as the embedding has it, where a program either cannot be
    started or runs to an exit code with output that decodes as text,
    either loop returns or leaves through [sys.exit(1)] or an [OSError].
    (A [UnicodeDecodeError] of [subprocess.run] on output that does not
    decode is outside the statement.) *)
Theorem passes_keep_to_their_commands
    {World : Type} (host : Host World) (args : Args) (k : tool)
    (sub : string) (todo : list string) (flag : bool) :
  follows (cleanup_command args k sub todo) clean_end
    (cleanup_loop (Some (strategy_of host args k)) sub flag todo) /\
  follows (forward_command args k sub todo) clean_end
    (apply_loop (Some (strategy_of host args k)) sub todo).
Proof.
  split; [apply follows_cleanup_loop|apply follows_apply_loop].
Qed.

(** X12.  A revert that fails after its dry run passed is fatal at once,
    also when no revert has succeeded before: the cleanup ends with
    status 1 after writing that the revert was unsuccessful even though
    the previous dry run was successful, with what the tool reported; the
    rest of the series is not tried.  (Only a failed dry run is let
    pass.) *)
Theorem failed_revert_after_dry_run_is_fatal
    {World : Type} (host : Host World) (args : Args) (k : tool)
    (sub patch : string) (rest : list string) (flag : bool) (s : St World)
    (c c' : Completed) (w1 w2 : World) :
  revert_check host args k sub patch (world s) = Some (c, w1) ->
  returncode c = 0%Z ->
  revert_real host args k sub patch w1 = Some (c', w2) ->
  returncode c' <> 0%Z ->
  cleanup_loop (Some (strategy_of host args k)) sub flag (patch :: rest) s
  = (Raise (ESystemExit (ExitCode 1)),
     mkSt w2 (events s
                ++ tool_events k patch (revert_check_argv args k sub patch)
                ++ tool_events k patch (revert_argv args k sub patch)
                ++ [Stderr (diagnostic k
                              (revert_after_check_reason k sub patch) c')])).
Proof.
  intros H E H' E'. cbn [cleanup_loop].
  unfold bind at 1. unfold try_except_else, bound, bind at 1, ret at 1.
  now rewrite (revert_func_revert_fails host args k sub patch s c c' w1 w2
                 H E H' E').
Qed.

(** The pristine tree on a read-only file system, [git apply]. *)
Lemma failed_revert_after_dry_run_is_fatal_witness :
  fst (cleanup_loop
         (Some (strategy_of Machines.readonly_host Demo.git_args GitApply))
         "vendor/core" false ("b.patch" :: ["a.patch"])
         (Demo.start Demo.pristine))
  = Raise (ESystemExit (ExitCode 1)).
Proof.
  refine (f_equal fst
            (failed_revert_after_dry_run_is_fatal Machines.readonly_host
               Demo.git_args GitApply "vendor/core" "b.patch" ["a.patch"]
               false (Demo.start Demo.pristine)
               (mkCompleted 0 EmptyString EmptyString)
               (mkCompleted 1 "Read-only file system" "Read-only file system")
               Demo.pristine Demo.pristine eq_refl eq_refl eq_refl _)).
  discriminate.
Defined.

(** The programs of a run that goes through, by the command lines of
    the tool. *)
Lemma run_commands_in_order
    {World : Type} (host : Host World) (args : Args)
    (environ : string -> option string) (k : tool)
    (fails reverted : list string) (s : St World) (w wa w0 w1 : World) :
  let sub := submodule_path host args in
  selected_tool args = Some k ->
  host_chdir host (source_root host environ) (world s) = Some w ->
  truthy (git_executable args) && host_exists host ".git" w = false ->
  rev (patches args) = fails ++ reverted ->
  dry_run_reverts_fail host args k sub fails w wa ->
  reverts_succeed host args k sub reverted wa w0 ->
  patches_apply host args k sub (patches args) w0 w1 ->
  let r := script host args environ s in
  fst r = 0%Z /\ world (snd r) = w1 /\
  commands (events (snd r))
  = commands (events s)
      ++ map (revert_check_argv args k sub) fails
      ++ flat_map (fun patch => [revert_check_argv args k sub patch;
                                 revert_argv args k sub patch]) reverted
      ++ flat_map (fun patch => [apply_check_argv args k sub patch;
                                 apply_argv args k sub patch]) (patches args).
Proof.
  intros sub Hk Hcd Hb Hrev Hf Hr Ha r. subst r.
  destruct (run_goes_through host args k environ fails reverted s w wa w0 w1
              Hk Hcd Hb Hrev Hf Hr Ha) as (ev & Hrun & Hev).
  rewrite Hrun. cbn [fst snd world events].
  rewrite commands_app, Hev.
  rewrite (commands_reverted_events host), (commands_applied_events host).
  auto.
Qed.

(** X13.  The programs of a run that goes through, in their order: first
    the dry-run reverts that fail ([git apply --check --reverse],
    [patch -R --dry-run]), from the last patch of the series down; then,
    for the remaining patches, still from last to first, the dry-run
    revert and the revert ([git apply --reverse], [patch -R]) of each;
    then, from the first patch of the series to the last, the dry-run
    apply ([git apply --check --verbose], [patch --dry-run]) and the
    apply ([git apply --verbose], [patch] without further option) of
    each.  No apply is started before the last revert, and nothing else
    is started; the run ends with status 0 in the tree the last apply
    left. *)
Theorem order_of_a_run_that_goes_through
    {World : Type} (host : Host World) (args : Args)
    (environ : string -> option string) (k : tool)
    (fails reverted : list string) (s : St World) (w wa w0 w1 : World) :
  let sub := ("vendor" ++ os_sep host ++ submodule_name args)%string in
  let git := git_executable args in
  let patch_exe := patch_executable args in
  let dry_run_revert patch :=
    match k with
    | GitApply => [git; "-C"; sub; "apply"; "--check"; "--reverse"; patch]
    | Patch => [patch_exe; "-d"; sub; "-p"; "1"; "-R"; "--dry-run"]
    end in
  let revert patch :=
    match k with
    | GitApply => [git; "-C"; sub; "apply"; "--reverse"; patch]
    | Patch => [patch_exe; "-d"; sub; "-p"; "1"; "-R"]
    end in
  let dry_run_apply patch :=
    match k with
    | GitApply => [git; "-C"; sub; "apply"; "--check"; "--verbose"; patch]
    | Patch => [patch_exe; "-d"; sub; "-p"; "1"; "--dry-run"]
    end in
  let apply patch :=
    match k with
    | GitApply => [git; "-C"; sub; "apply"; "--verbose"; patch]
    | Patch => [patch_exe; "-d"; sub; "-p"; "1"]
    end in
  selected_tool args = Some k ->
  host_chdir host (source_root host environ) (world s) = Some w ->
  truthy (git_executable args) && host_exists host ".git" w = false ->
  rev (patches args) = fails ++ reverted ->
  dry_run_reverts_fail host args k sub fails w wa ->
  reverts_succeed host args k sub reverted wa w0 ->
  patches_apply host args k sub (patches args) w0 w1 ->
  let r := script host args environ s in
  fst r = 0%Z /\ world (snd r) = w1 /\
  commands (events (snd r))
  = commands (events s)
      ++ map dry_run_revert fails
      ++ flat_map (fun patch => [dry_run_revert patch; revert patch])
           reverted
      ++ flat_map (fun patch => [dry_run_apply patch; apply patch])
           (patches args).
Proof.
  destruct k;
    exact (run_commands_in_order host args environ _ fails reverted s
             w wa w0 w1).
Qed.

(** The demonstration tree with only [a.patch] applied, [patch]: the
    dry-run revert of [b.patch] fails, [a.patch] is reverted, both are
    applied, and the run ends in the fully patched tree. *)
Lemma order_of_a_run_that_goes_through_witness :
  let r := script Demo.tree_host Demo.patch_args Demo.no_environ
             (Demo.start (Demo.mkTree false [] ["a.patch"])) in
  fst r = 0%Z /\ world (snd r) = Demo.fully_patched /\
  commands (events (snd r))
  = [["patch"; "-d"; "vendor/core"; "-p"; "1"; "-R"; "--dry-run"];
     ["patch"; "-d"; "vendor/core"; "-p"; "1"; "-R"; "--dry-run"];
     ["patch"; "-d"; "vendor/core"; "-p"; "1"; "-R"];
     ["patch"; "-d"; "vendor/core"; "-p"; "1"; "--dry-run"];
     ["patch"; "-d"; "vendor/core"; "-p"; "1"];
     ["patch"; "-d"; "vendor/core"; "-p"; "1"; "--dry-run"];
     ["patch"; "-d"; "vendor/core"; "-p"; "1"]].
Proof.
  refine (order_of_a_run_that_goes_through Demo.tree_host Demo.patch_args
            Demo.no_environ Patch ["b.patch"] ["a.patch"]
            (Demo.start (Demo.mkTree false [] ["a.patch"]))
            (Demo.mkTree false [] ["a.patch"])
            (Demo.mkTree false [] ["a.patch"]) Demo.pristine
            Demo.fully_patched eq_refl eq_refl eq_refl eq_refl _ _ _).
  - refine (drf_cons Demo.tree_host Demo.patch_args Patch "vendor/core"
              "b.patch" [] (Demo.mkTree false [] ["a.patch"])
              (mkCompleted 1 "patch does not apply" "patch does not apply")
              (Demo.mkTree false [] ["a.patch"])
              (Demo.mkTree false [] ["a.patch"]) eq_refl _ _);
      [discriminate|constructor].
  - refine (rs_cons Demo.tree_host Demo.patch_args Patch "vendor/core"
              "a.patch" [] (Demo.mkTree false [] ["a.patch"])
              (mkCompleted 0 EmptyString EmptyString)
              (Demo.mkTree false [] ["a.patch"])
              (mkCompleted 0 EmptyString EmptyString) Demo.pristine
              Demo.pristine eq_refl eq_refl eq_refl eq_refl _).
    constructor.
  - refine (pa_cons Demo.tree_host Demo.patch_args Patch "vendor/core"
              "a.patch" ["b.patch"] Demo.pristine
              (mkCompleted 0 EmptyString EmptyString)
              (mkCompleted 0 EmptyString EmptyString)
              (Demo.mkTree false [] ["a.patch"]) Demo.fully_patched
              eq_refl eq_refl eq_refl eq_refl _).
    refine (pa_cons Demo.tree_host Demo.patch_args Patch "vendor/core"
              "b.patch" [] (Demo.mkTree false [] ["a.patch"])
              (mkCompleted 0 EmptyString EmptyString)
              (mkCompleted 0 EmptyString EmptyString)
              Demo.fully_patched Demo.fully_patched
              eq_refl eq_refl eq_refl eq_refl _).
    constructor.
Defined.

(** X14.  When the source directory cannot be entered, the script ends
    with the traceback of that error and status 1, whatever tools it was
    given; it has started no program and changed nothing. *)
Theorem script_stops_when_the_directory_is_missing
    {World : Type} (host : Host World) (args : Args)
    (environ : string -> option string) (s : St World) :
  host_chdir host (source_root host environ) (world s) = None ->
  script host args environ s
  = (1%Z,
     mkSt (world s)
       (events s ++ [Traceback (EOSError (source_root host environ))])).
Proof.
  intros H. unfold script, main, source_root in *.
  destruct (environ "MESON_SOURCE_ROOT"); unfold bind, os_chdir;
    now rewrite H.
Qed.

Lemma script_stops_when_the_directory_is_missing_witness :
  script Machines.lost_host Demo.git_args Demo.no_environ
    (Demo.start Demo.checkout)
  = (1%Z,
     mkSt Demo.checkout
       [Traceback (EOSError "/src/android-tools-static")]).
Proof.
  exact (script_stops_when_the_directory_is_missing Machines.lost_host
           Demo.git_args Demo.no_environ (Demo.start Demo.checkout) eq_refl).
Defined.

Section Success.
Context {World : Type}.
Variable host : Host World.
Variable args : Args.

Local Abbreviation st k := (strategy_of host args k).

(** A program that cannot be started, or a patch that cannot be opened,
    ends [run_tool] with an [OSError]. *)
Lemma run_tool_unavailable (k : tool) (patch : string)
    (argv : list string) (s : St World) :
  invoke host k patch argv (world s) = None ->
  exists x s', run_tool host k patch argv s = (Raise (EOSError x), s').
Proof.
  destruct k; cbn [invoke run_tool]; intros H.
  - rewrite run_command_spec. cbv zeta. rewrite H. eauto.
  - rewrite run_patch_spec. cbv zeta.
    destruct (host_open host patch (world s)); [rewrite H|]; eauto.
Qed.

(** How [apply_func] can return. *)
Lemma apply_func_returns (k : tool) (sub patch : string) (s s' : St World) :
  apply_func (st k) sub patch s = (Ok tt, s') ->
  (exists c w1 c',
     apply_check host args k sub patch (world s) = Some (c, w1) /\
     returncode c = 0%Z /\
     apply_real host args k sub patch w1 = Some (c', world s') /\
     returncode c' = 0%Z) \/
  (exists c w1 r,
     apply_check host args k sub patch (world s) = Some (c, w1) /\
     returncode c <> 0%Z /\
     apply_reverse_check host args k sub patch w1 = Some (r, world s') /\
     returncode r = 0%Z).
Proof.
  intros H.
  destruct (apply_check host args k sub patch (world s)) as [[c w1]|] eqn:Hc.
  2:{ rewrite apply_func_eq in H. unfold try_except_else in H.
      destruct (run_tool_unavailable k patch _ s Hc) as (x & s1 & Hrun).
      rewrite Hrun in H. discriminate. }
  destruct (Z.eq_dec (returncode c) 0) as [Ec|Ec].
  - destruct (apply_real host args k sub patch w1) as [[c' w2]|] eqn:Ha.
    2:{ rewrite apply_func_eq in H. unfold try_except, try_except_else in H.
        rewrite (run_tool_ok host k patch _ s c w1 Hc Ec) in H.
        destruct (run_tool_unavailable k patch
                    (apply_argv args k sub patch)
                    (mkSt w1 (events s
                                ++ tool_events k patch
                                     (apply_check_argv args k sub patch)))
                    Ha) as (x & s1 & Hrun).
        rewrite Hrun in H. discriminate. }
    destruct (Z.eq_dec (returncode c') 0) as [Ea|Ea].
    + rewrite (apply_func_applies host args k sub patch s c c' w1 w2
                 Hc Ec Ha Ea) in H.
      injection H as <-. left. exists c, w1, c'. auto.
    + rewrite (apply_func_apply_fails host args k sub patch s c c' w1 w2
                 Hc Ec Ha Ea) in H.
      discriminate.
  - destruct (apply_reverse_check host args k sub patch w1)
      as [[r w2]|] eqn:Hr.
    2:{ rewrite apply_func_eq in H. unfold try_except_else in H.
        rewrite (run_tool_fails host k patch _ s c w1 Hc Ec) in H.
        destruct (run_tool_unavailable k patch
                    (apply_reverse_check_argv args k sub patch)
                    (mkSt w1 (events s
                                ++ tool_events k patch
                                     (apply_check_argv args k sub patch)))
                    Hr) as (x & s1 & Hrun).
        rewrite Hrun in H. discriminate. }
    destruct (Z.eq_dec (returncode r) 0) as [Er|Er].
    + rewrite (apply_func_already_applied host args k sub patch s c r w1 w2
                 Hc Ec Hr Er) in H.
      injection H as <-. right. exists c, w1, r. auto.
    + rewrite (apply_func_fails host args k sub patch s c r w1 w2
                 Hc Ec Hr Er) in H.
      discriminate.
Qed.

Lemma apply_loop_returns (k : tool) (sub : string) (todo : list string) :
  forall s s',
    apply_loop (Some (st k)) sub todo s = (Ok tt, s') ->
    forward_pass_ok host args k sub todo (world s) (world s').
Proof.
  induction todo as [|patch rest IH]; intros s s' H.
  - injection H as <-. constructor.
  - rewrite apply_loop_cons in H.
    destruct (apply_func (st k) sub patch s) as [[[]|e] s1] eqn:Hf;
      [|discriminate].
    specialize (IH s1 s' H).
    destruct (apply_func_returns k sub patch s s1 Hf)
      as [(c & w1 & c' & Hc & Ec & Ha & Ea)|(c & w1 & r & Hc & Ec & Hr & Er)].
    + eapply fp_applies; eauto.
    + eapply fp_applied_already; eauto.
Qed.

Lemma apply_loop_gets_through (k : tool) (sub : string)
    (todo : list string) :
  forall w log w',
    forward_pass_ok host args k sub todo w w' ->
    exists ev, apply_loop (Some (st k)) sub todo (mkSt w log)
               = (Ok tt, mkSt w' (log ++ ev)).
Proof.
  induction todo as [|patch rest IH]; intros w log w' H; inversion H; subst.
  - exists []. now rewrite app_nil_r.
  - rewrite apply_loop_cons.
    erewrite apply_func_applies by (cbn [world]; eassumption).
    edestruct (IH w2) as [ev Hev]; [eassumption|].
    rewrite Hev. cbn [events]. eexists. now rewrite <- !app_assoc.
  - rewrite apply_loop_cons.
    erewrite apply_func_already_applied by (cbn [world]; eassumption).
    edestruct (IH w2) as [ev Hev]; [eassumption|].
    rewrite Hev. cbn [events]. eexists. now rewrite <- !app_assoc.
Qed.

(** *** The cleanup loop, when a program cannot be started *)

Lemma cleanup_step_unavailable (k : tool) (sub patch : string)
    (rest : list string) (flag : bool) (s : St World) :
  revert_check host args k sub patch (world s) = None ->
  exists x s',
    cleanup_loop (Some (st k)) sub flag (patch :: rest) s
    = (Raise (EOSError x), s').
Proof.
  intros H. cbn [cleanup_loop].
  unfold bind at 1. unfold try_except_else, bound, bind at 1, ret at 1.
  rewrite revert_func_eq. unfold bind at 1.
  destruct (run_tool_unavailable k patch _ s H) as (x & s1 & Hrun).
  rewrite Hrun. eauto.
Qed.

Lemma cleanup_step_revert_unavailable (k : tool) (sub patch : string)
    (rest : list string) (flag : bool) (s : St World)
    (c : Completed) (w1 : World) :
  revert_check host args k sub patch (world s) = Some (c, w1) ->
  returncode c = 0%Z ->
  revert_real host args k sub patch w1 = None ->
  exists x s',
    cleanup_loop (Some (st k)) sub flag (patch :: rest) s
    = (Raise (EOSError x), s').
Proof.
  intros H E H'. cbn [cleanup_loop].
  unfold bind at 1. unfold try_except_else, bound, bind at 1, ret at 1.
  rewrite revert_func_eq. unfold bind at 1.
  rewrite (run_tool_ok host k patch _ s c w1 H E).
  unfold try_except, try_except_else.
  destruct (run_tool_unavailable k patch (revert_argv args k sub patch)
              (mkSt w1 (events s
                          ++ tool_events k patch
                               (revert_check_argv args k sub patch)))
              H') as (x & s1 & Hrun).
  rewrite Hrun. eauto.
Qed.

Lemma cleanup_step_revert_fails (k : tool) (sub patch : string)
    (rest : list string) (flag : bool) (s : St World)
    (c c' : Completed) (w1 w2 : World) :
  revert_check host args k sub patch (world s) = Some (c, w1) ->
  returncode c = 0%Z ->
  revert_real host args k sub patch w1 = Some (c', w2) ->
  returncode c' <> 0%Z ->
  exists s',
    cleanup_loop (Some (st k)) sub flag (patch :: rest) s
    = (Raise (ESystemExit (ExitCode 1)), s').
Proof.
  intros H E H' E'. cbn [cleanup_loop].
  unfold bind at 1. unfold try_except_else, bound, bind at 1, ret at 1.
  rewrite (revert_func_revert_fails host args k sub patch s c c' w1 w2
             H E H' E').
  eauto.
Qed.

(** After a revert has succeeded the loop returns only if every later
    revert succeeds. *)
Lemma cleanup_returns_after_revert (k : tool) (sub : string)
    (todo : list string) :
  forall s s',
    cleanup_loop (Some (st k)) sub true todo s = (Ok tt, s') ->
    reverts_succeed host args k sub todo (world s) (world s').
Proof.
  induction todo as [|patch rest IH]; intros s s' H.
  - injection H as <-. constructor.
  - destruct (revert_check host args k sub patch (world s))
      as [[c w1]|] eqn:Hc.
    2:{ destruct (cleanup_step_unavailable k sub patch rest true s Hc)
          as (x & s1 & Hx). rewrite Hx in H. discriminate. }
    destruct (Z.eq_dec (returncode c) 0) as [Ec|Ec].
    2:{ rewrite (cleanup_step_fatal host args k sub patch rest s c w1 Hc Ec)
          in H. discriminate. }
    destruct (revert_real host args k sub patch w1) as [[c' w2]|] eqn:Hr.
    2:{ destruct (cleanup_step_revert_unavailable k sub patch rest true s
                    c w1 Hc Ec Hr) as (x & s1 & Hx).
        rewrite Hx in H. discriminate. }
    destruct (Z.eq_dec (returncode c') 0) as [Er|Er].
    2:{ destruct (cleanup_step_revert_fails k sub patch rest true s
                    c c' w1 w2 Hc Ec Hr Er) as (s1 & Hx).
        rewrite Hx in H. discriminate. }
    rewrite (cleanup_step_reverted host args k sub patch rest true s
               c c' w1 w2 Hc Ec Hr Er) in H.
    apply IH in H. cbn [world] in H. econstructor; eauto.
Qed.

(** The loop returns only if failed dry runs come first and successful
    reverts after them. *)
Lemma cleanup_returns (k : tool) (sub : string) (todo : list string) :
  forall s s',
    cleanup_loop (Some (st k)) sub false todo s = (Ok tt, s') ->
    cleanup_ok host args k sub todo (world s) (world s').
Proof.
  induction todo as [|patch rest IH]; intros s s' H.
  - injection H as <-. exists [], [], (world s).
    repeat split; constructor.
  - destruct (revert_check host args k sub patch (world s))
      as [[c w1]|] eqn:Hc.
    2:{ destruct (cleanup_step_unavailable k sub patch rest false s Hc)
          as (x & s1 & Hx). rewrite Hx in H. discriminate. }
    destruct (Z.eq_dec (returncode c) 0) as [Ec|Ec].
    + destruct (revert_real host args k sub patch w1) as [[c' w2]|] eqn:Hr.
      2:{ destruct (cleanup_step_revert_unavailable k sub patch rest false
                      s c w1 Hc Ec Hr) as (x & s1 & Hx).
          rewrite Hx in H. discriminate. }
      destruct (Z.eq_dec (returncode c') 0) as [Er|Er].
      2:{ destruct (cleanup_step_revert_fails k sub patch rest false s
                      c c' w1 w2 Hc Ec Hr Er) as (s1 & Hx).
          rewrite Hx in H. discriminate. }
      rewrite (cleanup_step_reverted host args k sub patch rest false s
                 c c' w1 w2 Hc Ec Hr Er) in H.
      apply cleanup_returns_after_revert in H. cbn [world] in H.
      exists [], (patch :: rest), (world s).
      repeat split; [constructor|econstructor; eauto].
    + rewrite (cleanup_step_tolerated host args k sub patch rest s c w1
                 Hc Ec) in H.
      apply IH in H. cbn [world] in H.
      destruct H as (fails & reverted & wa & -> & Hf & Hrs).
      exists (patch :: fails), reverted, wa.
      repeat split; [econstructor; eauto|exact Hrs].
Qed.

Lemma cleanup_gets_through (k : tool) (sub : string) (todo : list string)
    (w : World) (log : list event) (w' : World) :
  cleanup_ok host args k sub todo w w' ->
  exists ev, cleanup_loop (Some (st k)) sub false todo (mkSt w log)
             = (Ok tt, mkSt w' (log ++ ev)).
Proof.
  intros (fails & reverted & wa & -> & Hf & Hr).
  rewrite (cleanup_tolerates host args k sub fails reverted (mkSt w log) wa)
    by exact Hf.
  rewrite (cleanup_all_reverted host args k sub reverted _ w') by exact Hr.
  cbn [events]. eexists. now rewrite <- app_assoc.
Qed.

(** The two passes in a row, as the revert-then-apply branch runs them. *)
Lemma passes_return (k : tool) (sub : string) (series : list string)
    (s0 sf : St World) :
  bind (cleanup_loop (Some (st k)) sub false (rev series))
    (fun _ =>
       bind (print ["    ======= Applying patches ======="])
         (fun _ => apply_loop (Some (st k)) sub series)) s0
  = (Ok tt, sf) ->
  exists w0,
    cleanup_ok host args k sub (rev series) (world s0) w0 /\
    forward_pass_ok host args k sub series w0 (world sf).
Proof.
  unfold bind at 1.
  destruct (cleanup_loop (Some (st k)) sub false (rev series) s0)
    as [[[]|e] s1] eqn:Hclean; [|discriminate].
  apply cleanup_returns in Hclean.
  unfold bind at 1, print, emit.
  intros Happly. apply apply_loop_returns in Happly.
  cbn [world] in Happly. eauto.
Qed.

Lemma passes_get_through (k : tool) (sub : string) (series : list string)
    (w w0 w1 : World) (log : list event) :
  cleanup_ok host args k sub (rev series) w w0 ->
  forward_pass_ok host args k sub series w0 w1 ->
  exists ev,
    bind (cleanup_loop (Some (st k)) sub false (rev series))
      (fun _ =>
         bind (print ["    ======= Applying patches ======="])
           (fun _ => apply_loop (Some (st k)) sub series)) (mkSt w log)
    = (Ok tt, mkSt w1 (log ++ ev)).
Proof.
  intros Hc Hf.
  destruct (cleanup_gets_through k sub (rev series) w log w0 Hc)
    as (ev & Hev).
  unfold bind at 1. rewrite Hev.
  unfold bind at 1, print, emit. cbn [world events].
  destruct (apply_loop_gets_through k sub series w0
              ((log ++ ev)
                 ++ [Stdout
                       (join " " ["    ======= Applying patches ======="]
                          ++ LF)%string]) w1 Hf) as (ev' & Hev').
  rewrite Hev'. eexists. now rewrite <- !app_assoc.
Qed.

End Success.

(** X15.  The forward pass returns exactly when every patch of its list,
    in order, either applies (the dry run and the apply exit with zero) or
    is found applied (the dry run exits non-zero and the reverse dry run
    with zero), each in the world the patches before it left; it then
    leaves the world the last of these invocations left. *)
Theorem forward_pass_returns_iff
    {World : Type} (host : Host World) (args : Args) (k : tool)
    (sub : string) (todo : list string) (s : St World) (w' : World) :
  (exists s',
     apply_loop (Some (strategy_of host args k)) sub todo s = (Ok tt, s') /\
     world s' = w')
  <-> forward_pass_ok host args k sub todo (world s) w'.
Proof.
  split.
  - intros (s' & H & <-). now apply apply_loop_returns.
  - intros H. destruct s as [w log].
    destruct (apply_loop_gets_through host args k sub todo w log w' H)
      as [ev Hev].
    eexists. split; [exact Hev|reflexivity].
Qed.

(** X16.  The cleanup pass returns exactly when its list is made of
    patches whose dry-run revert exits non-zero followed by patches whose
    dry-run revert and revert both exit with zero, each in the world the
    earlier invocations left: once a patch has been reverted, every later
    patch must be reverted too. *)
Theorem cleanup_pass_returns_iff
    {World : Type} (host : Host World) (args : Args) (k : tool)
    (sub : string) (todo : list string) (s : St World) (w' : World) :
  (exists s',
     cleanup_loop (Some (strategy_of host args k)) sub false todo s
       = (Ok tt, s') /\
     world s' = w')
  <-> cleanup_ok host args k sub todo (world s) w'.
Proof.
  split.
  - intros (s' & H & <-). now apply cleanup_returns.
  - intros H. destruct s as [w log].
    destruct (cleanup_gets_through host args k sub todo w log w' H)
      as [ev Hev].
    eexists. split; [exact Hev|reflexivity].
Qed.

(** X17.  What status 0 means under the revert-then-apply branch: the
    script ends with status 0 in the world [w1] exactly when the cleanup
    pass gets through the reversed series and the forward pass then gets
    through the series, ending in [w1]; so after status 0 every patch has
    been applied, or found applied, by the tool. *)
Theorem status_zero_iff_both_passes_get_through
    {World : Type} (host : Host World) (args : Args)
    (environ : string -> option string) (k : tool) (s : St World)
    (w w1 : World) :
  let sub := submodule_path host args in
  selected_tool args = Some k ->
  host_chdir host (source_root host environ) (world s) = Some w ->
  truthy (git_executable args) && host_exists host ".git" w = false ->
  (fst (script host args environ s) = 0%Z /\
   world (snd (script host args environ s)) = w1)
  <->
  (exists w0,
     cleanup_ok host args k sub (rev (patches args)) w w0 /\
     forward_pass_ok host args k sub (patches args) w0 w1).
Proof.
  intros sub Hk Hcd Hb.
  destruct (revert_apply_branch_spec host args k sub
              (host_exists host ".git" w) Hk) as (pre & _ & Hbranch).
  pose proof (main_revert_apply host args k environ s w Hk Hcd Hb) as Hmain.
  fold sub in Hmain. rewrite Hbranch in Hmain. cbn [world events] in Hmain.
  destruct (follows_main host args environ s) as (ev & _ & _ & Hend).
  unfold script.
  destruct (main host args environ s) as [o sf] eqn:Hm.
  cbn [fst] in Hend. split.
  - intros [H0 Hw].
    assert (Ho : o = Ok tt).
    { destruct o as [[]|[e|x|c p r f|x|x|[n|m]]]; cbn [fst] in H0;
        cbn in Hend; try reflexivity; try discriminate; congruence. }
    subst o. cbn [snd] in Hw. symmetry in Hmain.
    apply passes_return in Hmain. cbn [world] in Hmain. subst w1.
    exact Hmain.
  - intros (w0 & Hc & Hf).
    destruct (passes_get_through host args k sub (patches args) w w0 w1
                ((events s ++ [Chdir (source_root host environ)]) ++ pre)
                Hc Hf) as (ev' & Hev').
    rewrite Hev' in Hmain. injection Hmain as -> ->. cbn. auto.
Qed.

(** The demonstration tree with only [a.patch] applied, [patch]: the
    script ends with status 0 and both patches applied, so both passes got
    through. *)
Lemma status_zero_iff_both_passes_get_through_witness :
  exists w0,
    cleanup_ok Demo.tree_host Demo.patch_args Patch
      (submodule_path Demo.tree_host Demo.patch_args)
      (rev (patches Demo.patch_args)) (Demo.mkTree false [] ["a.patch"]) w0 /\
    forward_pass_ok Demo.tree_host Demo.patch_args Patch
      (submodule_path Demo.tree_host Demo.patch_args)
      (patches Demo.patch_args) w0 Demo.fully_patched.
Proof.
  exact (proj1
           (status_zero_iff_both_passes_get_through Demo.tree_host
              Demo.patch_args Demo.no_environ Patch
              (Demo.start (Demo.mkTree false [] ["a.patch"]))
              (Demo.mkTree false [] ["a.patch"]) Demo.fully_patched
              eq_refl eq_refl eq_refl)
           (conj eq_refl eq_refl)).
Defined.

End DriverExtras.
